(** * hapi: server construction, settings resolution, admission and shutdown

    A shallow embedding of [lib/realm.js] (the [Realm] constructor that
    resolves the server settings) and of [lib/xxx.js] (the server object:
    constructor-argument classification, request dispatch, start and stop),
    followed by the properties proved about them. *)

From Stdlib Require Import ZArith QArith String Ascii List Bool Lia.
From stdpp Require Import base option gmap strings list.

Local Open Scope string_scope.

(** ** JavaScript data *)

(** A JavaScript number.  Every finite double is a rational, so the finite
    numbers are carried as rationals; the sign of zero is not tracked (both
    zeros are falsy and print alike). *)
Inductive number :=
| NaN
| Infinity (negative : bool)
| Fin (q : Q).

Definition of_int (z : Z) : number := Fin (inject_Z z).

(** The global [isFinite] on a number. *)
Definition isFinite (n : number) : bool :=
  match n with
  | Fin _ => true
  | _ => false
  end.

(** [a < b] on numbers: false as soon as an operand is [NaN]. *)
Definition number_lt (a b : number) : bool :=
  match a, b with
  | NaN, _ | _, NaN => false
  | Infinity true, Infinity true => false
  | Infinity true, _ => true
  | _, Infinity true => false
  | Infinity false, _ => false
  | Fin _, Infinity false => true
  | Fin x, Fin y => negb (Qle_bool y x)
  end.

(** [a >= b] on numbers, with the same treatment of [NaN]. *)
Definition number_ge (a b : number) : bool :=
  match a, b with
  | NaN, _ | _, NaN => false
  | _, Infinity true => true
  | Infinity true, _ => false
  | Infinity false, _ => true
  | Fin _, Infinity false => false
  | Fin x, Fin y => Qle_bool y x
  end.

(** ToBoolean on a number: zero and [NaN] are falsy. *)
Definition number_truthy (n : number) : bool :=
  match n with
  | NaN => false
  | Infinity _ => true
  | Fin q => negb (Qeq_bool q 0)
  end.

(** [a || b] for a property [a] that is a number or is absent. *)
Definition number_or (a : option number) (b : number) : number :=
  match a with
  | Some n => if number_truthy n then n else b
  | None => b
  end.

(** Object identities. *)
Definition loc := positive.

(** The values a caller can pass.  [VPack] is an instance of the pack
    constructor ([argVal instanceof Server] in [lib/xxx.js]); [VObject] is any
    other non-null object. *)
Inductive value :=
| VUndefined
| VNull
| VBoolean (b : bool)
| VNumber (n : number)
| VString (s : string)
| VObject (l : loc)
| VFunction (l : loc)
| VPack (l : loc).

Definition typeof (v : value) : string :=
  match v with
  | VUndefined => "undefined"
  | VNull => "object"
  | VBoolean _ => "boolean"
  | VNumber _ => "number"
  | VString _ => "string"
  | VObject _ => "object"
  | VFunction _ => "function"
  | VPack _ => "object"
  end.

(** ToBoolean. *)
Definition truthy (v : value) : bool :=
  match v with
  | VUndefined | VNull => false
  | VBoolean b => b
  | VNumber n => number_truthy n
  | VString s => negb (String.eqb s EmptyString)
  | VObject _ | VFunction _ | VPack _ => true
  end.

Definition is_undefined (v : value) : bool :=
  match v with
  | VUndefined => true
  | _ => false
  end.

Definition instanceof_Pack (v : value) : bool :=
  match v with
  | VPack _ => true
  | _ => false
  end.

(** [a && b] returns one of its operands. *)
Definition js_and (a b : value) : value := if truthy a then b else a.

(** Reading a property of an object kept as a map: [undefined] when absent. *)
Definition prop (o : gmap string value) (key : string) : value :=
  default VUndefined (o !! key).

(** ** JavaScript strings and arrays *)

(** [s.indexOf(sub)]: the first position of [sub] in [s], or -1. *)
Definition indexOf (s sub : string) : Z :=
  match String.index 0 sub s with
  | Some i => Z.of_nat i
  | None => -1
  end.

(** [a.indexOf(x)] on an array of strings (strict equality). *)
Fixpoint array_indexOf_from (i : Z) (a : list string) (x : string) : Z :=
  match a with
  | [] => -1
  | y :: rest => if String.eqb y x then i else array_indexOf_from (i + 1) rest x
  end.
Definition array_indexOf (a : list string) (x : string) : Z :=
  array_indexOf_from 0 a x.

(** [s.charAt(i)]: the empty string when [i] is out of range. *)
Definition charAt (s : string) (i : Z) : string :=
  if (i <? 0)%Z then EmptyString
  else match String.get (Z.to_nat i) s with
       | Some c => String c EmptyString
       | None => EmptyString
       end.

(** [a.join(sep)]. *)
Definition join (a : list string) (sep : string) : string := String.concat sep a.

Definition upper_ascii (c : ascii) : ascii :=
  let n := nat_of_ascii c in
  if ((97 <=? n) && (n <=? 122))%nat then ascii_of_nat (n - 32) else c.
Definition lower_ascii (c : ascii) : ascii :=
  let n := nat_of_ascii c in
  if ((65 <=? n) && (n <=? 90))%nat then ascii_of_nat (n + 32) else c.

Fixpoint map_string (f : ascii -> ascii) (s : string) : string :=
  match s with
  | EmptyString => EmptyString
  | String c rest => String (f c) (map_string f rest)
  end.

(** [s.toUpperCase()] and [s.toLowerCase()], on ASCII letters. *)
Definition toUpperCase (s : string) : string := map_string upper_ascii s.
Definition toLowerCase (s : string) : string := map_string lower_ascii s.

(** [s.replace(/ab/g, rep)] for a pattern of two literal characters [a], [b]:
    the occurrences are replaced from left to right, without overlap. *)
Fixpoint replace_pair (a b : ascii) (rep : string) (s : string) : string :=
  match s with
  | EmptyString => EmptyString
  | String c tl =>
      match tl with
      | EmptyString => s
      | String d rest =>
          if (Ascii.eqb c a && Ascii.eqb d b)%bool
          then rep +:+ replace_pair a b rep rest
          else String c (replace_pair a b rep tl)
      end
  end.

(** A regular expression, kept as its source text. *)
Record RegExp := new_RegExp { source : string }.

(** What the JavaScript runtime and the host supply: the conversion of a
    string to a number (unary [+]), the conversion of a number to a string
    (string concatenation), [Path.resolve] and [Os.hostname]. *)
Class Runtime := {
  ToNumber : string -> number;
  NumberToString : number -> string;
  Path_resolve : string -> string;
  Os_hostname : string
}.

(** ** Thrown errors *)

Inductive error :=
| AssertionError (message : string)
| SchemaError
| TypeError (message : string).

Inductive outcome (A : Type) :=
| Ok (a : A)
| Throw (e : error).
Arguments Ok {A} a.
Arguments Throw {A} e.

Global Instance outcome_ret : MRet outcome := fun A a => Ok a.
Global Instance outcome_bind : MBind outcome := fun A B k m =>
  match m with
  | Ok a => k a
  | Throw e => Throw e
  end.

(** ** The settings of [lib/realm.js] *)

(** A setting that is [false], [true] or an object of overrides. *)
Inductive toggle (A : Type) :=
| Off
| On
| Custom (a : A).
Arguments Off {A}.
Arguments On {A}.
Arguments Custom {A} a.

(** A timeout: [false] or a number of milliseconds. *)
Inductive timeout_value :=
| TFalse
| TNumber (n : number).

Definition timeout_truthy (t : timeout_value) : bool :=
  match t with
  | TFalse => false
  | TNumber n => number_truthy n
  end.

(** The number a timeout stands for in a comparison ([false] is 0). *)
Definition timeout_number (t : timeout_value) : number :=
  match t with
  | TFalse => of_int 0
  | TNumber n => n
  end.

Definition timeout_lt (a b : timeout_value) : bool :=
  number_lt (timeout_number a) (timeout_number b).
Definition timeout_ge (a b : timeout_value) : bool :=
  number_ge (timeout_number a) (timeout_number b).

(** [settings.timeout]; an absent [socket] is [undefined]. *)
Record Timeout := {
  socket : option timeout_value;
  client : timeout_value;
  server : timeout_value
}.

(** The [_origin] object derived from [cors.origin]. *)
Record Origin := {
  any : bool;
  qualified : list string;
  qualifiedString : string;
  wildcards : list RegExp
}.

(** [settings.cors] once resolved; the underscored properties are absent
    until the constructor adds them. *)
Record Cors := {
  origin : list string;
  isOriginExposed : bool;
  matchOrigin : bool;
  maxAge : number;
  headers : list string;
  additionalHeaders : list string;
  methods : list string;
  additionalMethods : list string;
  exposedHeaders : list string;
  additionalExposedHeaders : list string;
  credentials : bool;
  _headers : option string;
  _methods : option string;
  _exposedHeaders : option string;
  _origin : option Origin
}.

(** [security.hsts]: a boolean, a number, or [{ maxAge, includeSubdomains }]. *)
Inductive hsts_setting :=
| HstsBoolean (b : bool)
| HstsNumber (n : number)
| HstsObject (hsts_maxAge : option number) (includeSubdomains : option bool).

(** [security.xframe]: a boolean, a string, or [{ rule, source }]. *)
Inductive xframe_setting :=
| XframeBoolean (b : bool)
| XframeString (s : string)
| XframeObject (rule : option string) (source : option string).

(** [settings.security] once resolved. *)
Record Security := {
  hsts : hsts_setting;
  xframe : xframe_setting;
  xss : bool;
  noOpen : bool;
  noSniff : bool;
  _hsts : option string;
  _xframe : option string
}.

Record Tls := { key : string; cert : string }.

(** [settings.labels] as configured: one string or an array. *)
Inductive labels_setting :=
| LabelString (s : string)
| LabelArray (a : list string).

(** The objects a caller writes: every property may be left out. *)
Module Raw.

Record Timeout := {
  socket : option timeout_value;
  client : option timeout_value;
  server : option timeout_value
}.

Record Cors := {
  origin : option (list string);
  isOriginExposed : option bool;
  matchOrigin : option bool;
  maxAge : option number;
  headers : option (list string);
  additionalHeaders : option (list string);
  methods : option (list string);
  additionalMethods : option (list string);
  exposedHeaders : option (list string);
  additionalExposedHeaders : option (list string);
  credentials : option bool
}.

Record Security := {
  hsts : option hsts_setting;
  xframe : option xframe_setting;
  xss : option bool;
  noOpen : option bool;
  noSniff : option bool
}.

Record Options := {
  tls : option Tls;
  location : option string;
  cacheControlStatus : option (list Z);
  timeout : option Timeout;
  labels : option labels_setting;
  cors : option (toggle Cors);
  security : option (toggle Security)
}.

(** The object literal [{}]. *)
Definition empty : Options :=
  {| tls := None; location := None; cacheControlStatus := None;
     timeout := None; labels := None; cors := None; security := None |}.

End Raw.

(** [this.settings] as [Hoek.applyToDefaultsWithShallow] returns it and as
    [Schema.assert] sees it: [cors] and [security] are still as configured. *)
Record Options := {
  o_tls : option Tls;
  o_location : string;
  o_cacheControlStatus : list Z;
  o_timeout : Timeout;
  o_labels : labels_setting;
  o_cors : toggle Raw.Cors;
  o_security : toggle Raw.Security
}.

(** [this.settings] when the constructor returns; [None] in [cors] and
    [security] is [null].  The settings the two files never read (router,
    state, payload, json, files, debug, ...) are left out. *)
Record Settings := {
  tls : option Tls;
  location : string;
  cacheControlStatus : list Z;
  timeout : Timeout;
  labels : list string;
  cors : option Cors;
  security : option Security;
  _cacheControlStatus : gmap Z bool
}.

(** The table [internals.defaults] of [lib/realm.js]. *)
Record Defaults := {
  defaults_server : Options;
  defaults_cors : Cors;
  defaults_security : Security
}.

Definition defaults : Defaults :=
  {| defaults_server :=
       {| o_tls := None;
          o_location := EmptyString;
          o_cacheControlStatus := [200%Z];
          o_timeout := {| socket := None;
                          client := TNumber (of_int (10 * 1000));
                          server := TFalse |};
          o_labels := LabelArray [];
          o_cors := Off;
          o_security := Off |};
     defaults_cors :=
       {| origin := ["*"];
          isOriginExposed := true;
          matchOrigin := true;
          maxAge := of_int 86400;
          headers := ["Authorization"; "Content-Type"; "If-None-Match"];
          additionalHeaders := [];
          methods := ["GET"; "HEAD"; "POST"; "PUT"; "PATCH"; "DELETE"; "OPTIONS"];
          additionalMethods := [];
          exposedHeaders := ["WWW-Authenticate"; "Server-Authorization"];
          additionalExposedHeaders := [];
          credentials := false;
          _headers := None; _methods := None; _exposedHeaders := None;
          _origin := None |};
     defaults_security :=
       {| hsts := HstsNumber (of_int 15768000);
          xframe := XframeString "deny";
          xss := true;
          noOpen := true;
          noSniff := true;
          _hsts := None; _xframe := None |} |}.

(** [Schema.assert('server', settings)] of [lib/schema.js], which is not
    among the sources: the validation is a parameter. *)
Class Schema := { Schema_server : Options -> bool }.

(** ** The parts of hoek the two files call *)

Module Hoek.

(** [Hoek.assert(condition, message, ...)]: throws when the condition is
    falsy.  The message keeps the literal first part of the source's
    message; the values appended to it are not kept. *)
Definition assert (condition : bool) (message : string) : outcome unit :=
  if condition then Ok tt else Throw (AssertionError message).

(** The characters [Hoek.escapeRegex] escapes:
    [^ $ . * + - ? = ! : | \ / ( ) [ ] { } ,]. *)
Definition special : list ascii :=
  list_ascii_of_string "^$.*+-?=!:|\/()[]{},".

Definition is_special (c : ascii) : bool :=
  existsb (Ascii.eqb c) special.

(** [Hoek.escapeRegex(string)]: a backslash before every special
    character. *)
Fixpoint escapeRegex (s : string) : string :=
  match s with
  | EmptyString => EmptyString
  | String c rest =>
      if is_special c then String "\" (String c (escapeRegex rest))
      else String c (escapeRegex rest)
  end.

(** [Hoek.unique(array)]: the first occurrence of each element. *)
Fixpoint unique_from (seen : list string) (a : list string) : list string :=
  match a with
  | [] => []
  | x :: rest =>
      if existsb (String.eqb x) seen then unique_from seen rest
      else x :: unique_from (x :: seen) rest
  end.
Definition unique (a : list string) : list string := unique_from [] a.

(** [Hoek.mapToObject(array)]: every element becomes a key set to [true]. *)
Definition mapToObject (a : list Z) : gmap Z bool :=
  foldl (fun obj k => <[k := true]> obj) ∅ a.

(** The merge of [Hoek.applyToDefaults] on one property: a value that is
    neither [null] nor [undefined] replaces the default (arrays are
    replaced, not appended). *)
Definition over {A} (dflt : A) (given : option A) : A := default dflt given.

Definition merge_timeout (dflt : Timeout) (given : Raw.Timeout) : Timeout :=
  {| socket := match Raw.socket given with
               | Some t => Some t
               | None => socket dflt
               end;
     client := over (client dflt) (Raw.client given);
     server := over (server dflt) (Raw.server given) |}.

(** [Hoek.applyToDefaultsWithShallow(defaults, options, ['app', 'plugins'])]
    for an options object: a copy of the defaults with the given
    properties merged in. *)
Definition applyToDefaultsWithShallow (dflt : Options) (given : Raw.Options)
  : Options :=
  {| o_tls := match Raw.tls given with
              | Some t => Some t
              | None => o_tls dflt
              end;
     o_location := over (o_location dflt) (Raw.location given);
     o_cacheControlStatus :=
       over (o_cacheControlStatus dflt) (Raw.cacheControlStatus given);
     o_timeout := match Raw.timeout given with
                  | Some t => merge_timeout (o_timeout dflt) t
                  | None => o_timeout dflt
                  end;
     o_labels := over (o_labels dflt) (Raw.labels given);
     o_cors := over (o_cors dflt) (Raw.cors given);
     o_security := over (o_security dflt) (Raw.security given) |}.

Definition merge_cors (dflt : Cors) (given : Raw.Cors) : Cors :=
  {| origin := over (origin dflt) (Raw.origin given);
     isOriginExposed := over (isOriginExposed dflt) (Raw.isOriginExposed given);
     matchOrigin := over (matchOrigin dflt) (Raw.matchOrigin given);
     maxAge := over (maxAge dflt) (Raw.maxAge given);
     headers := over (headers dflt) (Raw.headers given);
     additionalHeaders :=
       over (additionalHeaders dflt) (Raw.additionalHeaders given);
     methods := over (methods dflt) (Raw.methods given);
     additionalMethods :=
       over (additionalMethods dflt) (Raw.additionalMethods given);
     exposedHeaders := over (exposedHeaders dflt) (Raw.exposedHeaders given);
     additionalExposedHeaders :=
       over (additionalExposedHeaders dflt) (Raw.additionalExposedHeaders given);
     credentials := over (credentials dflt) (Raw.credentials given);
     _headers := _headers dflt;
     _methods := _methods dflt;
     _exposedHeaders := _exposedHeaders dflt;
     _origin := _origin dflt |}.

Definition merge_security (dflt : Security) (given : Raw.Security) : Security :=
  {| hsts := over (hsts dflt) (Raw.hsts given);
     xframe := over (xframe dflt) (Raw.xframe given);
     xss := over (xss dflt) (Raw.xss given);
     noOpen := over (noOpen dflt) (Raw.noOpen given);
     noSniff := over (noSniff dflt) (Raw.noSniff given);
     _hsts := _hsts dflt;
     _xframe := _xframe dflt |}.

(** [Hoek.applyToDefaults(defaults, options)]: [null] for a falsy
    [options], a copy of the defaults for [true], the merge otherwise. *)
Definition applyToDefaults {A R} (merge : A -> R -> A) (dflt : A)
    (options : toggle R) : option A :=
  match options with
  | Off => None
  | On => Some dflt
  | Custom given => Some (merge dflt given)
  end.

End Hoek.

(** ** [lib/xxx.js]: classification of the constructor's arguments *)

Definition argMap : gmap string string :=
  {[ "string" := "host"; "number" := "port"; "object" := "options" ]}.

Section Port.
Context `{Runtime}.

(** One turn of the loop of [internals.XXX.port], for the argument
    [argVal] and the [result] built so far. *)
Definition port_arg (result : gmap string value) (argVal : value)
  : outcome (gmap string value) :=
  if is_undefined argVal then Ok result
  else if instanceof_Pack argVal then Ok (<["pack" := argVal]> result)
  else
    let type := typeof argVal in
    let '(type, argVal) :=
      match argVal with
      | VString s =>
          if isFinite (ToNumber s) then ("number", VNumber (ToNumber s))
          else (type, argVal)
      | _ => (type, argVal)
      end in
    match argMap !! type with
    | None =>
        Throw (AssertionError "Bad server constructor arguments: no match for arg type:")
    | Some key =>
        Hoek.assert (negb (truthy (prop result key)))
          "Bad server constructor arguments: duplicated arg type:" ;;
        Ok (<[key := argVal]> result)
    end.

Fixpoint port_loop (result : gmap string value) (args : list value)
  : outcome (gmap string value) :=
  match args with
  | [] => Ok result
  | argVal :: rest =>
      result' ← port_arg result argVal;
      port_loop result' rest
  end.

(** [internals.XXX.port(args)]. *)
Definition port (args : list value) : outcome (gmap string value) :=
  Hoek.assert (length args <=? 4)%nat "Too many arguments" ;;
  port_loop ∅ args.

End Port.

(** ** [lib/realm.js]: the constructor *)

Definition set_any (b : bool) (o : Origin) : Origin :=
  {| any := b; qualified := qualified o;
     qualifiedString := qualifiedString o; wildcards := wildcards o |}.
Definition set_qualified (q : list string) (o : Origin) : Origin :=
  {| any := any o; qualified := q;
     qualifiedString := qualifiedString o; wildcards := wildcards o |}.
Definition set_qualifiedString (q : string) (o : Origin) : Origin :=
  {| any := any o; qualified := qualified o;
     qualifiedString := q; wildcards := wildcards o |}.
Definition set_wildcards (w : list RegExp) (o : Origin) : Origin :=
  {| any := any o; qualified := qualified o;
     qualifiedString := qualifiedString o; wildcards := w |}.

(** The four derived properties of the cors object, written together. *)
Definition set_cors_derived (h m e : option string) (o : option Origin)
    (c : Cors) : Cors :=
  {| origin := origin c; isOriginExposed := isOriginExposed c;
     matchOrigin := matchOrigin c; maxAge := maxAge c;
     headers := headers c; additionalHeaders := additionalHeaders c;
     methods := methods c; additionalMethods := additionalMethods c;
     exposedHeaders := exposedHeaders c;
     additionalExposedHeaders := additionalExposedHeaders c;
     credentials := credentials c;
     _headers := h; _methods := m; _exposedHeaders := e; _origin := o |}.

Definition set__origin (o : Origin) (c : Cors) : Cors :=
  set_cors_derived (_headers c) (_methods c) (_exposedHeaders c) (Some o) c.

Definition set__hsts (v : string) (s : Security) : Security :=
  {| hsts := hsts s; xframe := xframe s; xss := xss s; noOpen := noOpen s;
     noSniff := noSniff s; _hsts := Some v; _xframe := _xframe s |}.
Definition set__xframe (v : string) (s : Security) : Security :=
  {| hsts := hsts s; xframe := xframe s; xss := xss s; noOpen := noOpen s;
     noSniff := noSniff s; _hsts := _hsts s; _xframe := Some v |}.

(** The source of the pattern built for one wildcard origin:
    ['^' + Hoek.escapeRegex(origin).replace(/\\\*/g, '.*').replace(/\\\?/g, '.') + '$']. *)
Definition wildcard_source (origin : string) : string :=
  "^" +:+ replace_pair "\" "?" "."
            (replace_pair "\" "*" ".*" (Hoek.escapeRegex origin)) +:+ "$".

(** The body of the loop over [cors.origin]. *)
Definition origin_step (o : Origin) (origin : string) : Origin :=
  if negb (indexOf origin "*" =? -1)%Z
  then set_wildcards (wildcards o ++ [new_RegExp (wildcard_source origin)]) o
  else set_qualified (qualified o ++ [origin]) o.

Definition origin_loop (o : Origin) (origins : list string) : Origin :=
  foldl origin_step o origins.

(** "Generate CORS headers": what the constructor does to a cors object that
    is not [null]. *)
Definition generate_cors (c : Cors) : outcome Cors :=
  let c :=
    set_cors_derived
      (Some (join (headers c ++ additionalHeaders c) ", "))
      (Some (join (methods c ++ additionalMethods c) ", "))
      (Some (join (exposedHeaders c ++ additionalExposedHeaders c) ", "))
      (_origin c) c in
  if negb (length (origin c) =? 0)%nat then
    let o := {| any := false; qualified := [];
                qualifiedString := EmptyString; wildcards := [] |} in
    if negb (array_indexOf (origin c) "*" =? -1)%Z then
      Hoek.assert (length (origin c) =? 1)%nat
        "Cannot specify cors.origin * together with other values" ;;
      Ok (set__origin (set_any true o) c)
    else
      let o := origin_loop o (origin c) in
      Hoek.assert (matchOrigin c || (length (wildcards o) =? 0)%nat)
        "Cannot include wildcard origin values with matchOrigin disabled" ;;
      Ok (set__origin (set_qualifiedString (join (qualified o) " ") o) c)
  else Ok c.

Definition hsts_truthy (h : hsts_setting) : bool :=
  match h with
  | HstsBoolean b => b
  | HstsNumber n => number_truthy n
  | HstsObject _ _ => true
  end.

Definition xframe_truthy (x : xframe_setting) : bool :=
  match x with
  | XframeBoolean b => b
  | XframeString s => negb (String.eqb s EmptyString)
  | XframeObject _ _ => true
  end.

Section Security.
Context `{Runtime}.

(** The value of [_hsts] for a truthy [hsts] setting. *)
Definition hsts_header (h : hsts_setting) : string :=
  match h with
  | HstsBoolean _ => "max-age=15768000"
  | HstsNumber n => "max-age=" +:+ NumberToString n
  | HstsObject hsts_maxAge includeSubdomains =>
      let v := "max-age="
               +:+ NumberToString (number_or hsts_maxAge (of_int 15768000)) in
      if default false includeSubdomains
      then v +:+ "; includeSubdomains"
      else v
  end.

(** The value of [_xframe] for a truthy [xframe] setting; reading
    [rule.toUpperCase()] of an object without a rule throws. *)
Definition xframe_header (x : xframe_setting) : outcome string :=
  match x with
  | XframeBoolean _ => Ok "DENY"
  | XframeString s => Ok (toUpperCase s)
  | XframeObject rule source =>
      if bool_decide (rule = Some "allow-from") then
        match source with
        | Some src =>
            if negb (String.eqb src EmptyString)
            then Ok ("ALLOW-FROM " +:+ src)
            else Ok "SAMEORIGIN"
        | None => Ok "SAMEORIGIN"
        end
      else
        match rule with
        | Some r => Ok (toUpperCase r)
        | None => Throw (TypeError "Cannot call method 'toUpperCase' of undefined")
        end
  end.

(** "Generate security headers": what the constructor does to a security
    object that is not [null]. *)
Definition generate_security (s : Security) : outcome Security :=
  let s := if hsts_truthy (hsts s)
           then set__hsts (hsts_header (hsts s)) s
           else s in
  if xframe_truthy (xframe s) then
    v ← xframe_header (xframe s);
    Ok (set__xframe v s)
  else Ok s.

End Security.

(** The three assertions of "Set basic configuration". *)
Definition check_basic (settings : Options) : outcome unit :=
  let location := o_location settings in
  let timeout := o_timeout settings in
  Hoek.assert
    (String.eqb location EmptyString
     || negb (String.eqb (charAt location (Z.of_nat (String.length location) - 1)) "/"))
    "Location setting must not contain a trailing '/'" ;;
  let socketTimeout :=
    match socket timeout with
    | None => TNumber (of_int (2 * 60 * 1000))
    | Some t => t
    end in
  Hoek.assert
    (negb (timeout_truthy (server timeout)) || negb (timeout_truthy socketTimeout)
     || timeout_lt (server timeout) socketTimeout)
    "Realm timeout must be shorter than socket timeout" ;;
  Hoek.assert
    (negb (timeout_truthy (client timeout)) || negb (timeout_truthy socketTimeout)
     || timeout_lt (client timeout) socketTimeout)
    "Client timeout must be shorter than socket timeout".

(** [[].concat(labels)]. *)
Definition concat_labels (l : labels_setting) : list string :=
  match l with
  | LabelString s => [s]
  | LabelArray a => a
  end.

Section Realm.
Context `{Runtime} `{Schema}.

(** The body of the constructor from [Schema.assert] on, for the merged
    settings of its first statement. *)
Definition resolve (d : Defaults) (settings : Options) : outcome Settings :=
  Hoek.assert (Schema_server settings) "Invalid server options" ;;
  let labels := Hoek.unique (concat_labels (o_labels settings)) in
  check_basic settings ;;
  cors ← match Hoek.applyToDefaults Hoek.merge_cors (defaults_cors d)
                 (o_cors settings) with
         | Some c => c' ← generate_cors c; Ok (Some c')
         | None => Ok None
         end;
  security ← match Hoek.applyToDefaults Hoek.merge_security
                     (defaults_security d) (o_security settings) with
             | Some s => s' ← generate_security s; Ok (Some s')
             | None => Ok None
             end;
  Ok {| tls := o_tls settings;
        location := o_location settings;
        cacheControlStatus := o_cacheControlStatus settings;
        timeout := o_timeout settings;
        labels := labels;
        cors := cors;
        security := security;
        _cacheControlStatus :=
          Hoek.mapToObject (o_cacheControlStatus settings) |}.

End Realm.

(** ** Objects, and the two constructors *)

(** The objects of the store: the options objects callers build, and the
    instances the constructor makes. *)
Inductive cell :=
| OptionsObject (o : Raw.Options)
| RealmObject (settings : Settings).

(** The module variable [internals.defaults] and the heap. *)
Record Store := {
  internals_defaults : Defaults;
  heap : gmap loc cell
}.

Definition alloc (c : cell) (σ : Store) : loc * Store :=
  let l := fresh (dom (heap σ)) in
  (l, {| internals_defaults := internals_defaults σ;
         heap := <[l := c]> (heap σ) |}).

Section Constructors.
Context `{Runtime} `{Schema}.

(** The first statement of the constructor:
    [Hoek.applyToDefaultsWithShallow(internals.defaults.server, options || {}, ...)].
    Hoek accepts [true] and objects; an object that is not an options
    object does not pass the schema. *)
Definition merged_settings (σ : Store) (options : value) : outcome Options :=
  let d := defaults_server (internals_defaults σ) in
  if negb (truthy options)
  then Ok (Hoek.applyToDefaultsWithShallow d Raw.empty)
  else
    match options with
    | VBoolean _ => Ok d
    | VObject l | VPack l =>
        match heap σ !! l with
        | Some (OptionsObject o) => Ok (Hoek.applyToDefaultsWithShallow d o)
        | _ => Throw SchemaError
        end
    | _ => Throw (AssertionError
                    "Invalid options value: must be true, falsy or an object")
    end.

(** [new Realm(options)]: the new instance, or the error thrown.  The
    instance is taken here with its settings as a whole, which is what the
    server constructor uses; the statements of the constructor one by one,
    on the objects they read and write, are in [Memory] below, and
    [Realm_run] relates the two. *)
Definition Realm (options : value) (σ : Store) : outcome loc * Store :=
  match merged_settings σ options ≫= resolve (internals_defaults σ) with
  | Ok settings =>
      let '(this, σ') := alloc (RealmObject settings) σ in
      (Ok this, σ')
  | Throw e => (Throw e, σ)
  end.

(** What the server constructor of [lib/xxx.js] computes from its
    arguments before it creates the listener. *)
Record ServerInfo := {
  info_host : string;
  info_port : number;
  info_protocol : string;
  info_uri : option string
}.

Record Server := {
  _realm : loc;
  settings : Settings;
  _unixDomainSocket : value;
  _windowsNamedPipe : value;
  _host : string;
  _port : number;
  pack : value;
  info : ServerInfo
}.

(** [args.host] is a string or [undefined], [args.port] a number or
    [undefined]: that is all [port] stores under these keys. *)
Definition host_string (args : gmap string value) : option string :=
  match args !! "host" with
  | Some (VString s) => Some s
  | _ => None
  end.

Definition port_number (args : gmap string value) : option number :=
  match args !! "port" with
  | Some (VNumber n) => Some n
  | _ => None
  end.

Definition string_or (s dflt : string) : string :=
  if String.eqb s EmptyString then dflt else s.

(** The constructor of [lib/xxx.js], up to the server information.  [pack]
    is the pack passed in, [undefined] when the server makes its own. *)
Definition new_Server (arguments : list value) (σ : Store)
  : outcome Server * Store :=
  match port arguments with
  | Throw e => (Throw e, σ)
  | Ok args =>
      match Realm (prop args "options") σ with
      | (Throw e, σ') => (Throw e, σ')
      | (Ok realm, σ') =>
          match heap σ' !! realm with
          | Some (RealmObject settings) =>
              let host := prop args "host" in
              let unixDomainSocket :=
                js_and host
                  (VBoolean (negb (indexOf (default EmptyString (host_string args)) "/" =? -1)%Z)) in
              let windowsNamedPipe :=
                js_and host
                  (VBoolean (indexOf (default EmptyString (host_string args)) "\\.\pipe\" =? 0)%Z) in
              (Hoek.assert (negb (truthy unixDomainSocket)
                            || is_undefined (prop args "port"))
                 "Cannot specify port with a UNIX domain socket" ;;
               Hoek.assert (negb (truthy windowsNamedPipe)
                            || is_undefined (prop args "port"))
                 "Cannot specify port with a Windows named pipe" ;;
               let _host :=
                 if truthy host then
                   let h := default EmptyString (host_string args) in
                   if truthy unixDomainSocket then Path_resolve h
                   else if truthy windowsNamedPipe then h
                   else toLowerCase h
                 else EmptyString in
               let _port :=
                 match port_number args with
                 | Some n => n
                 | None => match tls settings with
                           | Some _ => of_int 443
                           | None => of_int 80
                           end
                 end in
               let info :=
                 if truthy unixDomainSocket || truthy windowsNamedPipe then
                   let protocol :=
                     if truthy unixDomainSocket then "unix" else "windows" in
                   {| info_host := string_or _host "0.0.0.0";
                      info_port := of_int 0;
                      info_protocol := protocol;
                      info_uri := Some (protocol +:+ ":" +:+ _host) |}
                 else
                   let p := if number_truthy _port then _port else of_int 0 in
                   let protocol := match tls settings with
                               | Some _ => "https"
                               | None => "http"
                               end in
                   {| info_host := string_or _host "0.0.0.0";
                      info_port := p;
                      info_protocol := protocol;
                      info_uri :=
                        if number_truthy p
                        then Some (protocol +:+ "://"
                                   +:+ string_or _host (string_or Os_hostname "localhost")
                                   +:+ ":" +:+ NumberToString p)
                        else None |} in
               Ok {| _realm := realm; settings := settings;
                     _unixDomainSocket := unixDomainSocket;
                     _windowsNamedPipe := windowsNamedPipe;
                     _host := _host; _port := _port;
                     pack := prop args "pack";
                     info := info |},
               σ')
          | _ => (Throw (TypeError "Cannot read property 'settings' of undefined"), σ')
          end
      end
  end.

End Constructors.

(** ** [lib/xxx.js]: the admission gate *)

(** The load snapshot [self.load] of the load monitor. *)
Record Load := { eventLoopDelay : number; heapUsed : number; rss : number }.

(** A Boom error: [Boom.serverTimeout(message, data)] is a 503. *)
Record Boom := { statusCode : Z; boom_message : string; data : Load }.

Definition Boom_serverTimeout (message : string) (data : Load) : Boom :=
  {| statusCode := 503; boom_message := message; data := data |}.

(** The options of a dispatch: the credentials [inject] passes on. *)
Record DispatchOptions := { dispatch_credentials : value }.

(** [new Request(self, req, res, options)]. *)
Record Request := { req : nat; res : nat; request_options : DispatchOptions }.

(** What the function returned by [_dispatch] does, in order:
    [self.log(tags, data)], [request._reply(response)], which writes the
    response, and [request._execute()], which runs the request lifecycle. *)
Inductive effect :=
| Log (tags : list string) (data : Load)
| Reply (request : Request) (response : Boom)
| Execute (request : Request).

(** [this._dispatch(options)(req, res)], for the answer [check] of
    [self._heavy.check()] -- true when the load is within the limits -- and
    the snapshot [load]. *)
Definition _dispatch (options : option DispatchOptions) (check : bool) (load : Load)
    (req res : nat) : list effect :=
  let options := default {| dispatch_credentials := VUndefined |} options in
  let request := {| req := req; res := res; request_options := options |} in
  if negb check then
    [ Log ["hapi"; "load"] load;
      Reply request (Boom_serverTimeout "Server under heavy load" load) ]
  else
    [ Execute request ].

(** The responses written by the gate itself. *)
Definition replies (effects : list effect) : list Boom :=
  omap (fun e => match e with Reply _ r => Some r | _ => None end) effects.

(** The requests handed to the request lifecycle. *)
Definition executed (effects : list effect) : list Request :=
  omap (fun e => match e with Execute r => Some r | _ => None end) effects.

(** The number of responses a request gets, when the lifecycle writes
    [lifecycle r] responses for a request [r] it executes. *)
Definition responses (lifecycle : Request -> nat) (effects : list effect) : nat :=
  length (replies effects) + sum_list (lifecycle <$> executed effects).

(** ** [lib/xxx.js]: start and stop, with the listener and the event loop

    [_start], [_init] and [_stop] and the handlers they install are the
    source's.  The listener, the connections and the timers they call are
    Node's, taken as Node documents them: [listen] binds and then emits
    [listening], also when it is called again after [close]; an accepting
    listener emits [connection] for each new connection; [close] stops the
    accepting, and its handler runs once no connection is open; a connection
    emits [close] once, when the client ends it or after [destroy]; an armed
    timer fires unless it is cleared.  The handlers run to completion, one
    event at a time.  The options object a caller passes to [stop] is the
    caller's: [_stop] writes into it. *)

(** A callback the caller passes to [start] or [stop], by name. *)
Definition callback := nat.

(** A connection of the listener: the two properties [_onConnection] reads,
    whether [destroy()] was called on it, and the keys of the handlers
    [_onConnection] installed with [connection.once('close', ...)]. *)
Record Socket := {
  remoteAddress : value;
  remotePort : value;
  destroyed : bool;
  socket_once_close : list string
}.

Inductive phase :=
| Unbound
| Binding
| Accepting
| Closing
| Closed.

(** The listener: its phase and its handlers.  A handler of [close] is the
    function [_stop] passes to [listener.close], with the timer and the
    callback it holds. *)
Record Listener := {
  listener_phase : phase;
  once_listening : list callback;
  on_connection : list nat;
  once_close : list (nat * callback)
}.

(** The options of [stop]: [{ timeout }]. *)
Record StopOptions := { stop_timeout : option number }.

(** The server object, its listener and its open connections, the timers
    and the next-tick queue, the callbacks invoked so far (latest first),
    and the options objects the callers of [stop] hold, by identity. *)
Record World := {
  _started : bool;
  _connections : gmap string nat;
  _onConnection : option nat;
  heavy_started : bool;
  listener : Listener;
  sockets : gmap nat Socket;
  timers : gmap nat number;
  ticks : list callback;
  next_id : nat;
  called : list callback;
  objects : gmap loc StopOptions
}.

Definition with_server (started : bool) (connections : gmap string nat)
    (onConnection : option nat) (heavy : bool) (w : World) : World :=
  {| _started := started; _connections := connections;
     _onConnection := onConnection; heavy_started := heavy;
     listener := listener w; sockets := sockets w; timers := timers w;
     ticks := ticks w; next_id := next_id w; called := called w;
     objects := objects w |}.

Definition with_listener (l : Listener) (w : World) : World :=
  {| _started := _started w; _connections := _connections w;
     _onConnection := _onConnection w; heavy_started := heavy_started w;
     listener := l; sockets := sockets w; timers := timers w;
     ticks := ticks w; next_id := next_id w; called := called w;
     objects := objects w |}.

Definition with_loop (s : gmap nat Socket) (t : gmap nat number)
    (k : list callback) (n : nat) (c : list callback) (w : World) : World :=
  {| _started := _started w; _connections := _connections w;
     _onConnection := _onConnection w; heavy_started := heavy_started w;
     listener := listener w; sockets := s; timers := t;
     ticks := k; next_id := n; called := c; objects := objects w |}.

Definition set_started (b : bool) (w : World) : World :=
  with_server b (_connections w) (_onConnection w) (heavy_started w) w.
Definition set_connections (m : gmap string nat) (w : World) : World :=
  with_server (_started w) m (_onConnection w) (heavy_started w) w.
Definition set_onConnection (h : option nat) (w : World) : World :=
  with_server (_started w) (_connections w) h (heavy_started w) w.
Definition set_heavy (b : bool) (w : World) : World :=
  with_server (_started w) (_connections w) (_onConnection w) b w.
Definition set_sockets (s : gmap nat Socket) (w : World) : World :=
  with_loop s (timers w) (ticks w) (next_id w) (called w) w.
Definition set_timers (t : gmap nat number) (w : World) : World :=
  with_loop (sockets w) t (ticks w) (next_id w) (called w) w.
Definition set_ticks (k : list callback) (w : World) : World :=
  with_loop (sockets w) (timers w) k (next_id w) (called w) w.
Definition set_next_id (n : nat) (w : World) : World :=
  with_loop (sockets w) (timers w) (ticks w) n (called w) w.
Definition set_objects (o : gmap loc StopOptions) (w : World) : World :=
  {| _started := _started w; _connections := _connections w;
     _onConnection := _onConnection w; heavy_started := heavy_started w;
     listener := listener w; sockets := sockets w; timers := timers w;
     ticks := ticks w; next_id := next_id w; called := called w;
     objects := o |}.

(** Invoking a callback. *)
Definition call (cb : callback) (w : World) : World :=
  with_loop (sockets w) (timers w) (ticks w) (next_id w) (cb :: called w) w.

(** [Hoek.nextTick(callback)()]: the callback runs on a later tick. *)
Definition Hoek_nextTick (cb : callback) (w : World) : World :=
  set_ticks (ticks w ++ [cb]) w.

(** [setTimeout(handler, delay)] for the handler of [_stop]; the result is
    the timer. *)
Definition setTimeout (delay : number) (w : World) : nat * World :=
  let t := next_id w in
  (t, set_next_id (S t) (set_timers (<[t := delay]> (timers w)) w)).

Definition clearTimeout (t : nat) (w : World) : World :=
  set_timers (delete t (timers w)) w.

Definition listener_once_listening (cb : callback) (w : World) : World :=
  let l := listener w in
  with_listener {| listener_phase := listener_phase l;
                   once_listening := once_listening l ++ [cb];
                   on_connection := on_connection l;
                   once_close := once_close l |} w.

Definition listener_on_connection (h : nat) (w : World) : World :=
  let l := listener w in
  with_listener {| listener_phase := listener_phase l;
                   once_listening := once_listening l;
                   on_connection := on_connection l ++ [h];
                   once_close := once_close l |} w.

(** [removeListener] takes out one registration of the handler, the latest. *)
Fixpoint remove_last (h : nat) (hs : list nat) : list nat :=
  match hs with
  | [] => []
  | x :: rest =>
      if bool_decide (x = h) && negb (bool_decide (h ∈ rest))
      then rest
      else x :: remove_last h rest
  end.

Definition listener_removeListener (h : option nat) (w : World) : World :=
  match h with
  | None => w
  | Some h =>
      let l := listener w in
      with_listener {| listener_phase := listener_phase l;
                       once_listening := once_listening l;
                       on_connection := remove_last h (on_connection l);
                       once_close := once_close l |} w
  end.

Definition set_phase (p : phase) (handlers : list callback)
    (closers : list (nat * callback)) (w : World) : World :=
  with_listener {| listener_phase := p;
                   once_listening := handlers;
                   on_connection := on_connection (listener w);
                   once_close := closers |} w.

(** [listener.listen(...)]: a listener that is not bound starts binding,
    and so does a listener whose close is under way: Node lets [listen] be
    called again once [close] has been called, and the handlers of [close]
    stay registered until the listener closes.  (On a listener that is
    binding or accepting Node reports an error, which is left out.) *)
Definition listener_listen (w : World) : World :=
  let l := listener w in
  match listener_phase l with
  | Unbound | Closing | Closed =>
      set_phase Binding (once_listening l) (once_close l) w
  | Binding | Accepting => w
  end.

(** [listener.close(handler)], on a listener that is bound: no connection
    is accepted any more, and the handler runs once the listener has
    closed. *)
Definition listener_close (handler : nat * callback) (w : World) : World :=
  let l := listener w in
  set_phase Closing (once_listening l) (once_close l ++ [handler]) w.

Section Lifecycle.
Context `{Runtime}.

(** The conversion to a string of a value in a concatenation (the text of
    a function is not kept). *)
Definition ToString (v : value) : string :=
  match v with
  | VUndefined => "undefined"
  | VNull => "null"
  | VBoolean true => "true"
  | VBoolean false => "false"
  | VNumber n => NumberToString n
  | VString s => s
  | VObject _ | VPack _ => "[object Object]"
  | VFunction _ => "function () {}"
  end.

(** The key of a connection in the registry. *)
Definition connection_key (s : Socket) : string :=
  ToString (remoteAddress s) +:+ ":" +:+ ToString (remotePort s).

(** [internals.XXX.prototype._init]. *)
Definition _init (cb : callback) (w : World) : World :=
  let w := set_heavy true w in
  let w := set_connections ∅ w in
  let w := listener_once_listening cb w in
  let h := next_id w in
  let w := set_next_id (S h) (set_onConnection (Some h) w) in
  listener_on_connection h w.

(** [internals.XXX.prototype._start]. *)
Definition _start (cb : callback) (w : World) : World :=
  if _started w then Hoek_nextTick cb w
  else
    let w := set_started true w in
    let w := _init cb w in
    listener_listen w.

(** [options.timeout] as [_stop] reads it first: of the object given, or
    of the new object [{}] when none is given. *)
Definition given_timeout (options : option loc) (w : World) : option number :=
  match options with
  | Some l =>
      match objects w !! l with
      | Some o => stop_timeout o
      | None => None
      end
  | None => None
  end.

(** [options = options || {}; options.timeout = options.timeout || 5000]:
    the timeout is written into the object the caller gave (the new object
    made when none is given is known to [_stop] only, and is not kept). *)
Definition default_timeout (options : option loc) (w : World) : World :=
  match options with
  | Some l =>
      set_objects
        (<[l := {| stop_timeout :=
                     Some (number_or (given_timeout options w) (of_int 5000)) |}]>
           (objects w)) w
  | None => w
  end.

(** [internals.XXX.prototype._stop]. *)
Definition _stop (options : option loc) (cb : callback) (w : World) : World :=
  let timeout := number_or (given_timeout options w) (of_int 5000) in
  let w := default_timeout options w in
  if negb (_started w) then Hoek_nextTick cb w
  else
    let w := set_started false w in
    let w := set_heavy false w in
    let '(timeoutId, w) := setTimeout timeout w in
    listener_close (timeoutId, cb) w.

(** The handler [_onConnection], for the connection [c]. *)
Definition onConnection (c : nat) (w : World) : World :=
  match sockets w !! c with
  | None => w
  | Some s =>
      let key := connection_key s in
      let w := set_connections (<[key := c]> (_connections w)) w in
      set_sockets
        (<[c := {| remoteAddress := remoteAddress s;
                   remotePort := remotePort s;
                   destroyed := destroyed s;
                   socket_once_close := socket_once_close s ++ [key] |}]>
           (sockets w)) w
  end.

(** The handler of a connection's [close]: [delete self._connections[key]]. *)
Definition onSocketClose (key : string) (w : World) : World :=
  set_connections (delete key (_connections w)) w.

(** A connection once [destroy()] has been called on it. *)
Definition mark (s : Socket) : Socket :=
  {| remoteAddress := remoteAddress s; remotePort := remotePort s;
     destroyed := true; socket_once_close := socket_once_close s |}.

(** [connection.destroy()]. *)
Definition destroy (c : nat) (w : World) : World :=
  match sockets w !! c with
  | None => w
  | Some s => set_sockets (<[c := mark s]> (sockets w)) w
  end.

(** The handler of the timer of [_stop]: every connection of the registry is
    destroyed. *)
Definition onTimeout (w : World) : World :=
  foldl (fun w entry => destroy entry.2 w) w (map_to_list (_connections w)).

(** The handler [_stop] passes to [listener.close]. *)
Definition onListenerClose (handler : nat * callback) (w : World) : World :=
  let w := listener_removeListener (_onConnection w) w in
  let w := clearTimeout handler.1 w in
  call handler.2 w.

(** What the event loop delivers. *)
Inductive event :=
| Listening
| Connection (address port : value)
| SocketClose (c : nat)
| TimerFired (t : nat)
| ListenerClose
| Tick.

(** The listener closes once it has been asked to and no connection is
    open. *)
Definition can_close (w : World) : bool :=
  match listener_phase (listener w) with
  | Closing => bool_decide (sockets w = ∅)
  | _ => false
  end.

(** One event: [None] when the event cannot happen in [w]. *)
Definition step (e : event) (w : World) : option World :=
  match e with
  | Listening =>
      match listener_phase (listener w) with
      | Binding =>
          let handlers := once_listening (listener w) in
          let w := set_phase Accepting [] (once_close (listener w)) w in
          Some (foldl (fun w cb => call cb w) w handlers)
      | _ => None
      end
  | Connection address port =>
      match listener_phase (listener w) with
      | Accepting =>
          let c := next_id w in
          let s := {| remoteAddress := address; remotePort := port;
                      destroyed := false; socket_once_close := [] |} in
          let w := set_next_id (S c) (set_sockets (<[c := s]> (sockets w)) w) in
          Some (foldl (fun w _ => onConnection c w) w (on_connection (listener w)))
      | _ => None
      end
  | SocketClose c =>
      match sockets w !! c with
      | Some s =>
          let w := set_sockets (delete c (sockets w)) w in
          Some (foldl (fun w key => onSocketClose key w) w (socket_once_close s))
      | None => None
      end
  | TimerFired t =>
      match timers w !! t with
      | Some _ => Some (onTimeout (set_timers (delete t (timers w)) w))
      | None => None
      end
  | ListenerClose =>
      if can_close w then
        let closers := once_close (listener w) in
        let w := set_phase Closed (once_listening (listener w)) [] w in
        Some (foldl (fun w handler => onListenerClose handler w) w closers)
      else None
  | Tick =>
      match ticks w with
      | cb :: rest => Some (call cb (set_ticks rest w))
      | [] => None
      end
  end.

(** A sequence of events. *)
Fixpoint run (events : list event) (w : World) : option World :=
  match events with
  | [] => Some w
  | e :: rest =>
      match step e w with
      | Some w' => run rest w'
      | None => None
      end
  end.

End Lifecycle.

(** The server as the constructor leaves it ([_connections] is not set
    before [_init]; nothing reads it until then). *)
Definition constructed : World :=
  {| _started := false; _connections := ∅; _onConnection := None;
     heavy_started := false;
     listener := {| listener_phase := Unbound; once_listening := [];
                    on_connection := []; once_close := [] |};
     sockets := ∅; timers := ∅; ticks := []; next_id := 0; called := [];
     objects := ∅ |}.

(** ** The states of a shutdown *)

Global Instance phase_eq_dec : EqDecision phase.
Proof. solve_decision. Defined.

Section Drain.
Context `{Runtime}.

(** Every open connection is in the registry under its key, and its close
    handlers delete that key. *)
Definition tracked (w : World) : Prop :=
  map_Forall (fun c s =>
                _connections w !! connection_key s = Some c
                /\ Forall (fun k => k = connection_key s) (socket_once_close s))
    (sockets w).

(** Every open connection has been destroyed. *)
Definition all_destroyed (w : World) : Prop :=
  map_Forall (fun _ s => destroyed s = true) (sockets w).

(** A server that listens, with no start or stop under way. *)
Definition listening (w : World) : Prop :=
  _started w = true
  /\ listener_phase (listener w) = Accepting
  /\ once_close (listener w) = []
  /\ timers w = ∅
  /\ ticks w = [].

(** The event loop has something to deliver whatever the clients do: a
    timer, a tick, the end of the binding, the close of a destroyed
    connection, or the close of the listener. *)
Definition pending (w : World) : bool :=
  negb (bool_decide (timers w = ∅))
  || negb (bool_decide (ticks w = []))
  || bool_decide (listener_phase (listener w) = Binding)
  || negb (bool_decide (map_Forall (fun _ s => destroyed s = false) (sockets w)))
  || can_close w.

(** The states after [_stop], for the timer [t], the callback [cb] and the
    callbacks [before] invoked earlier: the timer is armed and the
    connections are tracked; or the timer has fired and the connections are
    destroyed; or the listener has closed and the callback has been
    invoked. *)
Inductive draining (t : nat) (cb : callback) (before : list callback) (w : World) : Prop :=
| drain_waiting (d : number) :
    listener_phase (listener w) = Closing ->
    once_close (listener w) = [(t, cb)] ->
    called w = before -> ticks w = [] ->
    timers w = {[ t := d ]} -> tracked w ->
    draining t cb before w
| drain_forced :
    listener_phase (listener w) = Closing ->
    once_close (listener w) = [(t, cb)] ->
    called w = before -> ticks w = [] ->
    timers w = ∅ -> all_destroyed w ->
    draining t cb before w
| drain_done :
    listener_phase (listener w) = Closed ->
    called w = cb :: before -> ticks w = [] ->
    timers w = ∅ -> sockets w = ∅ ->
    draining t cb before w.

(** What is left to happen in a shutdown. *)
Definition drain_measure (w : World) : nat :=
  size (sockets w) + size (timers w)
  + (if bool_decide (listener_phase (listener w) = Closing) then 1 else 0).

End Drain.

(** ** The classification as the specification words it *)

Section Classification.
Context `{Runtime}.

(** The slot of an argument and the value stored in it: a string goes to
    [host], a number to [port], an object to [options], and a string that
    converts to a finite number goes to [port] as that number. *)
Definition slot_of (v : value) : option (string * value) :=
  match v with
  | VString s =>
      if isFinite (ToNumber s) then Some ("port", VNumber (ToNumber s))
      else Some ("host", v)
  | VNumber _ => Some ("port", v)
  | VNull | VObject _ => Some ("options", v)
  | _ => None
  end.

(** An argument the classification looks at: defined, and not the pack. *)
Definition positional (v : value) : bool :=
  negb (is_undefined v) && negb (instanceof_Pack v).

(** The slots the positional arguments of a list go to, in order. *)
Definition slots (args : list value) : list string :=
  omap (fun v => if positional v then fst <$> slot_of v else None) args.

(** One argument stored in its slot, the pack under [pack]. *)
Definition assign (r : gmap string value) (v : value) : gmap string value :=
  if is_undefined v then r
  else if instanceof_Pack v then <["pack" := v]> r
  else match slot_of v with
       | Some (slot, v') => <[slot := v']> r
       | None => r
       end.

(** Every argument of a list stored in its slot. *)
Definition assignment (args : list value) : gmap string value :=
  foldl assign ∅ args.

End Classification.

(** ** The timeout rule as the specification words it *)

(** The socket timeout in force: the configured one, or two minutes. *)
Definition effective_socket (t : Timeout) : timeout_value :=
  default (TNumber (of_int 120000)) (socket t).

(** A timeout [x] that is enabled, with the socket timeout enabled, and not
    below it. *)
Definition not_below_socket (x : timeout_value) (t : Timeout) : bool :=
  timeout_truthy x && timeout_truthy (effective_socket t)
  && timeout_ge x (effective_socket t).

Definition location_ok (location : string) : bool :=
  String.eqb location EmptyString
  || negb (String.eqb (charAt location (Z.of_nat (String.length location) - 1)) "/").

(** ** The origin classification as the specification words it *)

(** [s] contains the character [c]. *)
Definition contains (c : ascii) (s : string) : bool :=
  existsb (Ascii.eqb c) (list_ascii_of_string s).

(** The pattern of a wildcard origin, character by character: [*] becomes
    [.*], [?] becomes [.], every other special character is escaped and the
    rest is copied. *)
Fixpoint glob_pattern (s : string) : string :=
  match s with
  | EmptyString => EmptyString
  | String c rest =>
      if Ascii.eqb c "*" then String "." (String "*" (glob_pattern rest))
      else if Ascii.eqb c "?" then String "." (glob_pattern rest)
      else if Hoek.is_special c then String "\" (String c (glob_pattern rest))
      else String c (glob_pattern rest)
  end.

(** The anchored pattern of a wildcard origin. *)
Definition compile_wildcard (origin : string) : RegExp :=
  new_RegExp ("^" +:+ glob_pattern origin +:+ "$").

(** The string after the first replacement: stars replaced, the other
    special characters still escaped. *)
Fixpoint star_pass (s : string) : string :=
  match s with
  | EmptyString => EmptyString
  | String c rest =>
      if Ascii.eqb c "*" then String "." (String "*" (star_pass rest))
      else if Hoek.is_special c then String "\" (String c (star_pass rest))
      else String c (star_pass rest)
  end.

(** The header strings derived from the settings: [_headers], [_methods],
    [_exposedHeaders], [qualifiedString], [_hsts] and [_xframe]. *)
Definition derived_strings (settings : Settings) : list (option string) :=
  [ cors settings ≫= _headers;
    cors settings ≫= _methods;
    cors settings ≫= _exposedHeaders;
    qualifiedString <$> (cors settings ≫= _origin);
    security settings ≫= _hsts;
    security settings ≫= _xframe ].

(** ** [lib/realm.js]: the constructor, on the objects themselves

    The constructor once more, with the objects it reads and writes kept by
    identity in a memory: the table [internals.defaults] and its three
    objects, the options object of the caller, the object
    [Hoek.applyToDefaultsWithShallow] returns (which becomes
    [this.settings]), the objects [Hoek.applyToDefaults] returns for
    [cors] and [security], and the instance.  What an object holds that the
    constructor only reads (its strings, numbers, arrays and nested
    settings) is kept in the object; [_origin] and its arrays, which the
    constructor makes and nothing else holds, are kept in the cors object.
    The two functions of hoek are taken as hoek documents them: each returns
    a new object, a copy of the defaults with the options applied, the
    properties [app] and [plugins] being copied by reference. *)

Module Memory.

(** A property the constructor replaces: as configured, or the reference
    the constructor has put there ([None] is [null]). *)
Inductive replaced (A : Type) :=
| Configured (a : A)
| Resolved (l : option loc).
Arguments Configured {A} a.
Arguments Resolved {A} l.

(** A settings object: [internals.defaults.server], and [this.settings]. *)
Record SettingsObject := {
  tls : option Tls;
  location : string;
  cacheControlStatus : list Z;
  timeout : Timeout;
  labels : labels_setting;
  cors : replaced (toggle Raw.Cors);
  security : replaced (toggle Raw.Security);
  _cacheControlStatus : option (gmap Z bool);
  app : value;
  plugins : value
}.

Inductive object :=
| DefaultsTable (server cors security : loc)
| OptionsObject (o : Raw.Options) (app plugins : value)
| SettingsOf (s : SettingsObject)
| CorsObject (c : Cors)
| SecurityObject (s : Security)
| RealmInstance (settings : option loc).

(** A computation on the memory that returns or throws. *)
Definition M (A : Type) : Type := gmap loc object -> outcome A * gmap loc object.

Global Instance M_ret : MRet M := fun A a σ => (Ok a, σ).
Global Instance M_bind : MBind M := fun A B k m σ =>
  match m σ with
  | (Ok a, σ') => k a σ'
  | (Throw e, σ') => (Throw e, σ')
  end.

Definition throw {A} (e : error) : M A := fun σ => (Throw e, σ).

Definition lift {A} (r : outcome A) : M A := fun σ => (r, σ).

(** A new object. *)
Definition new (o : object) : M loc := fun σ =>
  let l := fresh (dom σ) in (Ok l, <[l := o]> σ).

(** The object a reference leads to. *)
Definition read (l : loc) : M object := fun σ =>
  match σ !! l with
  | Some o => (Ok o, σ)
  | None => (Throw (TypeError "Cannot read property of undefined"), σ)
  end.

(** An assignment to the properties of an object. *)
Definition write (l : loc) (o : object) : M unit := fun σ =>
  (Ok tt, <[l := o]> σ).

(** The object a reference leads to, read as an object of one kind; a
    reference that leads to no object of that kind does not occur in a
    run. *)
Definition read_as {A} (kind : object -> option A) (l : loc) : M A :=
  o ← read l;
  match kind o with
  | Some a => mret a
  | None => throw (TypeError "Cannot read property of undefined")
  end.

Definition settings_object (o : object) : option SettingsObject :=
  match o with SettingsOf s => Some s | _ => None end.
Definition cors_object (o : object) : option Cors :=
  match o with CorsObject c => Some c | _ => None end.
Definition security_object (o : object) : option Security :=
  match o with SecurityObject s => Some s | _ => None end.
Definition defaults_table (o : object) : option (loc * loc * loc) :=
  match o with DefaultsTable s c x => Some (s, c, x) | _ => None end.

(** The settings of a settings object that is as configured: what
    [Schema.assert] validates.  An object whose [cors] or [security] has
    been replaced, or that has a [_cacheControlStatus], is not a settings
    object the schema accepts. *)
Definition as_options (s : SettingsObject) : option Options :=
  match cors s, security s, _cacheControlStatus s with
  | Configured c, Configured x, None =>
      Some {| o_tls := tls s; o_location := location s;
              o_cacheControlStatus := cacheControlStatus s;
              o_timeout := timeout s; o_labels := labels s;
              o_cors := c; o_security := x |}
  | _, _, _ => None
  end.

Definition of_options (o : Options) (app plugins : value) : SettingsObject :=
  {| tls := o_tls o; location := o_location o;
     cacheControlStatus := o_cacheControlStatus o;
     timeout := o_timeout o; labels := o_labels o;
     cors := Configured (o_cors o); security := Configured (o_security o);
     _cacheControlStatus := None; app := app; plugins := plugins |}.

Definition set_labels (l : labels_setting) (s : SettingsObject) : SettingsObject :=
  {| tls := tls s; location := location s;
     cacheControlStatus := cacheControlStatus s; timeout := timeout s;
     labels := l; cors := cors s; security := security s;
     _cacheControlStatus := _cacheControlStatus s;
     app := app s; plugins := plugins s |}.
Definition set_cors (c : replaced (toggle Raw.Cors)) (s : SettingsObject)
  : SettingsObject :=
  {| tls := tls s; location := location s;
     cacheControlStatus := cacheControlStatus s; timeout := timeout s;
     labels := labels s; cors := c; security := security s;
     _cacheControlStatus := _cacheControlStatus s;
     app := app s; plugins := plugins s |}.
Definition set_security (x : replaced (toggle Raw.Security)) (s : SettingsObject)
  : SettingsObject :=
  {| tls := tls s; location := location s;
     cacheControlStatus := cacheControlStatus s; timeout := timeout s;
     labels := labels s; cors := cors s; security := x;
     _cacheControlStatus := _cacheControlStatus s;
     app := app s; plugins := plugins s |}.
Definition set__cacheControlStatus (m : gmap Z bool) (s : SettingsObject)
  : SettingsObject :=
  {| tls := tls s; location := location s;
     cacheControlStatus := cacheControlStatus s; timeout := timeout s;
     labels := labels s; cors := cors s; security := security s;
     _cacheControlStatus := Some m;
     app := app s; plugins := plugins s |}.

(** A property copied by reference: the one of the options when they have
    it, the one of the defaults otherwise. *)
Definition shallow (given dflt : value) : value :=
  if is_undefined given then dflt else given.

(** [Hoek.applyToDefaultsWithShallow(defaults, options, ['app', 'plugins'])]:
    [null] for falsy options, a new copy of the defaults for [true], a new
    object with the options merged into a copy of the defaults for an
    options object.  An object that is not an options object gives settings
    the schema does not accept. *)
Definition Hoek_applyToDefaultsWithShallow (defaults : loc) (options : value)
  : M (option loc) :=
  if negb (truthy options) then mret None
  else
    match options with
    | VBoolean _ =>
        d ← read_as settings_object defaults;
        l ← new (SettingsOf d);
        mret (Some l)
    | VObject o | VPack o =>
        d ← read_as settings_object defaults;
        given ← read o;
        match given, as_options d with
        | OptionsObject given given_app given_plugins, Some dflt =>
            l ← new (SettingsOf
                       (of_options (Hoek.applyToDefaultsWithShallow dflt given)
                          (shallow given_app (app d))
                          (shallow given_plugins (plugins d))));
            mret (Some l)
        | _, _ => throw SchemaError
        end
    | _ => throw (AssertionError
                    "Invalid options value: must be true, falsy or an object")
    end.

(** [Hoek.applyToDefaults(defaults, options)] for the cors and for the
    security settings: [null] for [false], a new copy of the defaults for
    [true], a new object with the options merged into a copy of the defaults
    otherwise. *)
Definition Hoek_applyToDefaults {A R} (kind : object -> option A)
    (make : A -> object) (merge : A -> R -> A) (defaults : loc)
    (options : toggle R) : M (option loc) :=
  match options with
  | Off => mret None
  | On =>
      d ← read_as kind defaults;
      l ← new (make d);
      mret (Some l)
  | Custom given =>
      d ← read_as kind defaults;
      l ← new (make (merge d given));
      mret (Some l)
  end.

Section Realm.
Context `{Runtime} `{Schema}.

(** [this.settings]: the settings object, read through the instance. *)
Definition this_settings (this : loc) : M (loc * SettingsObject) :=
  o ← read this;
  match o with
  | RealmInstance (Some l) =>
      s ← read_as settings_object l;
      mret (l, s)
  | RealmInstance None => throw SchemaError
  | _ => throw (TypeError "Cannot read property of undefined")
  end.

(** [this.settings.cors] and [this.settings.security], once replaced. *)
Definition reference {A} (r : replaced A) : M (option loc) :=
  match r with
  | Resolved l => mret l
  | Configured _ => throw (TypeError "Cannot read property of undefined")
  end.

Definition configured {A} (r : replaced A) : M A :=
  match r with
  | Configured a => mret a
  | Resolved _ => throw SchemaError
  end.

(** [this.settings = Hoek.applyToDefaultsWithShallow(internals.defaults.server,
    options || {}, ['app', 'plugins'])]. *)
Definition assign_settings (this server : loc) (options : value) : M unit :=
  given ← (if truthy options then mret options
           else
             empty ← new (OptionsObject Raw.empty VUndefined VUndefined);
             mret (VObject empty));
  settings ← Hoek_applyToDefaultsWithShallow server given;
  write this (RealmInstance settings).

(** [Schema.assert('server', this.settings)]. *)
Definition assert_schema (this : loc) : M unit :=
  '(_, s) ← this_settings this;
  match as_options s with
  | None => throw SchemaError
  | Some st => lift (Hoek.assert (Schema_server st) "Invalid server options")
  end.

(** [this.settings.labels = Hoek.unique([].concat(this.settings.labels))]. *)
Definition assign_labels (this : loc) : M unit :=
  '(l, s) ← this_settings this;
  write l (SettingsOf
             (set_labels (LabelArray (Hoek.unique (concat_labels (labels s)))) s)).

(** The assertions on [this.settings.location] and [this.settings.timeout]. *)
Definition assert_basic (this : loc) : M unit :=
  '(_, s) ← this_settings this;
  match as_options s with
  | None => throw SchemaError
  | Some st => lift (check_basic st)
  end.

(** [this.settings.cors = Hoek.applyToDefaults(internals.defaults.cors,
    this.settings.cors)]. *)
Definition assign_cors (this cors_defaults : loc) : M unit :=
  '(l, s) ← this_settings this;
  options ← configured (cors s);
  c ← Hoek_applyToDefaults cors_object CorsObject Hoek.merge_cors
         cors_defaults options;
  write l (SettingsOf (set_cors (Resolved c) s)).

(** [if (this.settings.cors) { ... }]: the assignments of "Generate CORS
    headers", which are all to the properties of [this.settings.cors] and
    of its [_origin], taken together as one write to that object.  (When an
    assertion throws between them the source has made the first of them
    already, to the same object.) *)
Definition assign_cors_headers (this : loc) : M unit :=
  '(_, s) ← this_settings this;
  c ← reference (cors s);
  match c with
  | Some c =>
      v ← read_as cors_object c;
      v' ← lift (generate_cors v);
      write c (CorsObject v')
  | None => mret tt
  end.

(** [this.settings.security = Hoek.applyToDefaults(internals.defaults.security,
    this.settings.security)]. *)
Definition assign_security (this security_defaults : loc) : M unit :=
  '(l, s) ← this_settings this;
  options ← configured (security s);
  x ← Hoek_applyToDefaults security_object SecurityObject Hoek.merge_security
         security_defaults options;
  write l (SettingsOf (set_security (Resolved x) s)).

(** [if (this.settings.security) { ... }]: the assignments of "Generate
    security headers", to the properties of [this.settings.security], taken
    together as one write to that object. *)
Definition assign_security_headers (this : loc) : M unit :=
  '(_, s) ← this_settings this;
  x ← reference (security s);
  match x with
  | Some x =>
      v ← read_as security_object x;
      v' ← lift (generate_security v);
      write x (SecurityObject v')
  | None => mret tt
  end.

(** [this.settings._cacheControlStatus =
    Hoek.mapToObject(this.settings.cacheControlStatus)]. *)
Definition assign_cacheControlStatus (this : loc) : M unit :=
  '(l, s) ← this_settings this;
  write l (SettingsOf
             (set__cacheControlStatus (Hoek.mapToObject (cacheControlStatus s)) s)).

(** [new Realm(options)], for the table [internals.defaults] at
    [internals_defaults]: the new instance.  The statements that set up the
    facilities of other modules ([auth], [_etags], [_ext],
    [_stateDefinitions]) and the empty [_views], [plugins] and [app] of the
    instance are left out. *)
Definition Realm (internals_defaults : loc) (options : value) : M loc :=
  this ← new (RealmInstance None);
  '(server, cors_defaults, security_defaults) ←
    read_as defaults_table internals_defaults;
  assign_settings this server options;;
  assert_schema this;;
  assign_labels this;;
  assert_basic this;;
  assign_cors this cors_defaults;;
  assign_cors_headers this;;
  assign_security this security_defaults;;
  assign_security_headers this;;
  assign_cacheControlStatus this;;
  mret this.

End Realm.

(** What a reference that may be [null] leads to. *)
Definition referred {A} (kind : object -> option A) (σ : gmap loc object)
    (r : option loc) : option (option A) :=
  match r with
  | Some l => Some <$> (σ !! l ≫= kind)
  | None => Some None
  end.

(** The settings of the instance at [this], with the objects of [cors] and
    [security] read in. *)
Definition settings_at (σ : gmap loc object) (this : loc) : option Settings :=
  match σ !! this with
  | Some (RealmInstance (Some l)) =>
      s ← σ !! l ≫= settings_object;
      match labels s, cors s, security s, _cacheControlStatus s with
      | LabelArray a, Resolved c, Resolved x, Some m =>
          c ← referred cors_object σ c;
          x ← referred security_object σ x;
          Some (Build_Settings (tls s) (location s) (cacheControlStatus s)
                  (timeout s) a c x m)
      | _, _, _, _ => None
      end
  | _ => None
  end.

(** The memory once [lib/realm.js] is loaded: the table [internals.defaults]
    and its three objects. *)
Definition loaded : gmap loc object :=
  {[ 1%positive := DefaultsTable 2%positive 3%positive 4%positive;
     2%positive := SettingsOf (of_options (defaults_server defaults) VUndefined VUndefined);
     3%positive := CorsObject (defaults_cors defaults);
     4%positive := SecurityObject (defaults_security defaults) ]}.

(** The instance at [this] has the settings object [l], which holds [s]. *)
Definition building (σ : gmap loc object) (this l : loc) (s : SettingsObject) : Prop :=
  σ !! this = Some (RealmInstance (Some l)) /\ σ !! l = Some (SettingsOf s).

(** The table of defaults at [internals_defaults], read in. *)
Definition table_at (σ : gmap loc object) (internals_defaults : loc) : option Defaults :=
  match σ !! internals_defaults with
  | Some (DefaultsTable server cors security) =>
      match σ !! server, σ !! cors, σ !! security with
      | Some (SettingsOf s), Some (CorsObject c), Some (SecurityObject x) =>
          o ← as_options s;
          Some {| defaults_server := o; defaults_cors := c; defaults_security := x |}
      | _, _, _ => None
      end
  | _ => None
  end.

(** The settings the first statement of the constructor gives, for the
    options as the memory holds them. *)
Definition merged_settings (σ : gmap loc object) (dflt : Options) (options : value)
  : outcome Options :=
  if negb (truthy options)
  then Ok (Hoek.applyToDefaultsWithShallow dflt Raw.empty)
  else
    match options with
    | VBoolean _ => Ok dflt
    | VObject l | VPack l =>
        match σ !! l with
        | Some (OptionsObject given _ _) =>
            Ok (Hoek.applyToDefaultsWithShallow dflt given)
        | _ => Throw SchemaError
        end
    | _ => Throw (AssertionError
                    "Invalid options value: must be true, falsy or an object")
    end.

(** The header strings of the instance at [this]. *)
Definition derived_strings_at (σ : gmap loc object) (this : loc)
  : option (list (option string)) :=
  derived_strings <$> settings_at σ this.

End Memory.

(** ** A runtime for integer numbers

    An instance of the runtime on which the definitions can be run: it
    converts the strings that are decimal integers (and the empty or blank
    string, and [Infinity]) and prints the integers.  What JavaScript does
    with the other numeric strings and numbers is not in it. *)

Definition is_space (c : ascii) : bool :=
  let n := nat_of_ascii c in
  ((9 <=? n) && (n <=? 13) || (n =? 32))%nat.

Fixpoint trim_left (s : string) : string :=
  match s with
  | String c rest => if is_space c then trim_left rest else s
  | EmptyString => s
  end.

Definition rev_string (s : string) : string :=
  string_of_list_ascii (rev (list_ascii_of_string s)).

Definition trim (s : string) : string :=
  rev_string (trim_left (rev_string (trim_left s))).

Definition is_digit (c : ascii) : bool :=
  let n := nat_of_ascii c in ((48 <=? n) && (n <=? 57))%nat.

Fixpoint digits_value (acc : Z) (s : string) : option Z :=
  match s with
  | EmptyString => Some acc
  | String c rest =>
      if is_digit c
      then digits_value (10 * acc + Z.of_nat (nat_of_ascii c - 48)) rest
      else None
  end.

Definition unsigned_number (s : string) : number :=
  if String.eqb s "Infinity" then Infinity false
  else match s with
       | EmptyString => NaN
       | _ => match digits_value 0 s with
              | Some z => of_int z
              | None => NaN
              end
       end.

Definition negate (n : number) : number :=
  match n with
  | NaN => NaN
  | Infinity b => Infinity (negb b)
  | Fin q => Fin (Qopp q)
  end.

Definition integer_ToNumber (s : string) : number :=
  match trim s with
  | EmptyString => of_int 0
  | String "+" rest => unsigned_number rest
  | String "-" rest => negate (unsigned_number rest)
  | t => unsigned_number t
  end.

Fixpoint digits_of (fuel : nat) (n : Z) (acc : string) : string :=
  match fuel with
  | O => acc
  | S fuel' =>
      let acc' := String (ascii_of_nat (48 + Z.to_nat (n mod 10))) acc in
      if (n <? 10)%Z then acc' else digits_of fuel' (n / 10) acc'
  end.

Definition integer_string (z : Z) : string :=
  if (z <? 0)%Z
  then String "-" (digits_of (S (Z.to_nat (Z.log2 (- z)))) (- z) EmptyString)
  else digits_of (S (Z.to_nat (Z.log2 z))) z EmptyString.

Definition integer_NumberToString (n : number) : string :=
  match n with
  | NaN => "NaN"
  | Infinity true => "-Infinity"
  | Infinity false => "Infinity"
  | Fin q => integer_string (Qnum q / Zpos (Qden q))
  end.

Definition integer_runtime : Runtime :=
  {| ToNumber := integer_ToNumber;
     NumberToString := integer_NumberToString;
     Path_resolve := fun p => p;
     Os_hostname := "localhost" |}.

(** A schema that accepts every settings object. *)
Definition any_schema : Schema := {| Schema_server := fun _ => true |}.

(** ** Objects to run the definitions on *)

(** The options object [{ timeout: { socket, client, server } }]. *)
Definition timeout_options (so cl se : option timeout_value) : Raw.Options :=
  {| Raw.tls := None; Raw.location := None; Raw.cacheControlStatus := None;
     Raw.timeout := Some {| Raw.socket := so; Raw.client := cl; Raw.server := se |};
     Raw.labels := None; Raw.cors := None; Raw.security := None |}.

(** The settings the constructor gets for an options object. *)
Definition merged (o : Raw.Options) : Options :=
  Hoek.applyToDefaultsWithShallow (defaults_server defaults) o.

(** A cors object with the origins and [matchOrigin] given, and the
    defaults of [lib/realm.js] otherwise. *)
Definition cors_with (origins : list string) (match_origin : bool) : Cors :=
  Hoek.merge_cors (defaults_cors defaults)
    {| Raw.origin := Some origins; Raw.isOriginExposed := None;
       Raw.matchOrigin := Some match_origin; Raw.maxAge := None;
       Raw.headers := None; Raw.additionalHeaders := None;
       Raw.methods := None; Raw.additionalMethods := None;
       Raw.exposedHeaders := None; Raw.additionalExposedHeaders := None;
       Raw.credentials := None |}.

(** A security object with the [hsts] and [xframe] given, and the defaults
    of [lib/realm.js] otherwise. *)
Definition security_with (h : option hsts_setting) (x : option xframe_setting)
  : Security :=
  Hoek.merge_security (defaults_security defaults)
    {| Raw.hsts := h; Raw.xframe := x; Raw.xss := None;
       Raw.noOpen := None; Raw.noSniff := None |}.

(** A listening server with one open connection, from 10.0.0.1, port 4000. *)
Definition one_connection : World :=
  {| _started := true;
     _connections := {[ "10.0.0.1:4000" := 1%nat ]};
     _onConnection := Some 0%nat;
     heavy_started := true;
     listener := {| listener_phase := Accepting; once_listening := [];
                    on_connection := [0%nat]; once_close := [] |};
     sockets := {[ 1%nat := {| remoteAddress := VString "10.0.0.1";
                               remotePort := VNumber (of_int 4000);
                               destroyed := false;
                               socket_once_close := ["10.0.0.1:4000"] |} ]};
     timers := ∅; ticks := []; next_id := 2; called := [0%nat];
     objects := ∅ |}.

(** A listening server with two open connections whose address and port are
    undefined. *)
Definition two_equal_keys : World :=
  {| _started := true;
     _connections := {[ "undefined:undefined" := 2%nat ]};
     _onConnection := Some 0%nat;
     heavy_started := true;
     listener := {| listener_phase := Accepting; once_listening := [];
                    on_connection := [0%nat]; once_close := [] |};
     sockets := {[ 1%nat := {| remoteAddress := VUndefined;
                               remotePort := VUndefined;
                               destroyed := false;
                               socket_once_close := ["undefined:undefined"] |};
                   2%nat := {| remoteAddress := VUndefined;
                               remotePort := VUndefined;
                               destroyed := false;
                               socket_once_close := ["undefined:undefined"] |} ]};
     timers := ∅; ticks := []; next_id := 3; called := [0%nat];
     objects := ∅ |}.

(** ** The result of the classification *)

Section Classified.
Context `{Runtime}.

(** What the loop of [port] can have stored under a key: under [host] a
    string whose conversion is not a finite number, under [port] a number,
    under [options] an object that is not a pack, under [pack] a pack, and
    nothing under another key. *)
Definition classified (k : string) (v : value) : Prop :=
  (k = "host" /\ exists s, v = VString s /\ isFinite (ToNumber s) = false)
  \/ (k = "port" /\ exists n, v = VNumber n)
  \/ (k = "options" /\ typeof v = "object" /\ instanceof_Pack v = false)
  \/ (k = "pack" /\ instanceof_Pack v = true).

(** A stored value comes from the arguments: it is one of them, or the
    number one of them converts to. *)
Definition from_arguments (args : list value) (v : value) : Prop :=
  v ∈ args \/ exists s, VString s ∈ args /\ v = VNumber (ToNumber s).

End Classified.

(** ** [lib/index.js]: [createServer] *)

(** [arguments[i]]: [undefined] past the end. *)
Definition argument (arguments : list value) (i : nat) : value :=
  default VUndefined (arguments !! i).

Section CreateServer.
Context `{Runtime} `{Schema}.

(** [exports.createServer]:
    [new exports.Server(arguments[0], arguments[1], arguments[2])]. *)
Definition createServer (arguments : list value) (σ : Store)
  : outcome Server * Store :=
  new_Server [argument arguments 0; argument arguments 1; argument arguments 2] σ.

End CreateServer.

(** ** [lib/xxx.js]: the server information once the listener listens *)

(** [a || b] returns one of its operands. *)
Definition js_or (a b : value) : value := if truthy a then a else b.

(** What [listener.address()] returns, as Node documents it: the address
    and the port of a TCP listener, or, for a listener on a socket or a
    pipe, its path, a string. *)
Inductive Address :=
| TcpAddress (address : string) (address_port : number)
| PathAddress (path : string).

(** [address.address] and [address.port]; a string has neither property. *)
Definition Address_address (a : Address) : value :=
  match a with
  | TcpAddress s _ => VString s
  | PathAddress _ => VUndefined
  end.

Definition Address_port (a : Address) : value :=
  match a with
  | TcpAddress _ p => VNumber p
  | PathAddress _ => VUndefined
  end.

(** [self.info] once the listener listens: the host and the port are what
    the expressions of [onListening] give. *)
Record ListeningInfo := {
  live_host : value;
  live_port : value;
  live_protocol : string;
  live_uri : option string
}.

Section OnListening.
Context `{Runtime}.

(** The function [onListening] of [_init], up to the call of the callback:
    the server information for the address the listener reports. *)
Definition onListening (srv : Server) (address : Address) : ListeningInfo :=
  if negb (truthy (_unixDomainSocket srv)) || negb (truthy (_windowsNamedPipe srv))
  then
    let port := Address_port address in
    {| live_host := js_or (js_or (VString (_host srv)) (Address_address address))
                          (VString "0.0.0.0");
       live_port := port;
       live_protocol := info_protocol (info srv);
       live_uri :=
         Some (info_protocol (info srv) +:+ "://"
               +:+ string_or (_host srv) (string_or Os_hostname "localhost")
               +:+ ":" +:+ ToString port) |}
  else
    {| live_host := VString (info_host (info srv));
       live_port := VNumber (info_port (info srv));
       live_protocol := info_protocol (info srv);
       live_uri := info_uri (info srv) |}.

End OnListening.

(** ** [lib/xxx.js]: [inject] *)

(** The objects of an injection, by identity: the options of the caller and
    the copies made of them. *)
Definition Objects := gmap loc (gmap string value).

(** [Utils.shallow(source)] of [lib/utils.js], which is not among the
    sources, taken as its name and its use in [inject] say: a new object
    with the properties of [source]. *)
Definition Utils_shallow (source : loc) (h : Objects) : loc * Objects :=
  let target := fresh (dom h) in
  (target, <[target := default ∅ (h !! source)]> h).

(** [delete object[key]]. *)
Definition delete_property (object : loc) (key : string) (h : Objects) : Objects :=
  match h !! object with
  | Some o => <[object := delete key o]> h
  | None => h
  end.

(** What [inject] hands to [Shot.inject]: the dispatch function, known by
    the options [_dispatch] was called with, and the settings object. *)
Record Injection := {
  needle : DispatchOptions;
  shot_settings : loc
}.

(** [internals.XXX.prototype.inject], up to the call of [Shot.inject]. *)
Definition inject (options : loc) (h : Objects) : Injection * Objects :=
  let settings := options in
  let '(settings, h) :=
    if truthy (prop (default ∅ (h !! settings)) "credentials") then
      let '(settings, h) := Utils_shallow options h in
      (settings, delete_property settings "credentials" h)
    else (settings, h) in
  ({| needle := {| dispatch_credentials :=
                     prop (default ∅ (h !! options)) "credentials" |};
      shot_settings := settings |}, h).

(** The response [Shot.inject] calls back with: [res.raw.res._hapi], known
    by its [result], the payload, and the [result] property. *)
Record ShotResponse := {
  raw_res_hapi : option value;
  res_payload : value;
  res_result : value
}.

(** The callback [inject] passes to [Shot.inject], up to the call of the
    caller's callback. *)
Definition onInjected (res : ShotResponse) : ShotResponse :=
  match raw_res_hapi res with
  | Some hapi_result =>
      {| raw_res_hapi := None; res_payload := res_payload res;
         res_result := hapi_result |}
  | None =>
      {| raw_res_hapi := None; res_payload := res_payload res;
         res_result := res_payload res |}
  end.

(** ** [views] of [lib/xxx.js] and of [lib/realm.js] *)

(** [new Vision.Manager(options)] of the vision module, which is not among
    the sources: the module makes a manager, known by the options it was
    made with, or throws. *)
Record Manager := { manager_options : value }.

Class Vision := { Manager_check : value -> outcome unit }.

(** The managers made so far, by identity, and the [_views] property of a
    server and of its realm.  The constructor of the realm sets its
    [_views] to [null], and the constructor of the server copies it. *)
Record Views := {
  managers : gmap loc Manager;
  server_views : option loc;
  realm_views : option loc
}.

Definition constructed_views : Views :=
  {| managers := ∅; server_views := None; realm_views := None |}.

Section ViewsCalls.
Context `{Vision}.

Definition new_Manager (options : value) (v : Views) : outcome (loc * Views) :=
  Manager_check options ;;
  let m := fresh (dom (managers v)) in
  Ok (m, {| managers := <[m := {| manager_options := options |}]> (managers v);
            server_views := server_views v;
            realm_views := realm_views v |}).

(** [internals.Realm.prototype.views]. *)
Definition Realm_views (options : value) (v : Views) : outcome Views :=
  Hoek.assert (negb (bool_decide (is_Some (realm_views v))))
    "Cannot set server views manager more than once" ;;
  '(m, v) ← new_Manager options v;
  Ok {| managers := managers v; server_views := server_views v;
        realm_views := Some m |}.

(** [internals.XXX.prototype.views]:
    [this._views = this._realm._views = new Vision.Manager(options)]. *)
Definition XXX_views (options : value) (v : Views) : outcome Views :=
  Hoek.assert (negb (bool_decide (is_Some (server_views v))))
    "Cannot set server views manager more than once" ;;
  '(m, v) ← new_Manager options v;
  Ok {| managers := managers v; server_views := Some m;
        realm_views := Some m |}.

(** A call of [views], on the server or on its realm. *)
Inductive views_call :=
| OnServer (options : value)
| OnRealm (options : value).

Definition call_views (c : views_call) (v : Views) : outcome Views :=
  match c with
  | OnServer options => XXX_views options v
  | OnRealm options => Realm_views options v
  end.

(** A sequence of calls, a call that throws leaving everything as it is. *)
Definition views_all (calls : list views_call) (v : Views) : Views :=
  foldl (fun v c => match call_views c v with
                    | Ok v' => v'
                    | Throw _ => v
                    end) v calls.

End ViewsCalls.

(** What the [_views] of a server and of its realm can be: both unset; the
    realm's set by the realm's own [views]; or both set, to one manager. *)
Definition views_state (v : Views) : Prop :=
  (server_views v = None /\ realm_views v = None /\ managers v = ∅)
  \/ (server_views v = None
      /\ exists m, realm_views v = Some m /\ is_Some (managers v !! m)
                   /\ size (managers v) = 1%nat)
  \/ (exists m, server_views v = Some m /\ realm_views v = Some m
                /\ is_Some (managers v !! m)
                /\ (size (managers v) <= 2)%nat).

(** ** The patterns of wildcard origins, as regular expressions

    The patterns the constructor builds use a fragment of the syntax of
    regular expressions: the anchors, escaped special characters, plain
    characters, [.] and [.*].  The fragment is read as ECMAScript reads it:
    an escaped special character and a plain character match themselves,
    [.] matches one character that is not a line terminator, [.*] any run of
    such characters, and an anchored pattern matches a whole string. *)

(** The line terminators, among the characters below 256. *)
Definition line_terminator (c : ascii) : bool :=
  ((nat_of_ascii c =? 10) || (nat_of_ascii c =? 13))%nat.

Inductive atom :=
| Char (c : ascii)
| Dot
| DotStar.

(** The syntax characters of regular expressions:
    [^ $ \ . * + ? ( ) [ ] { } |]. *)
Definition syntax_characters : list ascii :=
  list_ascii_of_string "^$\.*+?()[]{}|".

Definition is_syntax (c : ascii) : bool :=
  existsb (Ascii.eqb c) syntax_characters.

(** The atoms of the text of a pattern after its [^], up to its final [$];
    [None] for a text outside the fragment. *)
Fixpoint parse_atoms (s : string) : option (list atom) :=
  match s with
  | EmptyString => None
  | String c rest =>
      if Ascii.eqb c "$" then
        match rest with
        | EmptyString => Some []
        | _ => None
        end
      else if Ascii.eqb c "\" then
        match rest with
        | String d rest' =>
            if Hoek.is_special d then cons (Char d) <$> parse_atoms rest'
            else None
        | EmptyString => None
        end
      else if Ascii.eqb c "." then
        match rest with
        | String d rest' =>
            if Ascii.eqb d "*" then cons DotStar <$> parse_atoms rest'
            else cons Dot <$> parse_atoms rest
        | EmptyString => cons Dot <$> parse_atoms rest
        end
      else if is_syntax c then None
      else cons (Char c) <$> parse_atoms rest
  end.

Definition RegExp_atoms (r : RegExp) : option (list atom) :=
  match source r with
  | String c body => if Ascii.eqb c "^" then parse_atoms body else None
  | EmptyString => None
  end.

(** The atoms match the whole of a string. *)
Fixpoint atoms_match (atoms : list atom) (s : string) : bool :=
  match atoms with
  | [] =>
      match s with
      | EmptyString => true
      | _ => false
      end
  | Char c :: rest =>
      match s with
      | String d s' => Ascii.eqb c d && atoms_match rest s'
      | EmptyString => false
      end
  | Dot :: rest =>
      match s with
      | String d s' => negb (line_terminator d) && atoms_match rest s'
      | EmptyString => false
      end
  | DotStar :: rest =>
      (fix star (s : string) : bool :=
         atoms_match rest s
         || match s with
            | String d s' => negb (line_terminator d) && star s'
            | EmptyString => false
            end) s
  end.

(** [pattern.test(s)], for a pattern of the fragment. *)
Definition RegExp_test (r : RegExp) (s : string) : option bool :=
  (fun atoms => atoms_match atoms s) <$> RegExp_atoms r.

(** A string matches a wildcard origin: [*] stands for any run of
    characters that are not line terminators, [?] for one such character,
    and every other character for itself. *)
Fixpoint wildcard_matches (origin s : string) : bool :=
  match origin with
  | EmptyString =>
      match s with
      | EmptyString => true
      | _ => false
      end
  | String c rest =>
      if Ascii.eqb c "*" then
        (fix star (s : string) : bool :=
           wildcard_matches rest s
           || match s with
              | String d s' => negb (line_terminator d) && star s'
              | EmptyString => false
              end) s
      else
        match s with
        | String d s' =>
            (if Ascii.eqb c "?" then negb (line_terminator d) else Ascii.eqb c d)
            && wildcard_matches rest s'
        | EmptyString => false
        end
  end.

(** The atoms of a wildcard origin. *)
Definition wildcard_atom (c : ascii) : atom :=
  if Ascii.eqb c "*" then DotStar
  else if Ascii.eqb c "?" then Dot
  else Char c.

Definition wildcard_atoms (origin : string) : list atom :=
  wildcard_atom <$> list_ascii_of_string origin.

(** ** A server in use *)

(** What happens to a server: a call of [_start], a call of [_stop], the
    handlers of an event being run, or a caller making or changing an
    options object. *)
Inductive action :=
| Start (cb : callback)
| Stop (options : option loc) (cb : callback)
| Deliver (e : event)
| Assign (l : loc) (o : StopOptions).

Section Actions.
Context `{Runtime}.

(** The handlers of an event, run whatever the phase of the listener: what
    [step] does for the event, without asking whether the listener is in
    the phase to emit it.  An event of a connection that is not open, of a
    timer that is not armed or of an empty queue runs no handler. *)
Definition emit (e : event) (w : World) : World :=
  match e with
  | Listening =>
      let handlers := once_listening (listener w) in
      let w := set_phase Accepting [] (once_close (listener w)) w in
      foldl (fun w cb => call cb w) w handlers
  | Connection address port =>
      let c := next_id w in
      let s := {| remoteAddress := address; remotePort := port;
                  destroyed := false; socket_once_close := [] |} in
      let w := set_next_id (S c) (set_sockets (<[c := s]> (sockets w)) w) in
      foldl (fun w _ => onConnection c w) w (on_connection (listener w))
  | SocketClose c =>
      match sockets w !! c with
      | Some s =>
          let w := set_sockets (delete c (sockets w)) w in
          foldl (fun w key => onSocketClose key w) w (socket_once_close s)
      | None => w
      end
  | TimerFired t =>
      match timers w !! t with
      | Some _ => onTimeout (set_timers (delete t (timers w)) w)
      | None => w
      end
  | ListenerClose =>
      let closers := once_close (listener w) in
      let w := set_phase Closed (once_listening (listener w)) [] w in
      foldl (fun w handler => onListenerClose handler w) w closers
  | Tick =>
      match ticks w with
      | cb :: rest => call cb (set_ticks rest w)
      | [] => w
      end
  end.

Definition perform (a : action) (w : World) : World :=
  match a with
  | Start cb => _start cb w
  | Stop options cb => _stop options cb w
  | Deliver e => emit e w
  | Assign l o => set_objects (<[l := o]> (objects w)) w
  end.

Definition perform_all (actions : list action) (w : World) : World :=
  foldl (fun w a => perform a w) w actions.

(** Every entry of the registry is an open connection, under the key of
    that connection, and the close handlers of the connection delete the
    entry. *)
Definition registered_open (w : World) : Prop :=
  forall k c, _connections w !! k = Some c ->
    exists s, sockets w !! c = Some s
              /\ connection_key s = k
              /\ k ∈ socket_once_close s.

(** The connections were numbered before [next_id]. *)
Definition numbered (w : World) : Prop :=
  forall c s, sockets w !! c = Some s -> (c < next_id w)%nat.

(** Every connection of a run arrives with a key that no open connection
    has. *)
Fixpoint fresh_keys (events : list event) (w : World) : Prop :=
  match events with
  | [] => True
  | e :: rest =>
      match e with
      | Connection address port =>
          forall c s, sockets w !! c = Some s ->
                      connection_key s <> ToString address +:+ ":" +:+ ToString port
      | _ => True
      end
      /\ match step e w with
         | Some w' => fresh_keys rest w'
         | None => True
         end
  end.

End Actions.

(** The states of a server that was started once and has not been stopped:
    binding, with the callback of [start] waiting, or accepting, with that
    callback invoked. *)
Inductive serving (cb : callback) (w : World) : Prop :=
| serving_binding :
    listener_phase (listener w) = Binding ->
    once_listening (listener w) = [cb] ->
    called w = [] -> sockets w = ∅ ->
    serving cb w
| serving_accepting :
    listener_phase (listener w) = Accepting ->
    once_listening (listener w) = [] ->
    called w = [cb] ->
    serving cb w.


(** * Properties *)

Lemma bind_Ok {A B} (a : A) (k : A -> outcome B) : Ok a ≫= k = k a.
Proof. reflexivity. Qed.
Lemma bind_Throw {A B} (e : error) (k : A -> outcome B) : Throw e ≫= k = Throw e.
Proof. reflexivity. Qed.
Lemma assert_true (message : string) : Hoek.assert true message = Ok tt.
Proof. reflexivity. Qed.
Lemma assert_false (message : string) :
  Hoek.assert false message = Throw (AssertionError message).
Proof. reflexivity. Qed.
Lemma prop_empty (k : string) : prop ∅ k = VUndefined.
Proof. reflexivity. Qed.
Lemma prop_insert_eq (r : gmap string value) (k : string) (v : value) :
  prop (<[k := v]> r) k = v.
Proof. unfold prop. by rewrite lookup_insert_eq. Qed.

Ltac outcome_simpl :=
  repeat (rewrite ?bind_Ok, ?bind_Throw, ?assert_true, ?assert_false,
            ?prop_insert_eq, ?prop_empty; simpl).

(** ** Constructor arguments *)

Lemma argMap_string : argMap !! "string" = Some "host".
Proof. reflexivity. Qed.
Lemma argMap_number : argMap !! "number" = Some "port".
Proof. reflexivity. Qed.
Lemma argMap_object : argMap !! "object" = Some "options".
Proof. reflexivity. Qed.
Lemma argMap_boolean : argMap !! "boolean" = None.
Proof. reflexivity. Qed.
Lemma argMap_function : argMap !! "function" = None.
Proof. reflexivity. Qed.

Section PortFacts.
Context `{Runtime}.

(** One turn of the loop on a positional argument: an argument without a
    slot throws; an argument with a slot is stored in that slot and in no
    other, unless the slot already holds a truthy value. *)
Lemma port_arg_slot (result : gmap string value) (v : value) :
  positional v = true ->
  match slot_of v with
  | None =>
      port_arg result v =
      Throw (AssertionError "Bad server constructor arguments: no match for arg type:")
  | Some (slot, v') =>
      port_arg result v =
      if truthy (prop result slot)
      then Throw (AssertionError "Bad server constructor arguments: duplicated arg type:")
      else Ok (<[slot := v']> result)
  end.
Proof.
  intros Hpos. unfold port_arg.
  destruct v; try discriminate Hpos; simpl.
  - rewrite argMap_object. simpl. by destruct (truthy _).
  - by rewrite argMap_boolean.
  - rewrite argMap_number. simpl. by destruct (truthy _).
  - destruct (isFinite (ToNumber s)).
    + rewrite argMap_number. simpl. by destruct (truthy _).
    + rewrite argMap_string. simpl. by destruct (truthy _).
  - rewrite argMap_object. simpl. by destruct (truthy _).
  - by rewrite argMap_function.
Qed.

End PortFacts.

Section PortLoopFacts.
Context `{Runtime}.

Lemma slot_of_names (v : value) (slot : string) (v' : value) :
  slot_of v = Some (slot, v') ->
  slot = "host" \/ slot = "port" \/ slot = "options".
Proof.
  destruct v; simpl; try discriminate; try (intros [= <- <-]; tauto).
  destruct (isFinite _); intros [= <- <-]; tauto.
Qed.

Lemma slot_of_not_pack (v : value) (slot : string) (v' : value) :
  slot_of v = Some (slot, v') -> slot <> "pack".
Proof.
  intros Hs. destruct (slot_of_names _ _ _ Hs) as [-> | [-> | ->]]; discriminate.
Qed.

Lemma prop_insert_ne (r : gmap string value) (k k' : string) (v : value) :
  k <> k' -> prop (<[k := v]> r) k' = prop r k'.
Proof. intros Hne. unfold prop. by rewrite lookup_insert_ne. Qed.

(** An argument without a slot makes the loop throw, whatever came before. *)
Lemma port_loop_no_slot (args : list value) (v : value) :
  v ∈ args -> positional v = true -> slot_of v = None ->
  forall result, exists e, port_loop result args = Throw e.
Proof.
  intros Hin Hpos Hnone.
  induction args as [| a rest IH]; intros result.
  - by apply elem_of_nil in Hin.
  - simpl. apply elem_of_cons in Hin as [<- | Hin].
    + pose proof (port_arg_slot result v Hpos) as Hstep.
      rewrite Hnone in Hstep. rewrite Hstep. simpl. eauto.
    + destruct (port_arg result a) as [result' | e]; simpl; [| eauto].
      by apply IH.
Qed.

(** The loop as a fold, from any [result] whose slots to come are free. *)
Lemma port_loop_distinct (args : list value) :
  (forall v, v ∈ args -> positional v = true -> is_Some (slot_of v)) ->
  NoDup (slots args) ->
  forall result,
    (forall slot, slot ∈ slots args -> truthy (prop result slot) = false) ->
    port_loop result args = Ok (foldl assign result args).
Proof.
  induction args as [| a rest IH]; intros Hall Hnd result Hfree; [done |].
  simpl. unfold assign at 2.
  destruct (is_undefined a) eqn:Hu.
  { unfold port_arg. rewrite Hu. simpl. apply IH.
    - intros v Hv. apply Hall. by right.
    - unfold slots, positional in Hnd. simpl in Hnd. by rewrite Hu in Hnd.
    - intros slot Hs. apply Hfree. unfold slots, positional. simpl. by rewrite Hu. }
  destruct (instanceof_Pack a) eqn:Hp.
  { unfold port_arg. rewrite Hu, Hp. simpl. apply IH.
    - intros v Hv. apply Hall. by right.
    - unfold slots, positional in Hnd. simpl in Hnd. by rewrite Hu, Hp in Hnd.
    - intros slot Hs.
      assert (Hin : slot ∈ slots rest) by done.
      unfold slots in Hs. apply list_elem_of_omap in Hs as (v & _ & Hv).
      destruct (positional v); [| done].
      destruct (slot_of v) as [[s v'] |] eqn:Hsv; [| done].
      simpl in Hv. injection Hv as ->.
      rewrite prop_insert_ne by (apply not_eq_sym; eapply slot_of_not_pack; eauto).
      apply Hfree. unfold slots, positional. simpl. by rewrite Hu, Hp. }
  assert (Hpos : positional a = true) by (unfold positional; by rewrite Hu, Hp).
  destruct (Hall a ltac:(by left) Hpos) as [[slot v'] Hslot].
  pose proof (port_arg_slot result a Hpos) as Hstep. rewrite Hslot in Hstep.
  unfold slots in Hnd, Hfree. simpl in Hnd, Hfree.
  rewrite Hpos, Hslot in Hnd, Hfree. simpl in Hnd, Hfree.
  apply NoDup_cons in Hnd as [Hnotin Hnd].
  rewrite Hslot, Hstep, (Hfree slot) by (by left). simpl.
  apply IH; [intros v Hv; apply Hall; by right | done |].
  intros slot' Hs'. rewrite prop_insert_ne; [apply Hfree; by right |].
  intros ->. by apply Hnotin.
Qed.

(** A slot no later argument goes to keeps its value through the fold. *)
Lemma assign_keeps (slot : string) (v' : value) (args : list value) :
  slot <> "pack" -> slot ∉ slots args ->
  forall r, r !! slot = Some v' -> foldl assign r args !! slot = Some v'.
Proof.
  intros Hpack. induction args as [| a rest IH]; intros Hn r Hr; [done |].
  simpl. unfold slots, positional in Hn. simpl in Hn.
  unfold assign at 2.
  destruct (is_undefined a) eqn:Hu; simpl in Hn; [by apply IH |].
  destruct (instanceof_Pack a) eqn:Hp; simpl in Hn.
  { apply IH; [done |]. by rewrite lookup_insert_ne. }
  destruct (slot_of a) as [[s w] |] eqn:Hs; simpl in Hn; [| by apply IH].
  apply not_elem_of_cons in Hn as [Hne Hn].
  apply IH; [done |]. by rewrite lookup_insert_ne.
Qed.

(** With distinct slots, every argument is found in its slot at the end. *)
Lemma assign_lookup (args : list value) :
  NoDup (slots args) ->
  forall result v slot v',
    v ∈ args -> positional v = true -> slot_of v = Some (slot, v') ->
    foldl assign result args !! slot = Some v'.
Proof.
  induction args as [| a rest IH]; intros Hnd result v slot v' Hin Hpos Hslot.
  - by apply elem_of_nil in Hin.
  - simpl. apply elem_of_cons in Hin as [<- | Hin].
    + unfold slots in Hnd. simpl in Hnd. rewrite Hpos, Hslot in Hnd. simpl in Hnd.
      apply NoDup_cons in Hnd as [Hnotin _].
      apply assign_keeps; [by eapply slot_of_not_pack | done |].
      unfold assign. unfold positional in Hpos.
      destruct (is_undefined v); [done |].
      destruct (instanceof_Pack v); [done |].
      rewrite Hslot. apply lookup_insert_eq.
    + apply IH with v; try done.
      unfold slots in Hnd. simpl in Hnd.
      destruct (positional a); [| done].
      destruct (slot_of a) as [[s w] |]; simpl in Hnd; [| done].
      by apply NoDup_cons in Hnd as [_ Hnd].
Qed.

(** C2.  Classification of the constructor's arguments, for at most four
    of them.  A turn of the loop on an argument that is defined and is not
    the pack stores it in the one slot of its type -- a string under [host],
    a number under [port], an object under [options], a string that converts
    to a finite number under [port] as that number -- or throws because that
    slot is taken.  An argument that is neither a string, a number nor an
    object makes the construction throw.  When the arguments go to slots that
    are all different, the construction of the arguments succeeds and the
    result holds every argument in its slot. *)
Theorem port_classification (args : list value) :
  (length args <= 4)%nat ->
  (forall result v slot v',
     positional v = true -> slot_of v = Some (slot, v') ->
     port_arg result v
     = if truthy (prop result slot)
       then Throw (AssertionError "Bad server constructor arguments: duplicated arg type:")
       else Ok (<[slot := v']> result))
  /\ (forall v, v ∈ args -> positional v = true -> slot_of v = None ->
                exists e, port args = Throw e)
  /\ ((forall v, v ∈ args -> positional v = true -> is_Some (slot_of v)) ->
      NoDup (slots args) ->
      port args = Ok (assignment args)
      /\ forall v slot v',
           v ∈ args -> positional v = true -> slot_of v = Some (slot, v') ->
           assignment args !! slot = Some v'
           /\ (slot = "host" \/ slot = "port" \/ slot = "options")).
Proof.
  intros Hlen. unfold port.
  apply Nat.leb_le in Hlen. rewrite Hlen. simpl. split; [| split].
  - intros result v slot v' Hpos Hslot.
    pose proof (port_arg_slot result v Hpos) as Hstep. by rewrite Hslot in Hstep.
  - intros v Hin Hpos Hnone. by eapply port_loop_no_slot.
  - intros Hall Hnd. split.
    + apply port_loop_distinct; [done | done |]. intros slot _. done.
    + intros v slot v' Hin Hpos Hslot. split.
      * by eapply assign_lookup.
      * by eapply slot_of_names.
Qed.

End PortLoopFacts.

Lemma port_classification_witness :
  let args := [VString "example.com"; VNumber (of_int 8080); VObject 1%positive] in
  (length args <= 4)%nat
  /\ port (H := integer_runtime) args = Ok (assignment (H := integer_runtime) args)
  /\ assignment (H := integer_runtime) args !! "host" = Some (VString "example.com")
  /\ assignment (H := integer_runtime) args !! "port" = Some (VNumber (of_int 8080)).
Proof.
  intros args.
  assert (Hlen : (length args <= 4)%nat) by (simpl; lia).
  destruct (port_classification (H := integer_runtime) args Hlen) as (_ & _ & Hok).
  assert (Hall : forall v, v ∈ args -> positional v = true ->
                           is_Some (slot_of (H := integer_runtime) v)).
  { intros v Hin _. unfold args in Hin.
    repeat (apply elem_of_cons in Hin as [-> | Hin]; [vm_compute; eauto |]).
    by apply elem_of_nil in Hin. }
  assert (Hnd : NoDup (slots (H := integer_runtime) args)).
  { apply (bool_decide_unpack _). vm_compute. exact I. }
  destruct (Hok Hall Hnd) as [Hport Hslot].
  split; [exact Hlen |]. split; [exact Hport |]. split.
  - apply (Hslot (VString "example.com")); [by left | reflexivity | reflexivity].
  - apply (Hslot (VNumber (of_int 8080))); [right; by left | reflexivity | reflexivity].
Defined.

Section PortExamples.
Context `{Runtime}.

(** [("example.com", 8080, {})]: host and port as given. *)
Example port_host_port_options (o : loc) :
  isFinite (ToNumber "example.com") = false ->
  port [VString "example.com"; VNumber (of_int 8080); VObject o]
  = Ok (<["options" := VObject o]>
          (<["port" := VNumber (of_int 8080)]>
             (<["host" := VString "example.com"]> ∅))).
Proof.
  intros Hnan. unfold port. simpl. unfold port_arg at 3. simpl.
  rewrite Hnan, argMap_string. simpl.
  unfold port_arg at 2. simpl. rewrite argMap_number. simpl.
  unfold port_arg. simpl. by rewrite argMap_object.
Qed.

(** [(8080, {})]: no host. *)
Example port_port_options (o : loc) :
  port [VNumber (of_int 8080); VObject o]
  = Ok (<["options" := VObject o]> (<["port" := VNumber (of_int 8080)]> ∅)).
Proof.
  unfold port. simpl. unfold port_arg at 2. simpl. rewrite argMap_number. simpl.
  unfold port_arg. simpl. by rewrite argMap_object.
Qed.

(** [("8080", {})]: the numeric string is the port. *)
Example port_numeric_string (o : loc) :
  ToNumber "8080" = of_int 8080 ->
  port [VString "8080"; VObject o]
  = Ok (<["options" := VObject o]> (<["port" := VNumber (of_int 8080)]> ∅)).
Proof.
  intros Hnum. unfold port. simpl. unfold port_arg at 2. simpl.
  rewrite Hnum. simpl. rewrite argMap_number. simpl.
  unfold port_arg. simpl. by rewrite argMap_object.
Qed.

(** Once a slot holds a truthy value, a later argument for the same slot
    makes the loop throw. *)
Lemma port_loop_taken (slot : string) (args : list value) (b vb : value) :
  slot <> "pack" ->
  b ∈ args -> positional b = true -> slot_of b = Some (slot, vb) ->
  forall result, truthy (prop result slot) = true ->
                 exists e, port_loop result args = Throw e.
Proof.
  intros Hpack Hin Hpos Hslot.
  induction args as [| a rest IH]; intros result Htaken.
  - by apply elem_of_nil in Hin.
  - simpl. apply elem_of_cons in Hin as [<- | Hin].
    + pose proof (port_arg_slot result b Hpos) as Hstep.
      rewrite Hslot, Htaken in Hstep. rewrite Hstep. simpl. eauto.
    + destruct (port_arg result a) as [result' | e] eqn:Ha; simpl; [| eauto].
      apply IH; [done |].
      destruct (is_undefined a) eqn:Hu.
      { unfold port_arg in Ha. rewrite Hu in Ha. by injection Ha as <-. }
      destruct (instanceof_Pack a) eqn:Hp.
      { unfold port_arg in Ha. rewrite Hu, Hp in Ha. injection Ha as <-.
        rewrite prop_insert_ne; [done | by apply not_eq_sym]. }
      assert (Hposa : positional a = true) by (unfold positional; by rewrite Hu, Hp).
      pose proof (port_arg_slot result a Hposa) as Hstep.
      destruct (slot_of a) as [[s w] |]; [| congruence].
      rewrite Hstep in Ha.
      destruct (truthy (prop result s)) eqn:Hs; [done |].
      injection Ha as <-. rewrite prop_insert_ne; [done |].
      intros ->. congruence.
Qed.

(** Two arguments for one slot, the first of them truthy once stored: the
    construction throws. *)
Lemma port_rejects_truthy_duplicates
    (pre rest : list value) (a b va vb : value) (slot : string) :
  positional a = true -> slot_of a = Some (slot, va) -> truthy va = true ->
  b ∈ rest -> positional b = true -> slot_of b = Some (slot, vb) ->
  exists e, port (pre ++ a :: rest) = Throw e.
Proof.
  intros Hpa Hsa Hta Hin Hpb Hsb. unfold port.
  destruct (length (pre ++ a :: rest) <=? 4)%nat; simpl; [| eauto].
  generalize (∅ : gmap string value).
  induction pre as [| x pre IH]; intros result; simpl.
  - pose proof (port_arg_slot result a Hpa) as Hstep. rewrite Hsa in Hstep.
    rewrite Hstep. destruct (truthy (prop result slot)); simpl; [eauto |].
    eapply port_loop_taken; eauto using slot_of_not_pack.
    unfold prop. by rewrite lookup_insert_eq.
  - destruct (port_arg result x); simpl; eauto.
Qed.

(** [(8080, 9090)] is rejected. *)
Example port_8080_9090 :
  port [VNumber (of_int 8080); VNumber (of_int 9090)]
  = Throw (AssertionError "Bad server constructor arguments: duplicated arg type:").
Proof.
  unfold port. simpl. unfold port_arg at 2. simpl. rewrite argMap_number. simpl.
  unfold port_arg. simpl. by rewrite argMap_number.
Qed.

(** C3.  Two arguments for the port slot, the first of them 0: the
    duplicate check reads the stored 0 as an empty slot, nothing is thrown
    and the second port replaces the first. *)
Theorem port_duplicate_after_zero :
  port [VNumber (of_int 0); VNumber (of_int 8080)]
  = Ok {[ "port" := VNumber (of_int 8080) ]}.
Proof.
  unfold port. simpl. unfold port_arg at 2. simpl. rewrite argMap_number. simpl.
  unfold port_arg. simpl. rewrite argMap_number. outcome_simpl.
  by rewrite insert_insert_eq.
Qed.

End PortExamples.

Section EmptyString.
Context `{Runtime} `{Schema}.

Lemma check_basic_defaults : check_basic (defaults_server defaults) = Ok tt.
Proof. reflexivity. Qed.

(** With no options the constructor of [lib/realm.js] succeeds on the
    defaults, as soon as the schema accepts them. *)
Lemma Realm_no_options (σ : Store) (options : value) :
  truthy options = false ->
  internals_defaults σ = defaults ->
  Schema_server (defaults_server defaults) = true ->
  exists settings,
    tls settings = None
    /\ Realm options σ =
       (Ok (fresh (dom (heap σ))),
        {| internals_defaults := internals_defaults σ;
           heap := <[fresh (dom (heap σ)) := RealmObject settings]> (heap σ) |}).
Proof.
  intros Hfalsy Hd Hschema. unfold Realm, merged_settings.
  rewrite Hfalsy, Hd. cbn [negb].
  change (Hoek.applyToDefaultsWithShallow (defaults_server defaults) Raw.empty)
    with (defaults_server defaults).
  rewrite bind_Ok. unfold resolve.
  rewrite Hschema, assert_true, bind_Ok, check_basic_defaults, bind_Ok.
  cbn. rewrite Hd. eexists. split; [| reflexivity]. reflexivity.
Qed.

(** C10.  The empty string as the only argument: its conversion to a number
    is the finite number 0, so it is stored under [port] as 0 and nothing is
    stored under [host]; the server is built with host [''] and port 0, the
    port for which the listener picks one. *)
Theorem empty_string_is_port_zero (σ : Store) :
  ToNumber EmptyString = of_int 0 ->
  internals_defaults σ = defaults ->
  Schema_server (defaults_server defaults) = true ->
  port [VString EmptyString] = Ok {[ "port" := VNumber (of_int 0) ]}
  /\ exists srv σ',
       new_Server [VString EmptyString] σ = (Ok srv, σ')
       /\ _host srv = EmptyString
       /\ _port srv = of_int 0
       /\ info_port (info srv) = of_int 0
       /\ info_uri (info srv) = None
       /\ _unixDomainSocket srv = VUndefined
       /\ _windowsNamedPipe srv = VUndefined.
Proof.
  intros Hzero Hd Hschema.
  assert (Hport : port [VString EmptyString] = Ok {[ "port" := VNumber (of_int 0) ]}).
  { unfold port. simpl. unfold port_arg. simpl. rewrite Hzero. simpl.
    rewrite argMap_number. by outcome_simpl. }
  split; [exact Hport |].
  unfold new_Server. rewrite Hport.
  destruct (Realm_no_options σ (prop {[ "port" := VNumber (of_int 0) ]} "options"))
    as (settings & Htls & HRealm); [reflexivity | done | done |].
  rewrite HRealm. cbn [heap]. rewrite lookup_insert_eq.
  eexists _, _. split; [reflexivity |]. simpl. rewrite Htls. done.
Qed.

End EmptyString.

Lemma empty_string_is_port_zero_witness :
  let σ := {| internals_defaults := defaults; heap := ∅ |} in
  port (H := integer_runtime) [VString EmptyString]
  = Ok {[ "port" := VNumber (of_int 0) ]}
  /\ exists srv σ',
       new_Server (H := integer_runtime) (H0 := any_schema) [VString EmptyString] σ
       = (Ok srv, σ')
       /\ _host srv = EmptyString
       /\ _port srv = of_int 0
       /\ info_port (info srv) = of_int 0
       /\ info_uri (info srv) = None
       /\ _unixDomainSocket srv = VUndefined
       /\ _windowsNamedPipe srv = VUndefined.
Proof.
  intros σ.
  apply (empty_string_is_port_zero (H := integer_runtime) (H0 := any_schema) σ);
    reflexivity.
Defined.

(** ** Timeouts *)

Lemma number_lt_ge (a b : number) :
  number_truthy a = true -> number_truthy b = true ->
  number_lt a b = negb (number_ge a b).
Proof.
  by destruct a as [| [] | x], b as [| [] | y].
Qed.

Lemma timeout_lt_ge (a b : timeout_value) :
  timeout_truthy a = true -> timeout_truthy b = true ->
  timeout_lt a b = negb (timeout_ge a b).
Proof.
  destruct a, b; simpl; try done. apply number_lt_ge.
Qed.

(** Each timeout assertion of the constructor fails exactly on a timeout that
    is enabled and not below the enabled socket timeout. *)
Lemma timeout_assertion (x : timeout_value) (t : Timeout) :
  negb (timeout_truthy x) || negb (timeout_truthy (effective_socket t))
  || timeout_lt x (effective_socket t)
  = negb (not_below_socket x t).
Proof.
  unfold not_below_socket.
  destruct (timeout_truthy x) eqn:Hx; [| done].
  destruct (timeout_truthy (effective_socket t)) eqn:Hs; [| done].
  simpl. by apply timeout_lt_ge.
Qed.

Lemma check_basic_spec (settings : Options) :
  check_basic settings =
  if negb (location_ok (o_location settings)) then
    Throw (AssertionError "Location setting must not contain a trailing '/'")
  else if not_below_socket (server (o_timeout settings)) (o_timeout settings) then
    Throw (AssertionError "Realm timeout must be shorter than socket timeout")
  else if not_below_socket (client (o_timeout settings)) (o_timeout settings) then
    Throw (AssertionError "Client timeout must be shorter than socket timeout")
  else Ok tt.
Proof.
  unfold check_basic. fold (location_ok (o_location settings)).
  change (match socket (o_timeout settings) with
          | Some t => t
          | None => TNumber (of_int (2 * 60 * 1000))
          end) with (effective_socket (o_timeout settings)).
  rewrite !timeout_assertion.
  destruct (location_ok _); [| done].
  destruct (not_below_socket (server _) _); [done |].
  by destruct (not_below_socket (client _) _).
Qed.

Section TimeoutFacts.
Context `{Runtime} `{Schema}.

Lemma resolve_check_basic (d : Defaults) (settings : Options) (e : error) :
  check_basic settings = Throw e -> exists e', resolve d settings = Throw e'.
Proof.
  intros Hc. unfold resolve.
  destruct (Schema_server settings); [| by eexists].
  rewrite assert_true, bind_Ok, Hc. by eexists.
Qed.

(** C4 (amended).  With the socket timeout in force being the configured one
    or 120000 when unset: the construction throws whenever the server timeout
    is enabled, the socket timeout is enabled and server >= socket, and
    whenever the client timeout is enabled, the socket timeout is enabled and
    client >= socket; a timeout that is disabled, or checked against a
    disabled socket timeout, passes its assertion.  [{socket: 1000, server:
    2000}] is rejected; [{socket: 5000, server: 2000}] passes the server
    assertion and is rejected by the client assertion, the client timeout
    being 10000 by default; with the client timeout disabled or below 5000 it
    is accepted. *)
Theorem timeout_cross_validation (d : Defaults) (settings : Options) :
  let t := o_timeout settings in
  (not_below_socket (server t) t = true -> exists e, resolve d settings = Throw e)
  /\ (not_below_socket (client t) t = true -> exists e, resolve d settings = Throw e)
  /\ (location_ok (o_location settings) = true ->
      (timeout_truthy (server t) = false \/ timeout_truthy (effective_socket t) = false
       \/ timeout_lt (server t) (effective_socket t) = true) ->
      (timeout_truthy (client t) = false \/ timeout_truthy (effective_socket t) = false
       \/ timeout_lt (client t) (effective_socket t) = true) ->
      check_basic settings = Ok tt)
  /\ check_basic (merged (timeout_options (Some (TNumber (of_int 1000))) None
                            (Some (TNumber (of_int 2000)))))
     = Throw (AssertionError "Realm timeout must be shorter than socket timeout")
  /\ check_basic (merged (timeout_options (Some (TNumber (of_int 5000))) None
                            (Some (TNumber (of_int 2000)))))
     = Throw (AssertionError "Client timeout must be shorter than socket timeout")
  /\ check_basic (merged (timeout_options (Some (TNumber (of_int 5000))) (Some TFalse)
                            (Some (TNumber (of_int 2000)))))
     = Ok tt
  /\ check_basic (merged (timeout_options (Some (TNumber (of_int 5000)))
                            (Some (TNumber (of_int 4000)))
                            (Some (TNumber (of_int 2000)))))
     = Ok tt.
Proof.
  intros t. split; [| split; [| split; [| by repeat split]]].
  - intros Hs. apply resolve_check_basic with
      (if negb (location_ok (o_location settings))
       then AssertionError "Location setting must not contain a trailing '/'"
       else AssertionError "Realm timeout must be shorter than socket timeout").
    rewrite check_basic_spec. fold t. rewrite Hs. by destruct (location_ok _).
  - intros Hc.
    destruct (check_basic settings) as [[] | e] eqn:Hcheck;
      [| by eapply resolve_check_basic].
    rewrite check_basic_spec in Hcheck. fold t in Hcheck. rewrite Hc in Hcheck.
    destruct (location_ok _); [| done]. simpl in Hcheck.
    by destruct (not_below_socket (server t) t).
  - intros Hloc Hse Hcl. rewrite check_basic_spec. fold t. rewrite Hloc. simpl.
    assert (Hpass : forall x,
               timeout_truthy x = false \/ timeout_truthy (effective_socket t) = false
               \/ timeout_lt x (effective_socket t) = true ->
               not_below_socket x t = false).
    { intros x Hx. apply negb_true_iff. rewrite <- timeout_assertion.
      destruct Hx as [-> | [-> | ->]]; simpl; by rewrite ?orb_true_r. }
    by rewrite !Hpass.
Qed.

End TimeoutFacts.

(** C4, the counterexample: the options [{ timeout: { socket: 5000, server:
    2000 } }] are not accepted, even by a schema that accepts everything. *)
Lemma timeout_5000_2000_rejected :
  resolve (H := integer_runtime) (H0 := any_schema) defaults
    (merged (timeout_options (Some (TNumber (of_int 5000))) None
               (Some (TNumber (of_int 2000)))))
  = Throw (AssertionError "Client timeout must be shorter than socket timeout").
Proof. reflexivity. Qed.

Lemma timeout_cross_validation_witness :
  let settings := merged (timeout_options (Some (TNumber (of_int 1000))) None
                            (Some (TNumber (of_int 2000)))) in
  not_below_socket (server (o_timeout settings)) (o_timeout settings) = true
  /\ exists e, resolve (H := integer_runtime) (H0 := any_schema) defaults settings
               = Throw e.
Proof.
  intros settings. split; [reflexivity |].
  apply (timeout_cross_validation (H := integer_runtime) (H0 := any_schema)
           defaults settings).
  reflexivity.
Defined.

(** ** CORS origins *)

(** [indexOf('*')] finds a star exactly in the strings that contain one. *)
Lemma prefix_star (c : ascii) (rest : string) :
  String.prefix "*" (String c rest) = Ascii.eqb "*" c.
Proof.
  cbn [String.prefix]. destruct (ascii_dec "*" c) as [<- | Hne].
  - by destruct rest.
  - symmetry. by apply Ascii.eqb_neq.
Qed.

Lemma index_star (s : string) :
  String.index 0 "*" s = None <-> contains "*" s = false.
Proof.
  unfold contains. induction s as [| c rest IH]; [done |].
  cbn [String.index existsb list_ascii_of_string]. rewrite prefix_star.
  destruct (Ascii.eqb "*" c); [done |].
  cbn [orb]. destruct (String.index 0 "*" rest); [| tauto].
  split; [done |]. intros Hc. apply IH in Hc. done.
Qed.

Lemma indexOf_star (s : string) :
  negb (indexOf s "*" =? -1)%Z = contains "*" s.
Proof.
  unfold indexOf. pose proof (index_star s) as Hs.
  destruct (String.index 0 "*" s) as [i |].
  - destruct (contains "*" s); [| by destruct Hs as [_ Hs]; discriminate Hs].
    apply negb_true_iff, Z.eqb_neq. lia.
  - destruct Hs as [Hs _]. by rewrite Hs.
Qed.

(** [origin.indexOf('*')] on the array finds the entry ['*']. *)
Lemma array_indexOf_from_star (a : list string) (i : Z) :
  (0 <= i)%Z ->
  negb (array_indexOf_from i a "*" =? -1)%Z = bool_decide ("*" ∈ a).
Proof.
  revert i. induction a as [| y rest IH]; intros i Hi; simpl; [done |].
  destruct (String.eqb_spec y "*") as [-> | Hne].
  - rewrite bool_decide_eq_true_2 by (by left).
    apply negb_true_iff, Z.eqb_neq. lia.
  - rewrite IH by lia. apply bool_decide_ext.
    rewrite elem_of_cons. split; [by right | intros [Heq | Hin]; [congruence | done]].
Qed.

Lemma array_indexOf_star (a : list string) :
  negb (array_indexOf a "*" =? -1)%Z = bool_decide ("*" ∈ a).
Proof. by apply array_indexOf_from_star. Qed.

(** A pair that does not start a match is stepped over. *)
Lemma replace_pair_skip (a b c : ascii) (rep t : string) :
  (c <> a \/ forall d t', t = String d t' -> d <> b) ->
  replace_pair a b rep (String c t) = String c (replace_pair a b rep t).
Proof.
  intros Hskip. destruct t as [| d t']; [done |].
  cbn [replace_pair].
  destruct (Ascii.eqb_spec c a) as [-> | Hca]; [| done].
  destruct (Ascii.eqb_spec d b) as [-> | Hdb]; [| done].
  destruct Hskip as [Hne | Hne]; [done |]. by destruct (Hne b t').
Qed.

Lemma replace_pair_match (a b : ascii) (rep t : string) :
  replace_pair a b rep (String a (String b t)) = rep +:+ replace_pair a b rep t.
Proof. cbn [replace_pair]. by rewrite !Ascii.eqb_refl. Qed.


Lemma escapeRegex_head (s : string) (d : ascii) (t : string) :
  Hoek.escapeRegex s = String d t -> d = "\"%char \/ Hoek.is_special d = false.
Proof.
  destruct s as [| c rest]; [done |]. cbn [Hoek.escapeRegex].
  destruct (Hoek.is_special c) eqn:Hc; intros [= <- _]; tauto.
Qed.

Lemma star_pass_head (s : string) (d : ascii) (t : string) :
  star_pass s = String d t -> d <> "?"%char.
Proof.
  destruct s as [| c rest]; [done |]. cbn [star_pass].
  destruct (Ascii.eqb c "*"); [by intros [= <- _] |].
  destruct (Hoek.is_special c) eqn:Hc; intros [= <- _]; [done |].
  by intros ->.
Qed.

(** The first replacement, on an escaped string, rewrites the escaped stars
    and nothing else. *)
Lemma replace_star_escaped (s : string) :
  replace_pair "\" "*" ".*" (Hoek.escapeRegex s) = star_pass s.
Proof.
  induction s as [| c rest IH]; [done |].
  cbn [Hoek.escapeRegex star_pass].
  destruct (Hoek.is_special c) eqn:Hc.
  - destruct (Ascii.eqb_spec c "*") as [-> | Hne].
    + by rewrite replace_pair_match, IH.
    + rewrite replace_pair_skip by (right; by intros d t' [= <- _]).
      rewrite replace_pair_skip; [by rewrite IH |].
      right. intros d t' Hd.
      destruct (escapeRegex_head _ _ _ Hd) as [-> | Hd']; [done |]. by intros ->.
  - destruct (Ascii.eqb_spec c "*") as [-> | Hne]; [done |].
    rewrite replace_pair_skip; [by rewrite IH |].
    left. by intros ->.
Qed.

(** The second replacement rewrites the escaped question marks and nothing
    else. *)
Lemma replace_question_star_pass (s : string) :
  replace_pair "\" "?" "." (star_pass s) = glob_pattern s.
Proof.
  induction s as [| c rest IH]; [done |].
  cbn [star_pass glob_pattern].
  destruct (Ascii.eqb_spec c "*") as [-> | Hstar].
  - rewrite replace_pair_skip by (by left).
    rewrite replace_pair_skip by (by left). by rewrite IH.
  - destruct (Ascii.eqb_spec c "?") as [-> | Hq].
    + cbn [Hoek.is_special]. change (Hoek.is_special "?") with true. cbv iota.
      by rewrite replace_pair_match, IH.
    + destruct (Hoek.is_special c) eqn:Hc.
      * rewrite replace_pair_skip by (right; by intros d t' [= <- _]).
        rewrite replace_pair_skip; [by rewrite IH |].
        right. intros d t' Hd. by eapply star_pass_head.
      * rewrite replace_pair_skip; [by rewrite IH |].
        left. by intros ->.
Qed.

(** The pattern built by the two replacements is the pattern of the
    character-by-character translation. *)
Lemma wildcard_source_spec (origin : string) :
  new_RegExp (wildcard_source origin) = compile_wildcard origin.
Proof.
  unfold wildcard_source, compile_wildcard.
  by rewrite replace_star_escaped, replace_question_star_pass.
Qed.

(** The loop sorts the origins: the ones with a star are compiled into
    [wildcards], the others are pushed on [qualified], both in order. *)
Lemma origin_loop_spec (origins : list string) (o : Origin) :
  origin_loop o origins =
  {| any := any o;
     qualified := qualified o ++ filter (fun s => contains "*" s = false) origins;
     qualifiedString := qualifiedString o;
     wildcards := wildcards o
                  ++ (compile_wildcard <$> filter (fun s => contains "*" s = true) origins) |}.
Proof.
  unfold origin_loop. revert o.
  induction origins as [| x rest IH]; intros o.
  - simpl. rewrite !app_nil_r. by destruct o.
  - cbn [foldl]. rewrite IH. unfold origin_step.
    rewrite indexOf_star, wildcard_source_spec.
    rewrite !filter_cons.
    destruct (decide (contains "*" x = false)) as [Hf | Hf];
      destruct (decide (contains "*" x = true)) as [Ht | Ht];
      try congruence; [| | by destruct (contains "*" x)].
    + rewrite Hf. simpl. by rewrite <- app_assoc.
    + rewrite Ht. simpl.
      by rewrite <- app_assoc.
Qed.

Section CorsFacts.
Context `{Runtime} `{Schema}.

(** An error of "Generate CORS headers" is an error of the construction. *)
Lemma resolve_generate_cors (d : Defaults) (settings : Options) (c : Cors) (e : error) :
  Hoek.applyToDefaults Hoek.merge_cors (defaults_cors d) (o_cors settings) = Some c ->
  generate_cors c = Throw e ->
  exists e', resolve d settings = Throw e'.
Proof.
  intros Hc He. unfold resolve.
  destruct (Hoek.assert (Schema_server settings) _); [| by eexists].
  rewrite bind_Ok.
  destruct (check_basic settings); [| by eexists].
  rewrite bind_Ok, Hc, He. by eexists.
Qed.

(** C1 (amended).  For a cors object with a non-empty origin list: the list
    [['*']] gives [any = true]; a list with ['*'] among several entries makes
    the construction throw; otherwise every entry that contains [*] is
    compiled, in list order, into an anchored pattern ([*] to [.*], [?] to
    [.], the other special characters escaped) on [wildcards], every entry
    without a [*] -- with or without a [?] -- is pushed on [qualified],
    [qualifiedString] is [qualified] joined with spaces, and the construction
    throws when [matchOrigin] is false and some entry contains [*]. *)
Theorem cors_origin_classification (c : Cors) :
  origin c <> [] ->
  let stars := filter (fun s => contains "*" s = true) (origin c) in
  let plain := filter (fun s => contains "*" s = false) (origin c) in
  (origin c = ["*"] ->
   exists c', generate_cors c = Ok c'
     /\ _origin c' = Some {| any := true; qualified := [];
                             qualifiedString := EmptyString; wildcards := [] |})
  /\ ("*" ∈ origin c -> origin c <> ["*"] ->
      generate_cors c
      = Throw (AssertionError "Cannot specify cors.origin * together with other values"))
  /\ ("*" ∉ origin c -> matchOrigin c = false -> stars <> [] ->
      generate_cors c
      = Throw (AssertionError
                 "Cannot include wildcard origin values with matchOrigin disabled"))
  /\ ("*" ∉ origin c -> matchOrigin c = true \/ stars = [] ->
      exists c', generate_cors c = Ok c'
        /\ _origin c' = Some {| any := false; qualified := plain;
                                qualifiedString := join plain " ";
                                wildcards := compile_wildcard <$> stars |})
  /\ (forall d settings e,
        Hoek.applyToDefaults Hoek.merge_cors (defaults_cors d) (o_cors settings)
        = Some c ->
        generate_cors c = Throw e ->
        exists e', resolve d settings = Throw e').
Proof.
  intros Hne stars plain.
  assert (Hlift : forall d settings e,
             Hoek.applyToDefaults Hoek.merge_cors (defaults_cors d) (o_cors settings)
             = Some c ->
             generate_cors c = Throw e ->
             exists e', resolve d settings = Throw e').
  { intros d settings e. apply resolve_generate_cors. }
  revert Hlift. generalize resolve. intros res Hlift.
  assert (Hlen : (length (origin c) =? 0)%nat = false).
  { apply Nat.eqb_neq. by destruct (origin c). }
  unfold generate_cors in *. cbn [origin matchOrigin set_cors_derived] in *.
  rewrite Hlen in *.
  cbn [negb] in *. rewrite array_indexOf_star, origin_loop_spec in *.
  cbn [wildcards qualified app] in *. fold stars in Hlift |- *. fold plain in Hlift |- *.
  split; [| split; [| split; [| split]]].
  - intros Hstar. rewrite Hstar. rewrite bool_decide_eq_true_2 by (by left).
    eexists. split; reflexivity.
  - intros Hin Hother. rewrite bool_decide_eq_true_2 by done.
    destruct (origin c) as [| x [| y rest]] eqn:Ho; [done | | done].
    apply list_elem_of_singleton in Hin as <-. done.
  - intros Hnotin Hmatch Hstars. rewrite bool_decide_eq_false_2 by done.
    rewrite Hmatch, length_fmap. by destruct stars.
  - intros Hnotin Hmatch. rewrite bool_decide_eq_false_2 by done.
    assert (Hpass : matchOrigin c || (length (compile_wildcard <$> stars) =? 0)%nat = true).
    { destruct Hmatch as [-> | ->]; [done | by rewrite orb_true_r]. }
    rewrite Hpass. eexists. split; reflexivity.
  - exact Hlift.
Qed.

End CorsFacts.

Lemma cors_origin_classification_witness :
  let c := cors_with ["http://a.com"; "http://*.b.com"] true in
  origin c <> []
  /\ exists c', generate_cors c = Ok c'
       /\ _origin c' = Some {| any := false; qualified := ["http://a.com"];
                               qualifiedString := "http://a.com";
                               wildcards := [new_RegExp "^http\:\/\/.*\.b\.com$"] |}.
Proof.
  intros c.
  assert (Hne : origin c <> []) by done.
  split; [exact Hne |].
  destruct (cors_origin_classification (H := integer_runtime) (H0 := any_schema)
              c Hne) as (_ & _ & _ & Hok & _).
  apply Hok.
  - apply (bool_decide_unpack _). vm_compute. exact I.
  - by left.
Defined.

(** The four origin lists of the specification's examples. *)
Example cors_origin_examples :
  (exists c', generate_cors (cors_with ["*"] true) = Ok c'
     /\ (any <$> _origin c') = Some true)
  /\ generate_cors (cors_with ["*"; "http://a.com"] true)
     = Throw (AssertionError "Cannot specify cors.origin * together with other values")
  /\ (exists c', generate_cors (cors_with ["http://a.com"; "http://*.b.com"] true) = Ok c'
        /\ (qualified <$> _origin c') = Some ["http://a.com"]
        /\ (wildcards <$> _origin c') = Some [new_RegExp "^http\:\/\/.*\.b\.com$"])
  /\ generate_cors (cors_with ["http://a.com"; "http://*.b.com"] false)
     = Throw (AssertionError
                "Cannot include wildcard origin values with matchOrigin disabled").
Proof.
  split; [by eexists | split; [done | split; [| done]]].
  eexists. by split.
Qed.

(** C1, the counterexample: an entry with a [?] and no [*] is not compiled
    into a pattern; it is pushed on [qualified], and it is accepted with
    [matchOrigin] false. *)
Lemma question_mark_origin_is_qualified :
  contains "?" "http://a?.com" = true
  /\ exists c', generate_cors (cors_with ["http://a?.com"] false) = Ok c'
       /\ _origin c' = Some {| any := false; qualified := ["http://a?.com"];
                               qualifiedString := "http://a?.com";
                               wildcards := [] |}.
Proof. split; [reflexivity |]. eexists. split; reflexivity. Qed.

(** ** Security headers *)

Section SecurityFacts.
Context `{Runtime}.

(** C5 (amended).  For a security object: [hsts] false or 0 gives no header,
    [true] gives [max-age=15768000], a number [n] other than 0 gives
    [max-age=n], an object gives [max-age=] followed by its [maxAge] (or
    15768000 when that is absent or 0), with [; includeSubdomains] appended
    exactly when [includeSubdomains] is set; [xframe] false or [''] gives no
    header, [true] gives [DENY], a non-empty string gives that string in upper
    case, an object with the rule [allow-from] gives [SAMEORIGIN] when its
    source is absent or empty and [ALLOW-FROM ] followed by the source
    otherwise, and an object with another rule gives that rule in upper
    case. *)
Theorem security_header_derivation (s : Security) :
  _hsts s = None -> _xframe s = None ->
  (forall source, xframe s <> XframeObject None source) ->
  exists s',
    generate_security s = Ok s'
    /\ (hsts s = HstsBoolean false -> _hsts s' = None)
    /\ (hsts s = HstsBoolean true -> _hsts s' = Some "max-age=15768000")
    /\ (forall n, hsts s = HstsNumber n ->
          _hsts s' = if number_truthy n
                     then Some ("max-age=" +:+ NumberToString n)
                     else None)
    /\ (forall m i, hsts s = HstsObject m i ->
          _hsts s' =
          let v := "max-age=" +:+ NumberToString (number_or m (of_int 15768000)) in
          Some (if bool_decide (i = Some true) then v +:+ "; includeSubdomains" else v))
    /\ (xframe s = XframeBoolean false -> _xframe s' = None)
    /\ (xframe s = XframeBoolean true -> _xframe s' = Some "DENY")
    /\ (forall str, xframe s = XframeString str ->
          _xframe s' = if bool_decide (str = EmptyString) then None
                       else Some (toUpperCase str))
    /\ (forall source, xframe s = XframeObject (Some "allow-from") source ->
          _xframe s' =
          Some (if bool_decide (source = None \/ source = Some EmptyString)
                then "SAMEORIGIN"
                else "ALLOW-FROM " +:+ default EmptyString source))
    /\ (forall r source, r <> "allow-from" ->
          xframe s = XframeObject (Some r) source ->
          _xframe s' = Some (toUpperCase r)).
Proof.
  intros Hh Hx Hrule. unfold generate_security.
  destruct (xframe_header (xframe s)) as [v | e] eqn:Hv.
  2:{ exfalso. unfold xframe_header in Hv.
      destruct (xframe s) as [b | str | [r |] source] eqn:Hxf; try done.
      - case_bool_decide; [by destruct source as [src |]; [destruct (String.eqb _ _) |] | done].
      - by destruct (Hrule source). }
  set (s1 := if hsts_truthy (hsts s) then set__hsts (hsts_header (hsts s)) s else s).
  assert (Hx1 : xframe s1 = xframe s) by (unfold s1; by destruct (hsts_truthy _)).
  assert (Hx1' : _xframe s1 = None) by (unfold s1; by destruct (hsts_truthy _)).
  rewrite Hx1, Hv. rewrite bind_Ok.
  exists (if xframe_truthy (xframe s) then set__xframe v s1 else s1).
  split; [by destruct (xframe_truthy _) |].
  assert (Hh' : _hsts (if xframe_truthy (xframe s) then set__xframe v s1 else s1)
                = _hsts s1) by (by destruct (xframe_truthy _)).
  rewrite Hh'.
  assert (Hxf : _xframe (if xframe_truthy (xframe s) then set__xframe v s1 else s1)
                = if xframe_truthy (xframe s) then Some v else None).
  { by destruct (xframe_truthy _). }
  rewrite Hxf. unfold s1. clear s1 Hx1 Hx1' Hh' Hxf.
  repeat apply conj.
  - by intros ->.
  - by intros ->.
  - intros n ->. simpl. by destruct (number_truthy n).
  - intros m i ->. simpl. by destruct i as [[] |].
  - by intros ->.
  - intros Hb. rewrite Hb in Hv |- *. simpl in *. congruence.
  - intros str Hs. rewrite Hs in Hv |- *. simpl in *.
    destruct (String.eqb_spec str EmptyString) as [-> | Hne]; simpl.
    + done.
    + rewrite bool_decide_eq_false_2 by done. congruence.
  - intros source Hs. rewrite Hs in Hv |- *. cbn [xframe_header xframe_truthy] in *.
    rewrite bool_decide_eq_true_2 in Hv by done.
    destruct source as [src |].
    + destruct (String.eqb src EmptyString) eqn:Heq;
        cbn [negb] in Hv; injection Hv as <-.
      * apply String.eqb_eq in Heq as ->.
        by rewrite bool_decide_eq_true_2 by (by right).
      * apply String.eqb_neq in Heq.
        rewrite bool_decide_eq_false_2; [done |]. intros [? | [= ?]]; done.
    + injection Hv as <-. by rewrite bool_decide_eq_true_2 by (by left).
  - intros r source Hr Hs. rewrite Hs in Hv |- *. cbn [xframe_header xframe_truthy] in *.
    rewrite bool_decide_eq_false_2 in Hv by congruence. congruence.
Qed.

End SecurityFacts.

Lemma security_header_derivation_witness :
  let s := defaults_security defaults in
  _hsts s = None /\ _xframe s = None
  /\ exists s', generate_security (H := integer_runtime) s = Ok s'
       /\ _hsts s' = Some "max-age=15768000"
       /\ _xframe s' = Some "DENY".
Proof.
  intros s. split; [reflexivity |]. split; [reflexivity |].
  destruct (security_header_derivation (H := integer_runtime) s)
    as (s' & Hs' & _ & _ & Hnum & _ & _ & _ & Hstr & _);
    [reflexivity | reflexivity | discriminate |].
  exists s'. split; [exact Hs' |]. split.
  - exact (Hnum (of_int 15768000) eq_refl).
  - exact (Hstr "deny" eq_refl).
Defined.

(** C5, the counterexample: for the number 0 no header is derived, where
    [max-age=0] is expected. *)
Lemma hsts_zero_no_header :
  "max-age=" +:+ NumberToString (Runtime := integer_runtime) (of_int 0) = "max-age=0"
  /\ exists s',
       generate_security (H := integer_runtime)
         (security_with (Some (HstsNumber (of_int 0))) None) = Ok s'
       /\ _hsts s' = None.
Proof. split; [reflexivity |]. eexists. split; reflexivity. Qed.

(** ** The instance of a construction *)

Section RealmFacts.
Context `{Runtime} `{Schema}.

Lemma alloc_lookup (c : cell) (σ : Store) :
  heap (alloc c σ).2 !! (alloc c σ).1 = Some c.
Proof. apply lookup_insert_eq. Qed.

Lemma Realm_Ok_inv (options : value) (σ σ' : Store) (this : loc) :
  Realm options σ = (Ok this, σ') ->
  exists settings,
    merged_settings σ options ≫= resolve (internals_defaults σ) = Ok settings
    /\ this = (alloc (RealmObject settings) σ).1
    /\ σ' = (alloc (RealmObject settings) σ).2.
Proof.
  unfold Realm. intros HRealm.
  destruct (merged_settings σ options ≫= resolve (internals_defaults σ))
    as [settings | e]; [| done].
  injection HRealm as <- <-. by exists settings.
Qed.

End RealmFacts.

(** ** Resolution leaves its input alone *)

Section MemoryFacts.
Import Memory.
Context `{Runtime} `{Schema}.

Lemma run_bind {A B} (m : M A) (k : A -> M B) (σ σ' : gmap loc object) (a : A) :
  m σ = (Ok a, σ') -> (m ≫= k) σ = k a σ'.
Proof. intros Hm. unfold mbind, M_bind. by rewrite Hm. Qed.

Lemma run_bind_Throw {A B} (m : M A) (k : A -> M B) (σ σ' : gmap loc object) (e : error) :
  m σ = (Throw e, σ') -> (m ≫= k) σ = (Throw e, σ').
Proof. intros Hm. unfold mbind, M_bind. by rewrite Hm. Qed.

Lemma fresh_None (σ : gmap loc object) : σ !! fresh (dom σ) = None.
Proof. apply not_elem_of_dom, is_fresh. Qed.

Lemma read_as_run {A} (kind : object -> option A) (l : loc) (σ : gmap loc object)
    (o : object) (a : A) :
  σ !! l = Some o -> kind o = Some a -> read_as kind l σ = (Ok a, σ).
Proof.
  intros Hl Hk. unfold read_as. erewrite run_bind; [| unfold read; by rewrite Hl].
  by rewrite Hk.
Qed.

Lemma this_settings_run (this l : loc) (s : SettingsObject) (σ : gmap loc object) :
  building σ this l s -> this_settings this σ = (Ok (l, s), σ).
Proof.
  intros [Hthis Hl]. unfold this_settings.
  erewrite run_bind; [| unfold read; by rewrite Hthis]. cbv beta iota.
  erewrite run_bind; [done |]. by eapply read_as_run.
Qed.

Lemma building_ne (σ : gmap loc object) (this l : loc) (s : SettingsObject) :
  building σ this l s -> this <> l.
Proof. intros [Hthis Hl] ->. congruence. Qed.

(** A write to the settings object. *)
Lemma building_write (σ : gmap loc object) (this l : loc) (s s' : SettingsObject) :
  building σ this l s -> building (<[l := SettingsOf s']> σ) this l s'.
Proof.
  intros Hb. pose proof (building_ne _ _ _ _ Hb) as Hne. destruct Hb as [Hthis Hl].
  split; [by rewrite lookup_insert_ne | apply lookup_insert_eq].
Qed.

(** A write to another object. *)
Lemma building_other (σ : gmap loc object) (this l c : loc) (s : SettingsObject) (o : object) :
  building σ this l s -> c <> this -> c <> l -> building (<[c := o]> σ) this l s.
Proof.
  intros [Hthis Hl] ? ?. split; by rewrite lookup_insert_ne.
Qed.

Lemma assert_schema_run (σ : gmap loc object) (this l : loc) (s : SettingsObject) (st : Options) :
  building σ this l s -> as_options s = Some st ->
  assert_schema this σ
  = (Hoek.assert (Schema_server st) "Invalid server options", σ).
Proof.
  intros Hb Hs. unfold assert_schema.
  erewrite run_bind; [| by apply this_settings_run]. cbv beta iota. by rewrite Hs.
Qed.

Lemma assign_labels_run (σ : gmap loc object) (this l : loc) (s : SettingsObject) :
  building σ this l s ->
  assign_labels this σ
  = (Ok tt,
     <[l := SettingsOf
              (set_labels (LabelArray (Hoek.unique (concat_labels (labels s)))) s)]> σ).
Proof.
  intros Hb. unfold assign_labels.
  by erewrite run_bind; [| by apply this_settings_run].
Qed.

Lemma assert_basic_run (σ : gmap loc object) (this l : loc) (s : SettingsObject) (st : Options) :
  building σ this l s -> as_options s = Some st ->
  assert_basic this σ = (check_basic st, σ).
Proof.
  intros Hb Hs. unfold assert_basic.
  erewrite run_bind; [| by apply this_settings_run]. cbv beta iota. by rewrite Hs.
Qed.

(** The object [Hoek.applyToDefaults] returns is new. *)
Lemma Hoek_applyToDefaults_run {A R} (kind : object -> option A)
    (make : A -> object) (merge : A -> R -> A) (defaults : loc)
    (options : toggle R) (σ : gmap loc object) (o : object) (d : A) :
  σ !! defaults = Some o -> kind o = Some d ->
  Hoek_applyToDefaults kind make merge defaults options σ
  = match Hoek.applyToDefaults merge d options with
    | Some v => (Ok (Some (fresh (dom σ))), <[fresh (dom σ) := make v]> σ)
    | None => (Ok None, σ)
    end.
Proof.
  intros Hd Hk. unfold Hoek_applyToDefaults, Hoek.applyToDefaults.
  destruct options as [| | given]; [done | |];
    by (erewrite run_bind; [| by eapply read_as_run]).
Qed.

Lemma assign_cors_run (σ : gmap loc object) (this l defaults : loc) (s : SettingsObject)
    (t : toggle Raw.Cors) (d : Cors) :
  building σ this l s -> cors s = Configured t ->
  σ !! defaults = Some (CorsObject d) ->
  assign_cors this defaults σ
  = match Hoek.applyToDefaults Hoek.merge_cors d t with
    | Some v =>
        (Ok tt, <[l := SettingsOf (set_cors (Resolved (Some (fresh (dom σ)))) s)]>
                  (<[fresh (dom σ) := CorsObject v]> σ))
    | None => (Ok tt, <[l := SettingsOf (set_cors (Resolved None) s)]> σ)
    end.
Proof.
  intros Hb Hc Hd. unfold assign_cors.
  erewrite run_bind; [| by apply this_settings_run]. cbv beta iota. rewrite Hc.
  erewrite run_bind; [| done]. cbv beta iota.
  unfold mbind at 1, M_bind.
  erewrite Hoek_applyToDefaults_run by done.
  by destruct (Hoek.applyToDefaults Hoek.merge_cors d t).
Qed.

Lemma assign_security_run (σ : gmap loc object) (this l defaults : loc) (s : SettingsObject)
    (t : toggle Raw.Security) (d : Security) :
  building σ this l s -> security s = Configured t ->
  σ !! defaults = Some (SecurityObject d) ->
  assign_security this defaults σ
  = match Hoek.applyToDefaults Hoek.merge_security d t with
    | Some v =>
        (Ok tt, <[l := SettingsOf (set_security (Resolved (Some (fresh (dom σ)))) s)]>
                  (<[fresh (dom σ) := SecurityObject v]> σ))
    | None => (Ok tt, <[l := SettingsOf (set_security (Resolved None) s)]> σ)
    end.
Proof.
  intros Hb Hc Hd. unfold assign_security.
  erewrite run_bind; [| by apply this_settings_run]. cbv beta iota. rewrite Hc.
  erewrite run_bind; [| done]. cbv beta iota.
  unfold mbind at 1, M_bind.
  erewrite Hoek_applyToDefaults_run by done.
  by destruct (Hoek.applyToDefaults Hoek.merge_security d t).
Qed.

Lemma assign_cors_headers_run (σ : gmap loc object) (this l : loc) (s : SettingsObject)
    (c : option loc) :
  building σ this l s -> cors s = Resolved c ->
  assign_cors_headers this σ
  = match c with
    | Some c =>
        match σ !! c with
        | Some (CorsObject v) =>
            match generate_cors v with
            | Ok v' => (Ok tt, <[c := CorsObject v']> σ)
            | Throw e => (Throw e, σ)
            end
        | _ => (Throw (TypeError "Cannot read property of undefined"), σ)
        end
    | None => (Ok tt, σ)
    end.
Proof.
  intros Hb Hc. unfold assign_cors_headers.
  erewrite run_bind; [| by apply this_settings_run]. cbv beta iota. rewrite Hc.
  erewrite run_bind; [| done]. cbv beta iota.
  destruct c as [c |]; [| done].
  unfold read_as, read. unfold mbind, M_bind, lift.
  by destruct (σ !! c) as [[] |].
Qed.

Lemma assign_security_headers_run (σ : gmap loc object) (this l : loc) (s : SettingsObject)
    (x : option loc) :
  building σ this l s -> security s = Resolved x ->
  assign_security_headers this σ
  = match x with
    | Some x =>
        match σ !! x with
        | Some (SecurityObject v) =>
            match generate_security v with
            | Ok v' => (Ok tt, <[x := SecurityObject v']> σ)
            | Throw e => (Throw e, σ)
            end
        | _ => (Throw (TypeError "Cannot read property of undefined"), σ)
        end
    | None => (Ok tt, σ)
    end.
Proof.
  intros Hb Hc. unfold assign_security_headers.
  erewrite run_bind; [| by apply this_settings_run]. cbv beta iota. rewrite Hc.
  erewrite run_bind; [| done]. cbv beta iota.
  destruct x as [x |]; [| done].
  unfold read_as, read. unfold mbind, M_bind, lift.
  by destruct (σ !! x) as [[] |].
Qed.

Lemma assign_cacheControlStatus_run (σ : gmap loc object) (this l : loc) (s : SettingsObject) :
  building σ this l s ->
  assign_cacheControlStatus this σ
  = (Ok tt,
     <[l := SettingsOf
              (set__cacheControlStatus (Hoek.mapToObject (cacheControlStatus s)) s)]> σ).
Proof.
  intros Hb. unfold assign_cacheControlStatus.
  by erewrite run_bind; [| by apply this_settings_run].
Qed.

Lemma settings_at_intro (σ : gmap loc object) (this l : loc) (s : SettingsObject)
    (a : list string) (c x : option loc) (m : gmap Z bool)
    (cv : option Cors) (xv : option Security) :
  building σ this l s ->
  labels s = LabelArray a -> cors s = Resolved c -> security s = Resolved x ->
  _cacheControlStatus s = Some m ->
  referred cors_object σ c = Some cv ->
  referred security_object σ x = Some xv ->
  settings_at σ this
  = Some (Build_Settings (tls s) (location s) (cacheControlStatus s) (timeout s)
            a cv xv m).
Proof.
  intros [Hthis Hl] Ha Hc Hx Hm Hcv Hxv. unfold settings_at.
  rewrite Hthis, Hl. cbn. by rewrite Ha, Hc, Hx, Hm, Hcv, Hxv.
Qed.

Lemma referred_Some {A} (kind : object -> option A) (σ : gmap loc object)
    (l : loc) (o : object) (a : A) :
  σ !! l = Some o -> kind o = Some a -> referred kind σ (Some l) = Some (Some a).
Proof. intros Hl Hk. unfold referred. rewrite Hl. cbn. by rewrite Hk. Qed.

Lemma as_options_inv (s : SettingsObject) (st : Options) :
  as_options s = Some st ->
  cors s = Configured (o_cors st) /\ security s = Configured (o_security st)
  /\ _cacheControlStatus s = None
  /\ tls s = o_tls st /\ location s = o_location st
  /\ cacheControlStatus s = o_cacheControlStatus st
  /\ timeout s = o_timeout st /\ labels s = o_labels st.
Proof.
  unfold as_options.
  destruct (cors s), (security s), (_cacheControlStatus s); try done.
  by intros [= <-].
Qed.

(** The statements of the constructor after the first, from a memory [σ]
    that has grown from [σ0] and in which the instance and its settings
    object are new. *)
Lemma Realm_statements (σ0 σ : gmap loc object) (this l cors_defaults security_defaults : loc)
    (s0 : SettingsObject) (st : Options) (d : Defaults) :
  σ0 ⊆ σ -> σ0 !! this = None -> σ0 !! l = None ->
  building σ this l s0 -> as_options s0 = Some st ->
  σ0 !! cors_defaults = Some (CorsObject (defaults_cors d)) ->
  σ0 !! security_defaults = Some (SecurityObject (defaults_security d)) ->
  exists r σ',
    (assert_schema this;;
     assign_labels this;;
     assert_basic this;;
     assign_cors this cors_defaults;;
     assign_cors_headers this;;
     assign_security this security_defaults;;
     assign_security_headers this;;
     assign_cacheControlStatus this;;
     mret this) σ = (r, σ')
    /\ σ0 ⊆ σ'
    /\ match resolve d st with
       | Ok s => r = Ok this /\ settings_at σ' this = Some s
       | Throw _ => exists e, r = Throw e
       end.
Proof.
  intros Hsub Hthis0 Hl0 Hb Hst Hcd Hxd.
  pose proof (building_ne _ _ _ _ Hb) as Hne.
  destruct (as_options_inv _ _ Hst)
    as (Hcors & Hsecurity & Hccs & Htls & Hlocation & Hcodes & Htimeout & Hlabels).
  unfold resolve.
  (* Schema.assert *)
  unfold mbind at 1, M_bind. rewrite (assert_schema_run σ this l s0 st) by done.
  destruct (Schema_server st); cbn [Hoek.assert];
    [| eexists _, _; split; [done |]; split; [done | by eexists]].
  rewrite bind_Ok.
  (* labels *)
  erewrite run_bind by (by eapply assign_labels_run).
  set (s1 := set_labels (LabelArray (Hoek.unique (concat_labels (labels s0)))) s0).
  set (σ1 := <[l := SettingsOf s1]> σ).
  assert (Hb1 : building σ1 this l s1) by (by eapply building_write).
  assert (Hsub1 : σ0 ⊆ σ1) by (by apply insert_subseteq_r).
  (* the assertions *)
  assert (Hst1 : exists st1, as_options s1 = Some st1 /\ check_basic st1 = check_basic st).
  { unfold as_options, s1. cbn. rewrite Hcors, Hsecurity, Hccs. eexists. split; [done |].
    unfold check_basic. cbn. by rewrite Hlocation, Htimeout. }
  destruct Hst1 as (st1 & Hst1 & Hbasic).
  unfold mbind at 1, M_bind. rewrite (assert_basic_run σ1 this l s1 st1) by done.
  rewrite Hbasic.
  destruct (check_basic st) as [[] | e];
    [| eexists _, _; split; [done |]; split; [done | by eexists]].
  rewrite bind_Ok.
  (* cors *)
  unfold mbind at 1, M_bind.
  rewrite (assign_cors_run σ1 this l cors_defaults s1 (o_cors st) (defaults_cors d));
    [| done | done | by eapply lookup_weaken].
  assert (Hcors_done :
    exists σ2 s2 c,
      match Hoek.applyToDefaults Hoek.merge_cors (defaults_cors d) (o_cors st) with
      | Some v =>
          (Ok tt, <[l := SettingsOf (set_cors (Resolved (Some (fresh (dom σ1)))) s1)]>
                    (<[fresh (dom σ1) := CorsObject v]> σ1))
      | None => (Ok tt, <[l := SettingsOf (set_cors (Resolved None) s1)]> σ1)
      end = (Ok tt, σ2)
      /\ σ0 ⊆ σ2 /\ building σ2 this l s2
      /\ s2 = set_cors (Resolved c) s1
      /\ match c, Hoek.applyToDefaults Hoek.merge_cors (defaults_cors d) (o_cors st) with
         | Some c, Some v => σ0 !! c = None /\ σ2 !! c = Some (CorsObject v)
                             /\ c <> this /\ c <> l
         | None, None => True
         | _, _ => False
         end).
  { destruct (Hoek.applyToDefaults Hoek.merge_cors (defaults_cors d) (o_cors st)) as [v |].
    - pose proof (fresh_None σ1) as Hfresh.
      set (c := fresh (dom σ1)) in *.
      assert (Hc0 : σ0 !! c = None) by (by eapply lookup_weaken_None).
      assert (Hcthis : c <> this) by (intros ->; destruct Hb1; congruence).
      assert (Hcl : c <> l) by (intros ->; destruct Hb1; congruence).
      eexists _, _, (Some c). split; [done |]. split_and!.
      + by repeat (apply insert_subseteq_r; [done |]).
      + eapply building_write. by apply building_other.
      + done.
      + done.
      + by rewrite lookup_insert_ne, lookup_insert_eq.
      + done.
      + done.
    - eexists _, _, None. split; [done |]. split_and!; try done.
      + by apply insert_subseteq_r.
      + by eapply building_write. }
  destruct Hcors_done as (σ2 & s2 & c & -> & Hsub2 & Hb2 & Hs2 & Hc).
  (* the headers of cors *)
  unfold mbind at 1, M_bind.
  rewrite (assign_cors_headers_run σ2 this l s2 c) by (by subst s2).
  assert (Hheaders :
    exists r3 σ3,
      match c with
      | Some c =>
          match σ2 !! c with
          | Some (CorsObject v) =>
              match generate_cors v with
              | Ok v' => (Ok tt, <[c := CorsObject v']> σ2)
              | Throw e => (Throw e, σ2)
              end
          | _ => (Throw (TypeError "Cannot read property of undefined"), σ2)
          end
      | None => (Ok tt, σ2)
      end = (r3, σ3)
      /\ σ0 ⊆ σ3
      /\ match
           match Hoek.applyToDefaults Hoek.merge_cors (defaults_cors d) (o_cors st) with
           | Some v => c' ← generate_cors v; Ok (Some c')
           | None => Ok None
           end
         with
         | Ok cv =>
             r3 = Ok tt /\ building σ3 this l s2
             /\ match c, cv with
                | Some c, Some v => σ0 !! c = None /\ σ3 !! c = Some (CorsObject v)
                                    /\ c <> this /\ c <> l
                | None, None => True
                | _, _ => False
                end
         | Throw _ => exists e, r3 = Throw e
         end).
  { destruct c as [c |],
      (Hoek.applyToDefaults Hoek.merge_cors (defaults_cors d) (o_cors st)) as [v |];
      try done.
    - destruct Hc as (Hc0 & Hc2 & Hcthis & Hcl). rewrite Hc2.
      destruct (generate_cors v) as [v' | e].
      + eexists _, _. split; [done |]. split; [by apply insert_subseteq_r |].
        rewrite bind_Ok. split_and!; try done.
        * by apply building_other.
        * apply lookup_insert_eq.
      + eexists _, _. split; [done |]. split; [done |].
        rewrite bind_Throw. by eexists.
    - eexists _, _. split; [done |]. by split. }
  destruct Hheaders as (r3 & σ3 & -> & Hsub3 & Hcv).
  destruct (match Hoek.applyToDefaults Hoek.merge_cors (defaults_cors d) (o_cors st) with
            | Some v => c' ← generate_cors v; Ok (Some c')
            | None => Ok None
            end) as [cv | e];
    [| destruct Hcv as [e' ->]; eexists _, _; split; [done |]; split; [done | by eexists]].
  destruct Hcv as (-> & Hb3 & Hcv). rewrite bind_Ok.
  (* security *)
  assert (Hsec2 : security s2 = Configured (o_security st)) by (by subst s2).
  unfold mbind at 1, M_bind.
  rewrite (assign_security_run σ3 this l security_defaults s2 (o_security st)
             (defaults_security d));
    [| done | done | by eapply lookup_weaken].
  assert (Hsecurity_done :
    exists σ4 s4 x,
      match Hoek.applyToDefaults Hoek.merge_security (defaults_security d)
              (o_security st) with
      | Some v =>
          (Ok tt, <[l := SettingsOf (set_security (Resolved (Some (fresh (dom σ3)))) s2)]>
                    (<[fresh (dom σ3) := SecurityObject v]> σ3))
      | None => (Ok tt, <[l := SettingsOf (set_security (Resolved None) s2)]> σ3)
      end = (Ok tt, σ4)
      /\ σ0 ⊆ σ4 /\ building σ4 this l s4
      /\ s4 = set_security (Resolved x) s2
      /\ match c, cv with
         | Some c, Some v => σ4 !! c = Some (CorsObject v) /\ (forall x', x = Some x' -> x' <> c)
         | None, None => True
         | _, _ => False
         end
      /\ match x, Hoek.applyToDefaults Hoek.merge_security (defaults_security d)
                    (o_security st) with
         | Some x, Some v => σ0 !! x = None /\ σ4 !! x = Some (SecurityObject v)
                             /\ x <> this /\ x <> l
         | None, None => True
         | _, _ => False
         end).
  { destruct (Hoek.applyToDefaults Hoek.merge_security (defaults_security d)
                (o_security st)) as [v |].
    - pose proof (fresh_None σ3) as Hfresh.
      set (x := fresh (dom σ3)) in *.
      assert (Hx0 : σ0 !! x = None) by (by eapply lookup_weaken_None).
      assert (Hxthis : x <> this) by (intros ->; destruct Hb3; congruence).
      assert (Hxl : x <> l) by (intros ->; destruct Hb3; congruence).
      eexists _, _, (Some x). split; [done |]. split_and!.
      + by repeat (apply insert_subseteq_r; [done |]).
      + eapply building_write. by apply building_other.
      + done.
      + destruct c as [c |], cv as [cv |]; try done.
        destruct Hcv as (_ & Hc3 & _ & Hcl).
        split.
        * rewrite lookup_insert_ne by done. rewrite lookup_insert_ne; [done |].
          intros ->. congruence.
        * intros x' [= <-] ->. congruence.
      + done.
      + by rewrite lookup_insert_ne, lookup_insert_eq.
      + done.
      + done.
    - eexists _, _, None. split; [done |]. split_and!; try done.
      + by apply insert_subseteq_r.
      + by eapply building_write.
      + destruct c as [c |], cv as [cv |]; try done.
        destruct Hcv as (_ & Hc3 & _ & Hcl).
        split; [by rewrite lookup_insert_ne | done]. }
  destruct Hsecurity_done as (σ4 & s4 & x & -> & Hsub4 & Hb4 & Hs4 & Hc4 & Hx).
  (* the headers of security *)
  unfold mbind at 1, M_bind.
  rewrite (assign_security_headers_run σ4 this l s4 x) by (by subst s4).
  destruct x as [x |],
    (Hoek.applyToDefaults Hoek.merge_security (defaults_security d) (o_security st))
    as [v |]; try done.
  - destruct Hx as (Hx0 & Hx4 & Hxthis & Hxl). rewrite Hx4.
    destruct (generate_security v) as [v' | e];
      [| rewrite bind_Throw; eexists _, _; split; [done |]; split; [done | by eexists]].
    rewrite bind_Ok.
    set (σ5 := <[x := SecurityObject v']> σ4).
    assert (Hb5 : building σ5 this l s4) by (by apply building_other).
    erewrite run_bind by (by eapply assign_cacheControlStatus_run).
    eexists _, _. split; [done |]. split; [by repeat (apply insert_subseteq_r; [done |]) |].
    split; [done |].
    set (s5 := set__cacheControlStatus (Hoek.mapToObject (cacheControlStatus s4)) s4).
    assert (Hb_final : building (<[l := SettingsOf s5]> σ5) this l s5)
      by (by eapply building_write).
    assert (Hx_final : referred security_object (<[l := SettingsOf s5]> σ5) (Some x)
                       = Some (Some v')).
    { eapply referred_Some;
        [rewrite lookup_insert_ne by done; apply lookup_insert_eq | done]. }
    assert (Hc_final : referred cors_object (<[l := SettingsOf s5]> σ5) c = Some cv).
    { destruct c as [c |], cv as [cv |]; try done.
      destruct Hc4 as [Hc4 Hxc]. destruct Hcv as (_ & _ & _ & Hcl).
      assert (Hxc' : x <> c) by (by apply Hxc).
      eapply referred_Some;
        [rewrite (lookup_insert_ne _ l c) by done; unfold σ5;
         rewrite (lookup_insert_ne _ x c) by done; exact Hc4
        | done]. }
    erewrite settings_at_intro; [| exact Hb_final | by subst s5 s4 s2 s1 ..].
    subst s5 s4 s2 s1. cbn.
    by rewrite Htls, Hlocation, Hcodes, Htimeout, Hlabels.
  - rewrite bind_Ok.
    erewrite run_bind by (by eapply assign_cacheControlStatus_run).
    eexists _, _. split; [done |]. split; [by apply insert_subseteq_r |].
    split; [done |].
    set (s5 := set__cacheControlStatus (Hoek.mapToObject (cacheControlStatus s4)) s4).
    assert (Hb_final : building (<[l := SettingsOf s5]> σ4) this l s5)
      by (by eapply building_write).
    assert (Hc_final : referred cors_object (<[l := SettingsOf s5]> σ4) c = Some cv).
    { destruct c as [c |], cv as [cv |]; try done.
      destruct Hc4 as [Hc4 Hxc]. destruct Hcv as (_ & _ & _ & Hcl).
      eapply referred_Some;
        [rewrite (lookup_insert_ne _ l c) by done; exact Hc4 | done]. }
    erewrite settings_at_intro; [| exact Hb_final | by subst s5 s4 s2 s1 ..].
    subst s5 s4 s2 s1. cbn.
    by rewrite Htls, Hlocation, Hcodes, Htimeout, Hlabels.
Qed.

Lemma as_options_of_options (o : Options) (app plugins : value) :
  as_options (of_options o app plugins) = Some o.
Proof. by destruct o. Qed.

Lemma table_at_inv (σ : gmap loc object) (internals_defaults : loc) (d : Defaults) :
  table_at σ internals_defaults = Some d ->
  exists server cors security s,
    σ !! internals_defaults = Some (DefaultsTable server cors security)
    /\ σ !! server = Some (SettingsOf s)
    /\ as_options s = Some (defaults_server d)
    /\ σ !! cors = Some (CorsObject (defaults_cors d))
    /\ σ !! security = Some (SecurityObject (defaults_security d)).
Proof.
  unfold table_at.
  destruct (σ !! internals_defaults) as [[server cors security | | | | |] |]; try done.
  destruct (σ !! server) as [[| | s | | |] |] eqn:Hserver; try done.
  destruct (σ !! cors) as [[| | | c | |] |] eqn:Hcors; try done.
  destruct (σ !! security) as [[| | | | x |] |] eqn:Hsecurity; try done.
  destruct (as_options s) as [o |] eqn:Ho; [| done]. cbn. intros [= <-].
  by eexists server, cors, security, s.
Qed.

(** The first statement of the constructor: the settings object it makes is
    new, and holds the merged settings. *)
Lemma assign_settings_run (σ : gmap loc object) (this server : loc) (options : value)
    (ds : SettingsObject) (dflt : Options) :
  σ !! this = None ->
  σ !! server = Some (SettingsOf ds) -> as_options ds = Some dflt ->
  exists r σ',
    assign_settings this server options (<[this := RealmInstance None]> σ) = (r, σ')
    /\ σ ⊆ σ'
    /\ match merged_settings σ dflt options with
       | Ok st =>
           r = Ok tt
           /\ exists l s0, σ !! l = None /\ building σ' this l s0
                           /\ as_options s0 = Some st
       | Throw _ => exists e, r = Throw e
       end.
Proof.
  intros Hthis Hserver Hdflt.
  set (σ1 := <[this := RealmInstance None]> σ).
  assert (Hsub1 : σ ⊆ σ1) by (by apply insert_subseteq).
  assert (Hserver_this : server <> this) by (intros ->; congruence).
  assert (Hserver1 : σ1 !! server = Some (SettingsOf ds))
    by (by eapply lookup_weaken).
  (* the settings object made for an options object *)
  assert (Hmake : forall (σ2 : gmap loc object) (s0 : SettingsObject),
             σ1 ⊆ σ2 ->
             σ ⊆ <[this := RealmInstance (Some (fresh (dom σ2)))]>
                   (<[fresh (dom σ2) := SettingsOf s0]> σ2)
             /\ σ !! fresh (dom σ2) = None
             /\ building (<[this := RealmInstance (Some (fresh (dom σ2)))]>
                            (<[fresh (dom σ2) := SettingsOf s0]> σ2))
                  this (fresh (dom σ2)) s0).
  { intros σ2 s0 Hsub2. pose proof (fresh_None σ2) as Hfresh.
    set (l := fresh (dom σ2)) in *.
    assert (Hl1 : σ1 !! l = None) by (by eapply lookup_weaken_None).
    apply lookup_insert_None in Hl1 as [Hl0 Hne].
    split_and!; [| done |].
    - apply insert_subseteq_r; [done |]. apply insert_subseteq_r; [done |].
      by etrans.
    - split; [apply lookup_insert_eq |].
      rewrite lookup_insert_ne by done. apply lookup_insert_eq. }
  unfold assign_settings, merged_settings.
  destruct (truthy options) eqn:Htruthy; cbn [negb].
  - (* the options the caller gave *)
    erewrite run_bind by done.
    unfold Hoek_applyToDefaultsWithShallow. rewrite Htruthy. cbn [negb].
    destruct options as [| | b | n | str | o | f | o]; try done.
    + (* true: a copy of the defaults *)
      erewrite run_bind;
        [| erewrite run_bind by (by eapply read_as_run); by erewrite run_bind].
      destruct (Hmake σ1 ds) as (Hsub & Hl0 & Hb); [done |].
      eexists _, _. split; [done |]. split; [done |]. split; [done |].
      by eexists _, _.
    + eexists _, _. split; [by erewrite run_bind_Throw |]. split; [done | by eexists].
    + eexists _, _. split; [by erewrite run_bind_Throw |]. split; [done | by eexists].
    + (* an object *)
      destruct (decide (o = this)) as [-> | Ho].
      { rewrite Hthis. eexists _, _. split; [| split; [exact Hsub1 | by eexists]].
        erewrite run_bind_Throw; [done |].
        erewrite run_bind by (by eapply read_as_run).
        erewrite run_bind; [| unfold read, σ1; by rewrite lookup_insert_eq].
        done. }
      assert (Ho1 : σ1 !! o = σ !! o) by (unfold σ1; by rewrite lookup_insert_ne).
      destruct (σ !! o) as [[| given given_app given_plugins | | | |] |] eqn:Hgiven;
        try (eexists _, _; split; [| split; [exact Hsub1 | by eexists]];
             erewrite run_bind_Throw; [done |];
             erewrite run_bind by (by eapply read_as_run);
             unfold mbind, M_bind, read; rewrite Ho1; by rewrite ?Hdflt).
      erewrite run_bind;
        [| erewrite run_bind by (by eapply read_as_run);
           erewrite run_bind by (unfold read; by rewrite Ho1);
           cbv beta iota; rewrite Hdflt; by erewrite run_bind].
      edestruct (Hmake σ1) as (Hsub & Hl0 & Hb); [done |].
      eexists _, _. split; [done |]. split; [exact Hsub |]. split; [done |].
      eexists _, _. split; [exact Hl0 |]. split; [exact Hb |].
      apply as_options_of_options.
    + eexists _, _. split; [by erewrite run_bind_Throw |]. split; [done | by eexists].
    + (* a pack *)
      destruct (decide (o = this)) as [-> | Ho].
      { rewrite Hthis. eexists _, _. split; [| split; [exact Hsub1 | by eexists]].
        erewrite run_bind_Throw; [done |].
        erewrite run_bind by (by eapply read_as_run).
        erewrite run_bind; [| unfold read, σ1; by rewrite lookup_insert_eq].
        done. }
      assert (Ho1 : σ1 !! o = σ !! o) by (unfold σ1; by rewrite lookup_insert_ne).
      destruct (σ !! o) as [[| given given_app given_plugins | | | |] |] eqn:Hgiven;
        try (eexists _, _; split; [| split; [exact Hsub1 | by eexists]];
             erewrite run_bind_Throw; [done |];
             erewrite run_bind by (by eapply read_as_run);
             unfold mbind, M_bind, read; rewrite Ho1; by rewrite ?Hdflt).
      erewrite run_bind;
        [| erewrite run_bind by (by eapply read_as_run);
           erewrite run_bind by (unfold read; by rewrite Ho1);
           cbv beta iota; rewrite Hdflt; by erewrite run_bind].
      edestruct (Hmake σ1) as (Hsub & Hl0 & Hb); [done |].
      eexists _, _. split; [done |]. split; [exact Hsub |]. split; [done |].
      eexists _, _. split; [exact Hl0 |]. split; [exact Hb |].
      apply as_options_of_options.
  - (* no options: a new empty object *)
    pose proof (fresh_None σ1) as Hempty.
    set (empty := fresh (dom σ1)) in *.
    set (σ2 := <[empty := OptionsObject Raw.empty VUndefined VUndefined]> σ1).
    assert (Hsub2 : σ1 ⊆ σ2) by (by apply insert_subseteq).
    erewrite run_bind; [| by erewrite run_bind].
    fold empty σ2.
    unfold Hoek_applyToDefaultsWithShallow. cbn [truthy negb].
    erewrite run_bind;
      [| erewrite run_bind by (eapply read_as_run; [by eapply lookup_weaken | done]);
         erewrite run_bind by (unfold read, σ2; by rewrite lookup_insert_eq);
         cbv beta iota; rewrite Hdflt; by erewrite run_bind].
    edestruct (Hmake σ2) as (Hsub & Hl0 & Hb); [done |].
    eexists _, _. split; [done |]. split; [exact Hsub |]. split; [done |].
    eexists _, _. split; [exact Hl0 |]. split; [exact Hb |].
    apply as_options_of_options.
Qed.

(** The constructor, run in a memory that holds the table of defaults [d]:
    it leaves every object of the memory as it is, and it returns when, and
    only when, the settings resolve, with a new instance that holds the
    resolved settings. *)
Lemma Realm_run (internals_defaults : loc) (options : value) (σ : gmap loc object)
    (d : Defaults) :
  table_at σ internals_defaults = Some d ->
  exists r σ',
    Realm internals_defaults options σ = (r, σ')
    /\ σ ⊆ σ'
    /\ match merged_settings σ (defaults_server d) options ≫= resolve d with
       | Ok s => exists this, r = Ok this /\ σ !! this = None
                              /\ settings_at σ' this = Some s
       | Throw _ => exists e, r = Throw e
       end.
Proof.
  intros (server & cors & security & ds & Htable & Hserver & Hdflt & Hcors & Hsecurity)
           %table_at_inv.
  pose proof (fresh_None σ) as Hthis.
  unfold Realm. erewrite run_bind by done.
  set (this := fresh (dom σ)) in *.
  assert (Hne : this <> internals_defaults) by (intros Heq; congruence).
  erewrite run_bind;
    [| eapply read_as_run; [rewrite lookup_insert_ne by done; exact Htable | done]].
  cbv beta iota.
  destruct (assign_settings_run σ this server options ds (defaults_server d))
    as (r1 & σ1 & Hrun1 & Hsub1 & Hmerged); [done .. |].
  destruct (merged_settings σ (defaults_server d) options) as [st | e].
  - destruct Hmerged as (-> & l & s0 & Hl0 & Hb & Hst).
    erewrite run_bind by exact Hrun1. rewrite bind_Ok.
    destruct (Realm_statements σ σ1 this l cors security s0 st d)
      as (r & σ' & Hrun & Hsub & Hresolve); [done .. |].
    exists r, σ'. split; [exact Hrun |]. split; [done |].
    destruct (resolve d st) as [s | e]; [| done].
    exists this. by destruct Hresolve.
  - destruct Hmerged as [e' ->]. rewrite bind_Throw.
    eexists _, _. split; [by erewrite run_bind_Throw |]. split; [done | by eexists].
Qed.

(** What is read in a memory is read as well in a memory that has more
    objects. *)
Lemma table_at_weaken (σ σ' : gmap loc object) (internals_defaults : loc) (d : Defaults) :
  σ ⊆ σ' -> table_at σ internals_defaults = Some d ->
  table_at σ' internals_defaults = Some d.
Proof.
  intros Hsub (server & cors & security & ds & Htable & Hserver & Hdflt & Hcors & Hsecurity)
                %table_at_inv.
  unfold table_at.
  rewrite (lookup_weaken _ _ _ _ Htable Hsub), (lookup_weaken _ _ _ _ Hserver Hsub),
    (lookup_weaken _ _ _ _ Hcors Hsub), (lookup_weaken _ _ _ _ Hsecurity Hsub), Hdflt.
  by destruct d.
Qed.

Lemma merged_settings_weaken (σ σ' : gmap loc object) (dflt st : Options) (options : value) :
  σ ⊆ σ' -> merged_settings σ dflt options = Ok st ->
  merged_settings σ' dflt options = Ok st.
Proof.
  intros Hsub. unfold merged_settings.
  destruct (negb (truthy options)); [done |].
  destruct options as [| | b | n | str | o | f | o]; try done.
  all: destruct (σ !! o) as [given |] eqn:Hgiven; [| done];
    by rewrite (lookup_weaken _ _ _ _ Hgiven Hsub).
Qed.

Lemma referred_weaken {A} (kind : object -> option A) (σ σ' : gmap loc object)
    (r : option loc) (a : option A) :
  σ ⊆ σ' -> referred kind σ r = Some a -> referred kind σ' r = Some a.
Proof.
  intros Hsub. destruct r as [l |]; [| done]. unfold referred.
  destruct (σ !! l) as [o |] eqn:Hl; [| done].
  by rewrite (lookup_weaken _ _ _ _ Hl Hsub).
Qed.

Lemma settings_at_weaken (σ σ' : gmap loc object) (this : loc) (settings : Settings) :
  σ ⊆ σ' -> settings_at σ this = Some settings -> settings_at σ' this = Some settings.
Proof.
  intros Hsub. unfold settings_at.
  destruct (σ !! this) as [[| | | | | [l |]] |] eqn:Hthis; try done.
  rewrite (lookup_weaken _ _ _ _ Hthis Hsub).
  destruct (σ !! l) as [o |] eqn:Hl; [| done].
  rewrite (lookup_weaken _ _ _ _ Hl Hsub). cbn.
  destruct (settings_object o) as [s |]; [| done]. cbn.
  destruct (labels s), (cors s) as [| c], (security s) as [| x],
    (_cacheControlStatus s); try done.
  destruct (referred cors_object σ c) as [cv |] eqn:Hc; [| done].
  rewrite (referred_weaken _ _ _ _ _ Hsub Hc). cbn.
  destruct (referred security_object σ x) as [xv |] eqn:Hx; [| done].
  by rewrite (referred_weaken _ _ _ _ _ Hsub Hx).
Qed.

Lemma settings_at_Some (σ : gmap loc object) (this : loc) (settings : Settings) :
  settings_at σ this = Some settings -> is_Some (σ !! this).
Proof. unfold settings_at. by destruct (σ !! this). Qed.

(** C7.  Resolution is repeatable and leaves its input alone.  In a memory
    that holds the table of defaults, when [new Realm(options)] returns:
    every object that was in the memory -- the options object and what it
    refers to, the table and its objects -- is as it was, every write of the
    constructor having gone to an object it made itself; the instance is new
    and holds the resolved settings; and resolving the same options again
    returns a second instance, again leaving every object as it was, the
    first instance and its settings among them, with settings, and so derived
    header strings, identical to those of the first. *)
Theorem Realm_idempotent (internals_defaults : loc) (options : value)
    (σ σ1 : gmap loc object) (this1 : loc) (d : Defaults) :
  Memory.table_at σ internals_defaults = Some d ->
  Memory.Realm internals_defaults options σ = (Ok this1, σ1) ->
  (forall l o, σ !! l = Some o -> σ1 !! l = Some o)
  /\ σ !! this1 = None
  /\ exists settings this2 σ2,
       Memory.merged_settings σ (defaults_server d) options ≫= resolve d = Ok settings
       /\ Memory.settings_at σ1 this1 = Some settings
       /\ Memory.Realm internals_defaults options σ1 = (Ok this2, σ2)
       /\ this2 <> this1
       /\ (forall l o, σ1 !! l = Some o -> σ2 !! l = Some o)
       /\ Memory.settings_at σ2 this2 = Some settings
       /\ Memory.settings_at σ2 this1 = Some settings
       /\ Memory.derived_strings_at σ2 this2 = Memory.derived_strings_at σ1 this1.
Proof.
  intros Htable HRealm.
  destruct (Realm_run internals_defaults options σ d Htable)
    as (r & σ' & Hrun & Hsub & Hresolve).
  rewrite HRealm in Hrun. injection Hrun as <- <-.
  destruct (merged_settings σ (defaults_server d) options) as [st |] eqn:Hmerged;
    [| by destruct Hresolve].
  rewrite bind_Ok in Hresolve |- *.
  destruct (resolve d st) as [settings |] eqn:Hsettings; [| by destruct Hresolve].
  destruct Hresolve as (this & [= <-] & Hnew & Hat).
  split; [intros l o Hl; by eapply lookup_weaken |]. split; [done |].
  destruct (Realm_run internals_defaults options σ1 d) as (r & σ2 & Hrun & Hsub2 & Hresolve);
    [by eapply table_at_weaken |].
  rewrite (merged_settings_weaken _ _ _ _ _ Hsub Hmerged), bind_Ok, Hsettings in Hresolve.
  destruct Hresolve as (this2 & -> & Hnew2 & Hat2).
  exists settings, this2, σ2.
  split; [done |]. split; [done |]. split; [done |].
  split; [intros ->; apply settings_at_Some in Hat as [o Ho]; congruence |].
  split; [intros l o Hl; by eapply lookup_weaken |].
  split; [done |].
  split; [by eapply settings_at_weaken |].
  unfold derived_strings_at. by rewrite Hat, Hat2.
Qed.

End MemoryFacts.

Lemma Realm_idempotent_witness :
  let raw := {| Raw.tls := None; Raw.location := None;
                Raw.cacheControlStatus := None; Raw.timeout := None;
                Raw.labels := None; Raw.cors := Some On; Raw.security := Some On |} in
  let given := Memory.OptionsObject raw (VObject 9%positive) VUndefined in
  let σ := <[5%positive := given]> Memory.loaded in
  exists this1 σ1 this2 σ2,
    Memory.Realm (H := integer_runtime) (H0 := any_schema) 1%positive (VObject 5%positive) σ
    = (Ok this1, σ1)
    /\ Memory.Realm (H := integer_runtime) (H0 := any_schema) 1%positive (VObject 5%positive) σ1
       = (Ok this2, σ2)
    /\ σ2 !! 5%positive = Some given
    /\ Memory.table_at σ2 1%positive = Some defaults
    /\ Memory.derived_strings_at σ2 this2 = Memory.derived_strings_at σ1 this1
    /\ Memory.derived_strings_at σ1 this1
       = Some [ Some "Authorization, Content-Type, If-None-Match";
                Some "GET, HEAD, POST, PUT, PATCH, DELETE, OPTIONS";
                Some "WWW-Authenticate, Server-Authorization";
                Some EmptyString;
                Some "max-age=15768000";
                Some "DENY" ].
Proof.
  intros raw given σ.
  destruct (Memory.Realm (H := integer_runtime) (H0 := any_schema)
              1%positive (VObject 5%positive) σ)
    as [[this1 | e] σ1] eqn:HRealm; [| by vm_compute in HRealm].
  assert (Htable : Memory.table_at σ 1%positive = Some defaults)
    by (vm_compute; reflexivity).
  destruct (Realm_idempotent (H := integer_runtime) (H0 := any_schema)
              _ _ _ _ _ _ Htable HRealm)
    as (Hframe & _ & settings & this2 & σ2 & _ & _ & H2 & _ & Hframe2 & _ & _ & Hsame).
  exists this1, σ1, this2, σ2.
  split; [reflexivity |]. split; [exact H2 |].
  split; [apply Hframe2, Hframe; vm_compute; reflexivity |].
  split.
  { apply (table_at_weaken σ); [| exact Htable].
    apply map_subseteq_spec. intros l o Hl. by apply Hframe2, Hframe. }
  split; [exact Hsame |].
  vm_compute in HRealm. injection HRealm as <- <-. vm_compute. reflexivity.
Defined.

(** ** The admission gate *)

(** C6.  The admission gate, for one request.  When the load check fails
    (the server is overloaded) the gate logs the tags [hapi], [load] with
    the load snapshot and replies once, with the 503 that carries the
    snapshot, and the request lifecycle is not run; when the check passes
    the lifecycle is run once, on the request made of the raw handles and
    the dispatch options, and the gate writes no response.  The lifecycle
    writing one response for a request it runs, every request gets exactly
    one response on either path. *)
Theorem admission_gate (options : option DispatchOptions) (check : bool)
    (load : Load) (rq rs : nat) (lifecycle : Request -> nat) :
  (forall r, lifecycle r = 1%nat) ->
  let effects := _dispatch options check load rq rs in
  let request :=
    {| req := rq; res := rs;
       request_options := default {| dispatch_credentials := VUndefined |} options |} in
  (check = false ->
   effects = [ Log ["hapi"; "load"] load;
               Reply request (Boom_serverTimeout "Server under heavy load" load) ]
   /\ replies effects = [ {| statusCode := 503; boom_message := "Server under heavy load";
                             data := load |} ]
   /\ executed effects = [])
  /\ (check = true ->
      effects = [ Execute request ]
      /\ replies effects = []
      /\ executed effects = [request])
  /\ responses lifecycle effects = 1%nat.
Proof.
  intros Hone effects request. unfold effects, _dispatch.
  split; [| split].
  - by intros ->.
  - by intros ->.
  - unfold responses. destruct check; simpl; [| done]. by rewrite Hone.
Qed.

Lemma admission_gate_witness :
  let load := {| eventLoopDelay := of_int 70; heapUsed := of_int 1; rss := of_int 2 |} in
  (forall r : Request, (fun _ => 1%nat) r = 1%nat)
  /\ responses (fun _ => 1%nat) (_dispatch None false load 7 8) = 1%nat
  /\ responses (fun _ => 1%nat) (_dispatch None true load 7 8) = 1%nat.
Proof.
  intros load.
  assert (Hone : forall r : Request, (fun _ => 1%nat) r = 1%nat) by done.
  split; [exact Hone |]. split.
  - apply (admission_gate None false load 7 8 _ Hone).
  - apply (admission_gate None true load 7 8 _ Hone).
Defined.

(** ** Start *)

Section StartFacts.
Context `{Runtime}.

Lemma listener_listen_connections (w : World) :
  _connections (listener_listen w) = _connections w.
Proof. unfold listener_listen. by destruct (listener_phase (listener w)). Qed.

Lemma listener_listen_phase (w : World) :
  listener_phase (listener w) <> Accepting ->
  listener_phase (listener (listener_listen w)) <> Accepting.
Proof.
  unfold listener_listen. intros Hphase.
  by destruct (listener_phase (listener w)) eqn:Hp; cbn; rewrite ?Hp.
Qed.

(** Invoking callbacks leaves the listener and the registry as they are. *)
Lemma call_fold (cbs : list callback) (w : World) :
  listener (foldl (fun w cb => call cb w) w cbs) = listener w
  /\ _connections (foldl (fun w cb => call cb w) w cbs) = _connections w.
Proof.
  revert w. induction cbs as [| cb rest IH]; intros w; [done |].
  cbn [foldl]. by destruct (IH (call cb w)) as [-> ->].
Qed.

(** C9.  A start of a server that is not started: [_init] sets the registry
    to the empty map whatever it held, and leaves the phase of the listener
    as it was; [listener.listen] is called after that, and when [_start]
    returns the registry is empty and the listener, if it was not accepting,
    is not accepting yet; when the listener then begins to accept, the
    registry is still empty.  So no entry of the registry outlives a stop
    and a start. *)
Theorem start_resets_registry (cb : callback) (w : World) :
  _started w = false ->
  let initialized := _init cb (set_started true w) in
  _connections initialized = ∅
  /\ listener_phase (listener initialized) = listener_phase (listener w)
  /\ _start cb w = listener_listen initialized
  /\ _connections (_start cb w) = ∅
  /\ _started (_start cb w) = true
  /\ (listener_phase (listener w) <> Accepting ->
      listener_phase (listener (_start cb w)) <> Accepting)
  /\ (forall w', step Listening (_start cb w) = Some w' ->
                 listener_phase (listener w') = Accepting
                 /\ _connections w' = ∅).
Proof.
  intros Hstopped initialized.
  assert (Hstart : _start cb w = listener_listen initialized).
  { unfold _start. by rewrite Hstopped. }
  split; [done |]. split; [done |]. split; [exact Hstart |].
  rewrite Hstart.
  assert (Hempty : _connections (listener_listen initialized) = ∅)
    by (by rewrite listener_listen_connections).
  split; [exact Hempty |].
  split; [| split].
  - unfold listener_listen. by destruct (listener_phase (listener initialized)).
  - intros Hphase. by apply listener_listen_phase.
  - intros w' Hstep. cbn [step] in Hstep.
    destruct (listener_phase (listener (listener_listen initialized))); try done.
    injection Hstep as <-.
    destruct (call_fold (once_listening (listener (listener_listen initialized)))
                (set_phase Accepting []
                   (once_close (listener (listener_listen initialized)))
                   (listener_listen initialized))) as [-> ->].
    by split.
Qed.

End StartFacts.

Lemma start_resets_registry_witness :
  let w := _stop None 1 one_connection in
  _started w = false
  /\ _connections w !! "10.0.0.1:4000" = Some 1%nat
  /\ _connections (_start 2 w) = ∅.
Proof.
  intros w.
  assert (Hstopped : _started w = false) by reflexivity.
  split; [exact Hstopped |]. split; [vm_compute; reflexivity |].
  destruct (@start_resets_registry integer_runtime 2 w Hstopped)
    as (_ & _ & _ & Hreg & _).
  exact Hreg.
Defined.

(** ** Stop *)

Section DrainFacts.
Context `{Runtime}.

(** The close handlers of a connection touch the registry only. *)
Lemma onSocketClose_fold (keys : list string) (w : World) :
  let w' := foldl (fun w key => onSocketClose key w) w keys in
  sockets w' = sockets w /\ timers w' = timers w /\ ticks w' = ticks w
  /\ listener w' = listener w /\ called w' = called w
  /\ _connections w' = foldl (fun m key => delete key m) (_connections w) keys.
Proof.
  revert w. induction keys as [| k rest IH]; intros w; [done |].
  cbn [foldl]. destruct (IH (onSocketClose k w)) as (? & ? & ? & ? & ? & ?).
  by split_and!.
Qed.

Lemma foldl_delete_other (keys : list string) (m : gmap string nat) (k : string) :
  Forall (fun key => key <> k) keys ->
  foldl (fun m key => delete key m) m keys !! k = m !! k.
Proof.
  revert m. induction keys as [| key rest IH]; intros m Hkeys; [done |].
  apply Forall_cons in Hkeys as [Hne Hrest].
  cbn [foldl]. rewrite IH by done. by rewrite lookup_delete_ne.
Qed.

(** Destroying connections changes their [destroyed] flag and nothing else. *)
Lemma destroy_fold (entries : list (string * nat)) (w : World) :
  let w' := foldl (fun w (entry : string * nat) => destroy entry.2 w) w entries in
  _connections w' = _connections w /\ timers w' = timers w /\ ticks w' = ticks w
  /\ listener w' = listener w /\ called w' = called w
  /\ forall c, sockets w' !! c
               = if bool_decide (c ∈ entries.*2) then mark <$> sockets w !! c
                 else sockets w !! c.
Proof.
  revert w. induction entries as [| [k c0] rest IH]; intros w; cbv zeta.
  { by split_and!. }
  cbn [foldl snd]. destruct (IH (destroy c0 w)) as (Hc & Ht & Hk & Hl & Hcalled & Hs).
  assert (Hd : _connections (destroy c0 w) = _connections w
               /\ timers (destroy c0 w) = timers w
               /\ ticks (destroy c0 w) = ticks w
               /\ listener (destroy c0 w) = listener w
               /\ called (destroy c0 w) = called w
               /\ forall c, sockets (destroy c0 w) !! c
                            = if bool_decide (c = c0) then mark <$> sockets w !! c
                              else sockets w !! c).
  { unfold destroy. destruct (sockets w !! c0) as [s |] eqn:Hs0.
    - split_and!; try done. intros c. cbn. case_bool_decide as Hc0.
      + subst c. by rewrite lookup_insert_eq, Hs0.
      + by rewrite lookup_insert_ne.
    - split_and!; try done. intros c. case_bool_decide as Hc0; [| done].
      subst c. by rewrite Hs0. }
  destruct Hd as (Hc' & Ht' & Hk' & Hl' & Hcalled' & Hs').
  split_and!; [congruence | congruence | congruence | congruence | congruence |].
  intros c. rewrite Hs, Hs'. cbn [fmap list_fmap snd].
  destruct (decide (c = c0)) as [-> | Hne].
  - rewrite (bool_decide_eq_true_2 (c0 = c0)) by done.
    rewrite (bool_decide_eq_true_2 (c0 ∈ c0 :: rest.*2)) by (by left).
    case_bool_decide; [| done]. by destruct (sockets w !! c0).
  - rewrite (bool_decide_eq_false_2 (c = c0)) by done.
    apply (f_equal (fun b : bool => if b then mark <$> sockets w !! c else sockets w !! c)).
    apply bool_decide_ext. rewrite elem_of_cons. tauto.
Qed.

(** The handler of the timer destroys every connection of the registry that
    is open. *)
Lemma onTimeout_destroys (w : World) (k : string) (c : nat) (s : Socket) :
  _connections w !! k = Some c -> sockets w !! c = Some s ->
  sockets (onTimeout w) !! c = Some (mark s).
Proof.
  intros Hk Hs. unfold onTimeout.
  destruct (destroy_fold (map_to_list (_connections w)) w) as (_ & _ & _ & _ & _ & Hl).
  rewrite Hl, Hs. rewrite bool_decide_eq_true_2; [done |].
  apply list_elem_of_fmap. exists (k, c). split; [done |].
  by apply elem_of_map_to_list.
Qed.

Lemma onTimeout_size (w : World) : size (sockets (onTimeout w)) = size (sockets w).
Proof.
  unfold onTimeout.
  destruct (destroy_fold (map_to_list (_connections w)) w) as (_ & _ & _ & _ & _ & Hl).
  rewrite <- !size_dom. f_equal. apply set_eq. intros c.
  rewrite !elem_of_dom, Hl. case_bool_decide; [| done].
  by rewrite fmap_is_Some.
Qed.

(** The write of the timeout into the options object leaves the server,
    the listener and the event loop as they are. *)
Lemma default_timeout_fields (options : option loc) (w : World) :
  let w' := default_timeout options w in
  _started w' = _started w /\ _connections w' = _connections w
  /\ _onConnection w' = _onConnection w /\ heavy_started w' = heavy_started w
  /\ listener w' = listener w /\ sockets w' = sockets w
  /\ timers w' = timers w /\ ticks w' = ticks w
  /\ next_id w' = next_id w /\ called w' = called w.
Proof. by destruct options. Qed.

(** [_stop] on a listening server: the timer and the close handler. *)
Lemma stop_draining (options : option loc) (cb : callback) (w : World) :
  listening w -> tracked w ->
  let w0 := _stop options cb w in
  draining (next_id w) cb (called w) w0
  /\ timers w0 = {[ next_id w := number_or (given_timeout options w) (of_int 5000) ]}
  /\ once_close (listener w0) = [(next_id w, cb)]
  /\ listener_phase (listener w0) = Closing
  /\ _started w0 = false
  /\ heavy_started w0 = false
  /\ sockets w0 = sockets w.
Proof.
  intros (Hstarted & Hphase & Hclose & Htimers & Hticks) Htracked w0.
  unfold w0, _stop.
  destruct (default_timeout_fields options w)
    as (Hs' & Hc' & _ & _ & Hl' & Hk' & Ht' & Hq' & Hn' & Hd').
  set (w' := default_timeout options w) in *.
  rewrite Hs', Hstarted. cbn.
  rewrite ?Hl', ?Hk', ?Ht', ?Hn', ?Hclose, ?Htimers. cbn.
  split_and!; try done.
  eapply drain_waiting; cbn;
    rewrite ?Hl', ?Hq', ?Hd', ?Ht', ?Hn', ?Hclose, ?Hticks, ?Htimers; try done.
  unfold tracked. cbn. by rewrite Hk', Hc'.
Qed.

Lemma onListenerClose_fields (t : nat) (cb : callback) (w : World) :
  let w' := onListenerClose (t, cb) w in
  listener_phase (listener w') = listener_phase (listener w)
  /\ called w' = cb :: called w /\ ticks w' = ticks w
  /\ timers w' = delete t (timers w) /\ sockets w' = sockets w.
Proof.
  unfold onListenerClose, listener_removeListener. by destruct (_onConnection w).
Qed.

(** The close of a connection takes it out of the open connections and leaves
    the other connections tracked. *)
Lemma socket_close_tracked (w : World) (c : nat) (s : Socket) :
  tracked w -> sockets w !! c = Some s ->
  tracked (foldl (fun w key => onSocketClose key w)
             (set_sockets (delete c (sockets w)) w) (socket_once_close s)).
Proof.
  intros Htr Hs. unfold tracked.
  destruct (onSocketClose_fold (socket_once_close s)
              (set_sockets (delete c (sockets w)) w))
    as (Hsockets & _ & _ & _ & _ & Hconnections).
  rewrite Hsockets, Hconnections. cbn.
  intros c' s' Hc'. apply lookup_delete_Some in Hc' as [Hne Hc'].
  destruct (Htr c s Hs) as [Hreg Hkeys].
  destruct (Htr c' s' Hc') as [Hreg' Hkeys'].
  split; [| done].
  rewrite foldl_delete_other; [done |].
  eapply Forall_impl; [exact Hkeys |]. cbn. intros k -> Heq.
  rewrite Heq in Hreg. congruence.
Qed.

(** The close of the listener, from a state in which its only close handler
    is the one of [_stop]. *)
Lemma listener_close_done (t : nat) (cb : callback) (before : list callback)
    (w w' : World) :
  listener_phase (listener w) = Closing ->
  once_close (listener w) = [(t, cb)] ->
  called w = before -> ticks w = [] ->
  timers w = ∅ \/ (exists d, timers w = {[ t := d ]}) ->
  step ListenerClose w = Some w' ->
  draining t cb before w'
  /\ (drain_measure w' < drain_measure w)%nat
  /\ called w' = cb :: before.
Proof.
  intros Hp Hc Hcalled Hticks Htimers Hstep.
  cbn [step] in Hstep. unfold can_close in Hstep. rewrite Hp in Hstep.
  case_bool_decide as Hs; [| done]. injection Hstep as <-.
  rewrite Hc. cbn [foldl].
  set (w1 := set_phase Closed (once_listening (listener w)) [] w).
  destruct (onListenerClose_fields t cb w1) as (Hp' & Hcalled' & Hticks' & Htimers' & Hs').
  assert (Hempty : delete t (timers w) = ∅).
  { destruct Htimers as [-> | [d ->]]; [apply delete_empty | apply delete_singleton_eq]. }
  change (timers w1) with (timers w) in Htimers'.
  change (sockets w1) with (sockets w) in Hs'.
  change (ticks w1) with (ticks w) in Hticks'.
  change (called w1) with (called w) in Hcalled'.
  change (listener_phase (listener w1)) with Closed in Hp'.
  split; [| split].
  - apply drain_done; congruence.
  - unfold drain_measure. rewrite Hp', Hs', Htimers', Hempty, Hs, Hp.
    rewrite !map_size_empty.
    rewrite (bool_decide_eq_true_2 (Closing = Closing)) by done.
    rewrite (bool_decide_eq_false_2 (Closed = Closing)) by done. lia.
  - congruence.
Qed.

(** One event of a shutdown: the state stays a state of the shutdown, less
    is left to happen, and the callback is invoked by the close of the
    listener and by no other event. *)
Lemma step_draining (t : nat) (cb : callback) (before : list callback)
    (e : event) (w w' : World) :
  draining t cb before w -> step e w = Some w' ->
  draining t cb before w'
  /\ (drain_measure w' < drain_measure w)%nat
  /\ (e = ListenerClose -> called w = before /\ called w' = cb :: before)
  /\ (e <> ListenerClose -> called w' = called w).
Proof.
  intros Hd Hstep.
  destruct Hd as [d Hp Hc Hcalled Hticks Htimers Htr
                 | Hp Hc Hcalled Hticks Htimers Hall
                 | Hp Hcalled Hticks Htimers Hs].
  - (* the timer is armed *)
    destruct e as [| address port | c | t' | |].
    + cbn in Hstep. by rewrite Hp in Hstep.
    + cbn in Hstep. by rewrite Hp in Hstep.
    + cbn [step] in Hstep. destruct (sockets w !! c) as [s |] eqn:Hsc; [| done].
      injection Hstep as <-.
      pose proof (socket_close_tracked w c s Htr Hsc) as Htr'.
      set (w2 := set_sockets (delete c (sockets w)) w) in *.
      destruct (onSocketClose_fold (socket_once_close s) w2)
        as (Hs' & Ht' & Hk' & Hl' & Hcalled' & _).
      change (sockets w2) with (delete c (sockets w)) in Hs'.
      change (timers w2) with (timers w) in Ht'.
      change (ticks w2) with (ticks w) in Hk'.
      change (listener w2) with (listener w) in Hl'.
      change (called w2) with (called w) in Hcalled'.
      split_and!; [| | done | congruence].
      * apply (drain_waiting _ _ _ _ d); [| | | | | exact Htr']; congruence.
      * unfold drain_measure. rewrite Hs', Ht', Hl'.
        rewrite map_size_delete_Some by done.
        pose proof (map_size_ne_0_lookup_2 (sockets w) c (mk_is_Some _ _ Hsc)). lia.
    + cbn [step] in Hstep. destruct (timers w !! t') as [d' |] eqn:Ht'; [| done].
      injection Hstep as <-.
      rewrite Htimers in Ht'. apply lookup_singleton_Some in Ht' as [<- <-].
      set (w2 := set_timers (delete t (timers w)) w).
      destruct (destroy_fold (map_to_list (_connections w2)) w2)
        as (_ & Ht2 & Hk2 & Hl2 & Hcalled2 & Hs2).
      fold (onTimeout w2) in Ht2, Hk2, Hl2, Hcalled2, Hs2.
      change (timers w2) with (delete t (timers w)) in Ht2.
      change (ticks w2) with (ticks w) in Hk2.
      change (listener w2) with (listener w) in Hl2.
      change (called w2) with (called w) in Hcalled2.
      change (sockets w2) with (sockets w) in Hs2.
      assert (Hempty : timers (onTimeout w2) = ∅).
      { rewrite Ht2, Htimers. apply delete_singleton_eq. }
      split_and!; [| | done | congruence].
      * apply drain_forced; try congruence.
        intros c s' Hc'. rewrite Hs2 in Hc'.
        case_bool_decide as Hin.
        { destruct (sockets w !! c); [| done]. by injection Hc' as <-. }
        exfalso. apply Hin. destruct (Htr c s' Hc') as [Hreg _].
        apply list_elem_of_fmap. exists (connection_key s', c). split; [done |].
        by apply elem_of_map_to_list.
      * unfold drain_measure. rewrite onTimeout_size, Hempty, Hl2.
        change (sockets w2) with (sockets w).
        rewrite Htimers, map_size_empty, map_size_singleton. lia.
    + destruct (listener_close_done t cb before w w') as (? & ? & ?); eauto.
      split_and!; [done | done | done | congruence].
    + cbn in Hstep. by rewrite Hticks in Hstep.
  - (* the timer has fired *)
    destruct e as [| address port | c | t' | |].
    + cbn in Hstep. by rewrite Hp in Hstep.
    + cbn in Hstep. by rewrite Hp in Hstep.
    + cbn [step] in Hstep. destruct (sockets w !! c) as [s |] eqn:Hsc; [| done].
      injection Hstep as <-.
      set (w2 := set_sockets (delete c (sockets w)) w) in *.
      destruct (onSocketClose_fold (socket_once_close s) w2)
        as (Hs' & Ht' & Hk' & Hl' & Hcalled' & _).
      change (sockets w2) with (delete c (sockets w)) in Hs'.
      change (timers w2) with (timers w) in Ht'.
      change (ticks w2) with (ticks w) in Hk'.
      change (listener w2) with (listener w) in Hl'.
      change (called w2) with (called w) in Hcalled'.
      split_and!; [| | done | congruence].
      * apply drain_forced; try congruence.
        unfold all_destroyed. rewrite Hs'. by apply map_Forall_delete.
      * unfold drain_measure. rewrite Hs', Ht', Hl'.
        rewrite map_size_delete_Some by done.
        pose proof (map_size_ne_0_lookup_2 (sockets w) c (mk_is_Some _ _ Hsc)). lia.
    + cbn in Hstep. by rewrite Htimers, lookup_empty in Hstep.
    + destruct (listener_close_done t cb before w w') as (? & ? & ?); eauto.
      split_and!; [done | done | done | congruence].
    + cbn in Hstep. by rewrite Hticks in Hstep.
  - (* the listener has closed *)
    exfalso. destruct e as [| address port | c | t' | |]; cbn in Hstep.
    + by rewrite Hp in Hstep.
    + by rewrite Hp in Hstep.
    + by rewrite Hs, lookup_empty in Hstep.
    + by rewrite Htimers, lookup_empty in Hstep.
    + unfold can_close in Hstep. by rewrite Hp in Hstep.
    + by rewrite Hticks in Hstep.
Qed.

Lemma close_in_events (events : list event) :
  ListenerClose ∈ events \/ ListenerClose ∉ events.
Proof.
  induction events as [| e rest [IH | IH]].
  - right. apply not_elem_of_nil.
  - left. by right.
  - destruct e; try (right; apply not_elem_of_cons; by split).
    left. by left.
Qed.

(** A run of a shutdown. *)
Lemma run_draining (t : nat) (cb : callback) (before : list callback)
    (events : list event) :
  forall w w1,
    draining t cb before w -> run events w = Some w1 ->
    draining t cb before w1
    /\ (length events + drain_measure w1 <= drain_measure w)%nat
    /\ (ListenerClose ∈ events -> called w1 = cb :: before)
    /\ (ListenerClose ∉ events -> called w1 = called w).
Proof.
  induction events as [| e rest IH]; intros w w1 Hd Hrun.
  - injection Hrun as <-. split_and!; [done | cbn; lia | | done].
    intros Hin. by apply elem_of_nil in Hin.
  - cbn [run] in Hrun. destruct (step e w) as [w' |] eqn:Hstep; [| done].
    destruct (step_draining _ _ _ _ _ _ Hd Hstep) as (Hd' & Hlt & Hclose & Hother).
    destruct (IH _ _ Hd' Hrun) as (Hd1 & Hle & Hin & Hnotin).
    split_and!; [done | cbn [length]; lia | |].
    + intros Hmem. apply elem_of_cons in Hmem as [<- | Hmem]; [| by apply Hin].
      destruct (Hclose eq_refl) as [_ Hcalled'].
      destruct (close_in_events rest) as [Hr | Hr]; [by apply Hin |].
      by rewrite (Hnotin Hr).
    + intros Hmem. apply not_elem_of_cons in Hmem as [Hne Hmem].
      rewrite (Hnotin Hmem). apply Hother. congruence.
Qed.

(** A state of a shutdown in which the event loop has nothing to deliver: the
    callback has been invoked. *)
Lemma draining_settled (t : nat) (cb : callback) (before : list callback) (w : World) :
  draining t cb before w -> pending w = false -> called w = cb :: before.
Proof.
  intros [d Hp Hc Hcalled Hticks Htimers Htr
         | Hp Hc Hcalled Hticks Htimers Hall
         | Hp Hcalled Hticks Htimers Hs] Hpending; [| | done].
  - exfalso. unfold pending in Hpending.
    rewrite (bool_decide_eq_false_2 (timers w = ∅)) in Hpending; [done |].
    rewrite Htimers. intros Hempty.
    apply (f_equal (fun m => m !! t)) in Hempty.
    by rewrite lookup_singleton_eq, lookup_empty in Hempty.
  - exfalso. unfold pending in Hpending.
    apply orb_false_elim in Hpending as [Hpending Hclose].
    apply orb_false_elim in Hpending as [_ Hdestroyed].
    apply negb_false_iff, bool_decide_eq_true_1 in Hdestroyed.
    assert (Hs : sockets w = ∅).
    { apply map_empty. intros c. destruct (sockets w !! c) as [s |] eqn:Hsc; [| done].
      pose proof (Hall c s Hsc) as Htrue. pose proof (Hdestroyed c s Hsc) as Hfalse.
      cbn in Htrue, Hfalse. congruence. }
    unfold can_close in Hclose. rewrite Hp in Hclose.
    by rewrite bool_decide_eq_true_2 in Hclose.
Qed.

(** While something is pending, the event loop has an event to deliver. *)
Lemma pending_progress (w : World) :
  pending w = true -> exists e w', step e w = Some w'.
Proof.
  unfold pending. rewrite !orb_true_iff.
  intros [[[[Ht | Hk] | Hb] | Hd] | Hc].
  - apply negb_true_iff, bool_decide_eq_false_1 in Ht.
    apply map_choose in Ht as (t & d & Ht).
    exists (TimerFired t). cbn [step]. rewrite Ht. by eexists.
  - exists Tick. cbn [step]. destruct (ticks w); [done | by eexists].
  - apply bool_decide_eq_true_1 in Hb.
    exists Listening. cbn [step]. rewrite Hb. by eexists.
  - apply negb_true_iff, bool_decide_eq_false_1 in Hd.
    apply map_not_Forall in Hd as (c & s & Hs & _); [| apply _].
    exists (SocketClose c). cbn [step]. rewrite Hs. by eexists.
  - exists ListenerClose. cbn [step]. rewrite Hc. by eexists.
Qed.

(** The timer firing: every connection still in the registry is destroyed,
    and the timer is gone. *)
Lemma timer_destroys (t : nat) (w w2 : World) :
  step (TimerFired t) w = Some w2 ->
  timers w2 !! t = None
  /\ forall k c s, _connections w !! k = Some c -> sockets w !! c = Some s ->
                   sockets w2 !! c = Some (mark s).
Proof.
  cbn [step]. destruct (timers w !! t) as [d |]; [| done]. intros [= <-].
  set (w1 := set_timers (delete t (timers w)) w). split.
  - unfold onTimeout.
    destruct (destroy_fold (map_to_list (_connections w1)) w1) as (_ & -> & _).
    apply lookup_delete_eq.
  - intros k c s Hk Hs. by apply (onTimeout_destroys w1 k).
Qed.

(** X22.  A stop of a server that listens, with no start or stop under
    way, whose open connections are each in the registry under their own
    key: a timer of [options.timeout], or of 5000 when that is absent or 0,
    is started, and the listener is asked to close.  When the timer fires,
    every connection still in the registry is destroyed.  When the close of
    the listener completes, the timer is cancelled and the callback of
    [stop] is invoked, without an error; no other event invokes it.  Every
    run of the event loop is finite, has an event to deliver as long as
    something is pending, and cannot come to rest before the callback has
    been invoked. *)
Theorem stop_drains (options : option loc) (cb : callback) (w : World) :
  listening w -> tracked w -> cb ∉ called w ->
  let t := next_id w in
  let w0 := _stop options cb w in
  timers w0 = {[ t := number_or (given_timeout options w) (of_int 5000) ]}
  /\ once_close (listener w0) = [(t, cb)]
  /\ listener_phase (listener w0) = Closing
  /\ _started w0 = false
  /\ called w0 = called w
  /\ forall events w1,
       run events w0 = Some w1 ->
       (forall w2, step (TimerFired t) w1 = Some w2 ->
                   timers w2 !! t = None
                   /\ forall k c s,
                        _connections w1 !! k = Some c -> sockets w1 !! c = Some s ->
                        sockets w2 !! c = Some (mark s))
       /\ (cb ∈ called w1 <-> ListenerClose ∈ events)
       /\ (ListenerClose ∈ events -> timers w1 = ∅ /\ called w1 = cb :: called w)
       /\ (length events <= size (sockets w) + 2)%nat
       /\ (pending w1 = true -> exists e w2, step e w1 = Some w2)
       /\ (pending w1 = false -> cb ∈ called w1).
Proof.
  intros Hl Htr Hcb t w0.
  destruct (stop_draining options cb w Hl Htr)
    as (Hd & Htimers & Honce & Hphase & Hstarted & _ & Hsockets).
  fold t in Hd, Htimers, Honce. fold w0 in Hd, Htimers, Honce, Hphase, Hstarted, Hsockets.
  assert (Hcalled0 : called w0 = called w).
  { destruct Hl as (Hs & _). unfold w0, _stop.
    destruct (default_timeout_fields options w)
      as (Hs' & _ & _ & _ & _ & _ & _ & _ & _ & Hd').
    rewrite Hs', Hs. cbn. exact Hd'. }
  split_and!; try done.
  intros events w1 Hrun.
  destruct (run_draining _ _ _ _ _ _ Hd Hrun) as (Hd1 & Hle & Hin & Hnotin).
  split_and!.
  - intros w2. apply timer_destroys.
  - split.
    + intros Hmem. destruct (close_in_events events) as [Hc | Hc]; [done |].
      rewrite (Hnotin Hc), Hcalled0 in Hmem. done.
    + intros Hc. rewrite (Hin Hc). by left.
  - intros Hc. split; [| by apply Hin].
    pose proof (Hin Hc) as Hcalled1.
    destruct Hd1 as [d _ _ Hcalled _ _ _ | _ _ Hcalled _ _ _ | _ _ _ Hdone _]; [| | done].
    + rewrite Hcalled in Hcalled1.
      apply (f_equal length) in Hcalled1. cbn in Hcalled1. lia.
    + rewrite Hcalled in Hcalled1.
      apply (f_equal length) in Hcalled1. cbn in Hcalled1. lia.
  - assert (Hm0 : drain_measure w0 = (size (sockets w) + 2)%nat).
    { unfold drain_measure. rewrite Hsockets, Htimers, Hphase, map_size_singleton.
      rewrite bool_decide_eq_true_2 by done. lia. }
    lia.
  - apply pending_progress.
  - intros Hpending. rewrite (draining_settled _ _ _ _ Hd1 Hpending). by left.
Qed.

End DrainFacts.

Section TrackedFacts.
Context `{Runtime}.

(** A new connection whose key differs from the keys of the open connections
    leaves the connections tracked, on a listener with the one handler
    [_init] installed. *)
Lemma connection_tracked (address port : value) (h : nat) (w w' : World) :
  tracked w ->
  on_connection (listener w) = [h] ->
  sockets w !! next_id w = None ->
  (forall c s, sockets w !! c = Some s ->
               connection_key s
               <> ToString address +:+ ":" +:+ ToString port) ->
  step (Connection address port) w = Some w' ->
  tracked w'.
Proof.
  intros Htr Hh Hfresh Hkeys Hstep. cbn [step] in Hstep.
  destruct (listener_phase (listener w)); try done.
  injection Hstep as <-. rewrite Hh. cbn [foldl].
  unfold onConnection. cbn. rewrite lookup_insert_eq. cbn.
  unfold tracked. cbn. rewrite insert_insert_eq.
  intros c s Hc. apply lookup_insert_Some in Hc as [[<- <-] | [Hne Hc]].
  - cbn. rewrite lookup_insert_eq. split; [done |]. by apply Forall_singleton.
  - destruct (Htr c s Hc) as [Hreg Hhandlers]. split; [| done].
    rewrite lookup_insert_ne; [done |]. intros Heq. by apply (Hkeys c s Hc).
Qed.

End TrackedFacts.

(** The two servers are reached from the constructed one. *)
Lemma one_connection_reached :
  run (H := integer_runtime)
    [Listening; Connection (VString "10.0.0.1") (VNumber (of_int 4000))]
    (_start 0 constructed) = Some one_connection.
Proof. vm_compute. reflexivity. Qed.

Lemma two_equal_keys_reached :
  run (H := integer_runtime)
    [Listening; Connection VUndefined VUndefined; Connection VUndefined VUndefined]
    (_start 0 constructed) = Some two_equal_keys.
Proof. vm_compute. reflexivity. Qed.

Lemma stop_drains_witness :
  let w := set_objects {[ 1%positive := {| stop_timeout := Some (of_int 200) |} ]}
             one_connection in
  let w0 := _stop (Some 1%positive) 1 w in
  listening w
  /\ tracked (H := integer_runtime) w
  /\ (1%nat ∉ called w)
  /\ timers w0 = {[ 2%nat := of_int 200 ]}
  /\ exists w1,
       run (H := integer_runtime) [TimerFired 2; SocketClose 1; ListenerClose] w0
       = Some w1
       /\ pending w1 = false
       /\ 1%nat ∈ called w1.
Proof.
  intros w w0.
  assert (Hl : listening w) by (by split_and!).
  assert (Htr : tracked (H := integer_runtime) w).
  { apply (bool_decide_unpack _). vm_compute. exact I. }
  assert (Hcb : 1%nat ∉ called w).
  { apply (bool_decide_unpack _). vm_compute. exact I. }
  destruct (stop_drains (H := integer_runtime) (Some 1%positive) 1 w Hl Htr Hcb)
    as (Htimers & _ & _ & _ & _ & Hruns).
  split; [exact Hl |]. split; [exact Htr |]. split; [exact Hcb |].
  split; [exact Htimers |].
  destruct (run (H := integer_runtime) [TimerFired 2; SocketClose 1; ListenerClose] w0)
    as [w1 |] eqn:Hrun; [| by vm_compute in Hrun].
  exists w1. split; [reflexivity |].
  assert (Hsettled : pending w1 = false).
  { vm_compute in Hrun. injection Hrun as <-. vm_compute. reflexivity. }
  split; [exact Hsettled |].
  destruct (Hruns _ _ Hrun) as (_ & _ & _ & _ & _ & Hcalled).
  exact (Hcalled Hsettled).
Defined.

(** C8.  The callback of [stop] does not always fire.  Two connections
    whose address and port are undefined, as for a listener on a UNIX domain
    socket, have the same key [remoteAddress:remotePort]; the second takes
    the place of the first in the registry, which was meant to hold every
    open connection.  After [stop] on this listening server, the timer
    destroys the second connection only; once that one has closed the event
    loop has nothing left to deliver, the first connection is open and not
    destroyed, the listener cannot close, and the callback of [stop] has not
    been invoked. *)
Lemma stop_hangs_on_equal_keys :
  listening two_equal_keys
  /\ exists w1 s,
       run (H := integer_runtime) [TimerFired 3; SocketClose 2]
         (_stop None 1 two_equal_keys) = Some w1
       /\ pending w1 = false
       /\ (1%nat ∉ called w1)
       /\ sockets w1 !! 1%nat = Some s /\ destroyed s = false
       /\ step (H := integer_runtime) ListenerClose w1 = None.
Proof.
  split; [by split_and! |].
  eexists _, _.
  split; [vm_compute; reflexivity |].
  split; [vm_compute; reflexivity |].
  split; [apply (bool_decide_unpack _); vm_compute; exact I |].
  split; [vm_compute; reflexivity |].
  split; [reflexivity | vm_compute; reflexivity].
Qed.

(** * Further properties *)

(** ** Constructor arguments, further *)

Section PortMore.
Context `{Runtime}.

Lemma port_arg_undefined (r : gmap string value) (v : value) :
  is_undefined v = true -> port_arg r v = Ok r.
Proof. intros Hu. unfold port_arg. by rewrite Hu. Qed.

Lemma port_loop_undefined (args : list value) :
  forall r, port_loop r args
            = port_loop r (filter (fun v => is_undefined v = false) args).
Proof.
  induction args as [| a rest IH]; intros r; [done |].
  rewrite filter_cons. destruct (decide (is_undefined a = false)) as [Hd | Hu].
  - cbn [port_loop]. destruct (port_arg r a); simpl; [apply IH | done].
  - apply not_false_is_true in Hu. cbn [port_loop].
    rewrite port_arg_undefined by done. simpl. apply IH.
Qed.

Lemma port_loop_app (a b : list value) :
  forall r, port_loop r (a ++ b) = port_loop r a ≫= fun r' => port_loop r' b.
Proof.
  induction a as [| x a IH]; intros r; [done |].
  cbn [app port_loop]. destruct (port_arg r x); simpl; [apply IH | done].
Qed.

(** X1.  An argument that is [undefined] is passed over: up to four
    arguments are classified as the arguments that are not [undefined]
    would be.  The limit counts every argument, [undefined] or not: five
    arguments or more are refused. *)
Theorem port_skips_undefined (args : list value) :
  ((length args <= 4)%nat ->
   port args = port (filter (fun v => is_undefined v = false) args))
  /\ ((4 < length args)%nat ->
      port args = Throw (AssertionError "Too many arguments")).
Proof.
  split.
  - intros Hlen. unfold port.
    pose proof (length_filter (fun v => is_undefined v = false) args) as Hf.
    assert (H1 : (length args <=? 4)%nat = true) by (apply Nat.leb_le; lia).
    assert (H2 : (length (filter (fun v => is_undefined v = false) args) <=? 4)%nat = true)
      by (apply Nat.leb_le; lia).
    rewrite H1, H2. simpl. apply port_loop_undefined.
  - intros Hlen. unfold port.
    assert (H1 : (length args <=? 4)%nat = false) by (apply Nat.leb_gt; lia).
    by rewrite H1.
Qed.

(** One turn of the loop keeps what is stored classified and taken from the
    arguments. *)
Lemma port_arg_classified (seen : list value) (r r' : gmap string value) (v : value) :
  port_arg r v = Ok r' ->
  (forall k x, r !! k = Some x -> classified k x /\ from_arguments seen x) ->
  forall k x, r' !! k = Some x -> classified k x /\ from_arguments (seen ++ [v]) x.
Proof.
  intros Hstep Hr.
  assert (Hold : forall k x, r !! k = Some x ->
                             classified k x /\ from_arguments (seen ++ [v]) x).
  { intros k x Hk. destruct (Hr k x Hk) as [Hc [Hin | (s & Hin & ->)]].
    - split; [done |]. left. apply elem_of_app. by left.
    - split; [done |]. right. exists s. split; [| done]. apply elem_of_app. by left. }
  assert (Hnew : forall key x, r' = <[key := x]> r ->
                   classified key x -> from_arguments [v] x ->
                   forall k y, r' !! k = Some y ->
                               classified k y /\ from_arguments (seen ++ [v]) y).
  { intros key x -> Hc Hf k y Hk.
    apply lookup_insert_Some in Hk as [[<- <-] | [_ Hk]]; [| by apply Hold].
    split; [done |]. destruct Hf as [Hin | (s & Hin & ->)].
    - left. apply elem_of_app. by right.
    - right. exists s. split; [| done]. apply elem_of_app. by right. }
  unfold port_arg in Hstep.
  destruct (is_undefined v) eqn:Hu; [by injection Hstep as <- |].
  destruct (instanceof_Pack v) eqn:Hp.
  { injection Hstep as <-. apply (Hnew "pack" v); [done | |].
    - right; right; right. done.
    - left. by apply list_elem_of_singleton. }
  destruct v as [| | b | n | s | l | l | l]; try discriminate; simpl in Hstep.
  - (* null *)
    rewrite argMap_object in Hstep. simpl in Hstep.
    destruct (truthy (prop r "options")); [done |]. injection Hstep as <-.
    apply (Hnew "options" VNull); [done | |].
    + right; right; left. done.
    + left. by apply list_elem_of_singleton.
  - rewrite argMap_number in Hstep. simpl in Hstep.
    destruct (truthy (prop r "port")); [done |]. injection Hstep as <-.
    apply (Hnew "port" (VNumber n)); [done | |].
    + right; left. eauto.
    + left. by apply list_elem_of_singleton.
  - destruct (isFinite (ToNumber s)) eqn:Hfin.
    + rewrite argMap_number in Hstep. simpl in Hstep.
      destruct (truthy (prop r "port")); [done |]. injection Hstep as <-.
      apply (Hnew "port" (VNumber (ToNumber s))); [done | |].
      * right; left. eauto.
      * right. exists s. split; [by apply list_elem_of_singleton | done].
    + rewrite argMap_string in Hstep. simpl in Hstep.
      destruct (truthy (prop r "host")); [done |]. injection Hstep as <-.
      apply (Hnew "host" (VString s)); [done | |].
      * left. eauto.
      * left. by apply list_elem_of_singleton.
  - rewrite argMap_object in Hstep. simpl in Hstep.
    destruct (truthy (prop r "options")); [done |]. injection Hstep as <-.
    apply (Hnew "options" (VObject l)); [done | |].
    + right; right; left. done.
    + left. by apply list_elem_of_singleton.
Qed.

Lemma port_loop_classified (args : list value) :
  forall (seen : list value) (r r' : gmap string value),
    port_loop r args = Ok r' ->
    (forall k x, r !! k = Some x -> classified k x /\ from_arguments seen x) ->
    forall k x, r' !! k = Some x -> classified k x /\ from_arguments (seen ++ args) x.
Proof.
  induction args as [| a rest IH]; intros seen r r' Hloop Hr.
  - injection Hloop as <-. by rewrite app_nil_r.
  - cbn [port_loop] in Hloop.
    destruct (port_arg r a) as [r1 |] eqn:Ha; [| done]. cbn in Hloop.
    replace (seen ++ a :: rest)%list with ((seen ++ [a]) ++ rest)%list
      by (by rewrite <- List.app_assoc).
    apply (IH _ r1 r' Hloop). by eapply port_arg_classified.
Qed.

(** X2.  What a successful classification returns: no key other than
    [host], [port], [options] and [pack]; under [host] a string whose
    conversion is not a finite number; under [port] a number; under
    [options] an object that is not a pack; under [pack] a pack; and every
    value is one of the arguments, or the number a string argument converts
    to. *)
Theorem port_result_shape (args : list value) (r : gmap string value) :
  port args = Ok r ->
  (forall k v, r !! k = Some v ->
     k = "host" \/ k = "port" \/ k = "options" \/ k = "pack")
  /\ (forall v, r !! "host" = Some v ->
        exists s, v = VString s /\ isFinite (ToNumber s) = false)
  /\ (forall v, r !! "port" = Some v -> exists n, v = VNumber n)
  /\ (forall v, r !! "options" = Some v ->
        typeof v = "object" /\ instanceof_Pack v = false)
  /\ (forall v, r !! "pack" = Some v -> instanceof_Pack v = true)
  /\ (forall k v, r !! k = Some v ->
        v ∈ args \/ exists s, VString s ∈ args /\ v = VNumber (ToNumber s)).
Proof.
  intros Hport. unfold port in Hport.
  destruct (length args <=? 4)%nat; [| done]. cbn in Hport.
  pose proof (port_loop_classified args [] ∅ r Hport) as Hall.
  assert (Hc : forall k v, r !! k = Some v -> classified k v /\ from_arguments args v).
  { apply Hall. intros k x Hk. by rewrite lookup_empty in Hk. }
  clear Hall. split_and!.
  - intros k v Hk. destruct (Hc k v Hk) as [[[-> _] | [[-> _] | [[-> _] | [-> _]]]] _]; tauto.
  - intros v Hk.
    by destruct (Hc _ v Hk) as [[[_ ?] | [[[=] _] | [[[=] _] | [[=] _]]]] _].
  - intros v Hk.
    by destruct (Hc _ v Hk) as [[[[=] _] | [[_ ?] | [[[=] _] | [[=] _]]]] _].
  - intros v Hk.
    by destruct (Hc _ v Hk) as [[[[=] _] | [[[=] _] | [[_ ?] | [[=] _]]]] _].
  - intros v Hk.
    by destruct (Hc _ v Hk) as [[[[=] _] | [[[=] _] | [[[=] _] | [_ ?]]]] _].
  - intros k v Hk. by destruct (Hc k v Hk) as [_ ?].
Qed.

(** X3.  A string that converts to a finite number is classified as that
    number is, wherever it stands among the arguments. *)
Theorem port_numeric_string_is_number (pre post : list value) (s : string) :
  isFinite (ToNumber s) = true ->
  port (pre ++ VString s :: post) = port (pre ++ VNumber (ToNumber s) :: post).
Proof.
  intros Hfin. unfold port. rewrite !length_app. cbn [length].
  destruct (_ <=? 4)%nat; [| done]. rewrite !assert_true, !bind_Ok.
  rewrite !port_loop_app. destruct (port_loop ∅ pre) as [r |]; [| done].
  rewrite !bind_Ok. cbn [port_loop].
  assert (Harg : port_arg r (VString s) = port_arg r (VNumber (ToNumber s))).
  { unfold port_arg. cbn. by rewrite Hfin. }
  by rewrite Harg.
Qed.

Lemma slots_cons (a : value) (rest : list value) :
  slots (a :: rest)
  = match (if positional a then fst <$> slot_of a else None) with
    | Some s => s :: slots rest
    | None => slots rest
    end.
Proof. reflexivity. Qed.

Lemma assign_swap (r : gmap string value) (x y : value) :
  NoDup (slots [x; y]) ->
  (instanceof_Pack x = true -> instanceof_Pack y = true -> x = y) ->
  assign (assign r x) y = assign (assign r y) x.
Proof.
  intros Hnd Hpack. unfold assign. unfold slots, positional in Hnd. cbn in Hnd.
  destruct (is_undefined x) eqn:Hux; [done |].
  destruct (is_undefined y) eqn:Huy; [done |].
  destruct (instanceof_Pack x) eqn:Hpx, (instanceof_Pack y) eqn:Hpy; cbn in Hnd.
  - by rewrite Hpack.
  - destruct (slot_of y) as [[sy vy] |] eqn:Hy; [| done].
    apply insert_insert_ne. by eapply slot_of_not_pack.
  - destruct (slot_of x) as [[sx vx] |] eqn:Hx; [| done].
    apply insert_insert_ne. apply not_eq_sym. by eapply slot_of_not_pack.
  - destruct (slot_of x) as [[sx vx] |] eqn:Hx, (slot_of y) as [[sy vy] |] eqn:Hy;
      try done.
    cbn in Hnd. apply insert_insert_ne. intros ->.
    apply NoDup_cons in Hnd as [Hn _]. apply Hn. by left.
Qed.

Lemma slots_sublist_tail (a : value) (rest : list value) :
  NoDup (slots (a :: rest)) -> NoDup (slots rest).
Proof.
  rewrite slots_cons. destruct (if positional a then _ else _); [| done].
  by intros [_ ?]%NoDup_cons.
Qed.

Lemma assignment_Permutation (l l' : list value) :
  l ≡ₚ l' ->
  NoDup (slots l) ->
  (forall p q, p ∈ l -> q ∈ l ->
               instanceof_Pack p = true -> instanceof_Pack q = true -> p = q) ->
  forall r, foldl assign r l = foldl assign r l'.
Proof.
  induction 1 as [| x l l' Hperm IH | x y l | l l' l'' Hp1 IH1 Hp2 IH2];
    intros Hnd Hpack r.
  - done.
  - cbn [foldl]. apply IH.
    + by eapply slots_sublist_tail.
    + intros p q Hp Hq. apply Hpack; by right.
  - cbn [foldl]. f_equal. apply assign_swap.
    + rewrite !slots_cons in Hnd |- *.
      destruct (if positional y then _ else _) as [sy |],
               (if positional x then _ else _) as [sx |]; cbn.
      * apply NoDup_cons in Hnd as [Hn1 Hnd]. apply NoDup_cons in Hnd as [Hn2 _].
        apply NoDup_cons. split; [| apply NoDup_singleton].
        intros Hin%list_elem_of_singleton. apply Hn1. subst. by left.
      * apply NoDup_singleton.
      * apply NoDup_singleton.
      * apply NoDup_nil_2.
    + intros Hy Hx. apply Hpack; [by left | right; by left | done | done].
  - rewrite IH1 by done. apply IH2.
    + unfold slots in *. by rewrite <- Hp1.
    + intros p q Hp Hq. apply Hpack; by rewrite Hp1.
Qed.

(** X4.  The order of the arguments does not matter: when the arguments go
    to slots that are all different and hold at most one pack, every
    reordering of them is classified to the same result. *)
Theorem port_order_irrelevant (args args' : list value) :
  args ≡ₚ args' ->
  (forall v, v ∈ args -> positional v = true -> is_Some (slot_of v)) ->
  NoDup (slots args) ->
  (forall p q, p ∈ args -> q ∈ args ->
               instanceof_Pack p = true -> instanceof_Pack q = true -> p = q) ->
  port args' = port args.
Proof.
  intros Hperm Hall Hnd Hpack. unfold port.
  rewrite <- (Permutation_length Hperm).
  destruct (length args <=? 4)%nat; [| done]. cbn.
  rewrite (port_loop_distinct args Hall Hnd ∅) by done.
  rewrite (port_loop_distinct args'); [| | | done].
  - f_equal. symmetry. by apply assignment_Permutation.
  - intros v Hv. apply Hall. by rewrite Hperm.
  - unfold slots in *. by rewrite <- Hperm.
Qed.

End PortMore.

(** ** The server constructor *)

Section ServerFacts.
Context `{Runtime} `{Schema}.

(** The instance [new Realm] returns is in the heap, with its settings. *)
Lemma Realm_instance (options : value) (σ σ' : Store) (realm : loc) :
  Realm options σ = (Ok realm, σ') ->
  exists settings, heap σ' !! realm = Some (RealmObject settings).
Proof.
  intros (settings & _ & -> & ->)%Realm_Ok_inv.
  exists settings. apply alloc_lookup.
Qed.

Lemma indexOf_empty (sub : string) :
  sub <> EmptyString -> indexOf EmptyString sub = (-1)%Z.
Proof. intros Hne. unfold indexOf. cbn. by destruct sub. Qed.

(** X6.  A host that contains [/] (a UNIX domain socket) or starts with the
    prefix of named pipes makes a server without a port: once the realm is
    built, the construction throws when a port is given, 0 included, and
    otherwise builds a server whose host is the resolved path (the host
    itself for a pipe), with port 0 in its information, the protocol [unix]
    or [windows], and the uri made of the protocol, [:] and the host. *)
Theorem socket_server_has_no_port (arguments : list value) (σ σ' : Store)
    (args : gmap string value) (h : string) (realm : loc) :
  port arguments = Ok args ->
  args !! "host" = Some (VString h) ->
  Realm (prop args "options") σ = (Ok realm, σ') ->
  indexOf h "/" <> (-1)%Z \/ indexOf h "\\.\pipe\" = 0%Z ->
  let unix := negb (indexOf h "/" =? -1)%Z in
  (is_undefined (prop args "port") = false ->
   new_Server arguments σ
   = (Throw (AssertionError
               (if unix then "Cannot specify port with a UNIX domain socket"
                else "Cannot specify port with a Windows named pipe")), σ'))
  /\ (is_undefined (prop args "port") = true ->
      exists srv,
        new_Server arguments σ = (Ok srv, σ')
        /\ _host srv = (if unix then Path_resolve h else h)
        /\ info_port (info srv) = of_int 0
        /\ info_protocol (info srv) = (if unix then "unix" else "windows")
        /\ info_uri (info srv)
           = Some ((if unix then "unix" else "windows") +:+ ":" +:+ _host srv)).
Proof.
  intros Hport Hhost HRealm Hsock unix.
  destruct (Realm_instance _ _ _ _ HRealm) as (settings & Hsettings).
  assert (Hne : h <> EmptyString).
  { intros ->. destruct Hsock as [Hs | Hs]; [by apply Hs | done]. }
  assert (Htruthy : truthy (VString h) = true).
  { cbn. by apply negb_true_iff, String.eqb_neq. }
  assert (Hprop : prop args "host" = VString h) by (unfold prop; by rewrite Hhost).
  assert (Hhs : default EmptyString (host_string args) = h)
    by (unfold host_string; by rewrite Hhost).
  unfold new_Server. rewrite Hport, HRealm, Hsettings. cbv zeta.
  rewrite !Hprop, !Hhs. unfold js_and. rewrite !Htruthy. fold unix.
  destruct unix eqn:Hunix.
  - split; intros Hp; rewrite Hp; cbn [truthy negb orb];
      rewrite ?orb_true_r, ?assert_true, ?assert_false, ?bind_Ok, ?bind_Throw;
      [done |].
    eexists. split; [reflexivity |]. done.
  - assert (Hpipe : (indexOf h "\\.\pipe\" =? 0)%Z = true).
    { destruct Hsock as [Hs | Hs]; [| by apply Z.eqb_eq].
      unfold unix in Hunix. apply negb_false_iff, Z.eqb_eq in Hunix. done. }
    rewrite Hpipe.
    split; intros Hp; rewrite Hp; cbn [truthy negb orb];
      rewrite ?orb_true_r, ?assert_true, ?assert_false, ?bind_Ok, ?bind_Throw;
      [done |].
    eexists. split; [reflexivity |]. done.
Qed.

End ServerFacts.

(** ** [createServer] *)

Section CreateServerFacts.
Context `{Runtime} `{Schema}.

(** The construction reads its arguments through [port] only. *)
Lemma new_Server_port (a b : list value) (σ : Store) :
  port a = port b -> new_Server a σ = new_Server b σ.
Proof. intros Hp. unfold new_Server. by rewrite Hp. Qed.

Lemma port_loop_errors (args : list value) :
  forall r e, port_loop r args = Throw e ->
    e = AssertionError "Bad server constructor arguments: no match for arg type:"
    \/ e = AssertionError "Bad server constructor arguments: duplicated arg type:".
Proof.
  induction args as [| a rest IH]; intros r e Hl; [done |].
  cbn [port_loop] in Hl. destruct (port_arg r a) as [r' | e'] eqn:Ha.
  - rewrite bind_Ok in Hl. by eapply IH.
  - rewrite bind_Throw in Hl. injection Hl as <-. unfold port_arg in Ha.
    destruct (is_undefined a); [done |]. destruct (instanceof_Pack a); [done |].
    assert (Hkey : forall key argVal,
               Hoek.assert (negb (truthy (prop r key)))
                 "Bad server constructor arguments: duplicated arg type:"
               ≫= (fun _ => Ok (<[key := argVal]> r)) = Throw e' ->
               e' = AssertionError "Bad server constructor arguments: duplicated arg type:").
    { intros key argVal Hk. destruct (negb (truthy (prop r key))); [done |].
      rewrite assert_false, bind_Throw in Hk. by injection Hk as <-. }
    destruct a as [| | b | n | s | l | l | l]; simpl in Ha;
      try destruct (isFinite (ToNumber s));
      rewrite ?argMap_number, ?argMap_string, ?argMap_object, ?argMap_boolean,
        ?argMap_function in Ha;
      try (injection Ha as <-; by left);
      right; by eapply Hkey.
Qed.

(** X5.  [createServer] builds the server of its first three arguments: a
    fourth argument, the pack, is dropped, an argument that is missing is
    [undefined], and the classification never fails on the number of
    arguments. *)
Theorem createServer_first_three (arguments : list value) (σ : Store) :
  createServer arguments σ = new_Server (take 3 arguments) σ
  /\ port [argument arguments 0; argument arguments 1; argument arguments 2]
     = port (take 3 arguments)
  /\ port [argument arguments 0; argument arguments 1; argument arguments 2]
     <> Throw (AssertionError "Too many arguments").
Proof.
  assert (Hport : port [argument arguments 0; argument arguments 1; argument arguments 2]
                  = port (take 3 arguments)).
  { unfold port.
    assert (Hlen : (length (take 3 arguments) <=? 4)%nat = true).
    { apply Nat.leb_le. rewrite length_take. lia. }
    rewrite Hlen. cbn [length Nat.leb]. rewrite !assert_true, !bind_Ok.
    rewrite (port_loop_undefined [_; _; _]), (port_loop_undefined (take 3 arguments)).
    f_equal. unfold argument.
    destruct arguments as [| a [| b [| c rest]]]; cbn [take lookup list_lookup default].
    - done.
    - rewrite !filter_cons. cbn. by destruct (decide (is_undefined a = false)).
    - rewrite !filter_cons. cbn.
      by destruct (decide (is_undefined a = false)), (decide (is_undefined b = false)).
    - done. }
  split_and!; [| done |].
  - unfold createServer. by apply new_Server_port.
  - unfold port. cbn [length Nat.leb]. rewrite assert_true, bind_Ok.
    intros Hl. by destruct (port_loop_errors _ _ _ Hl).
Qed.

End CreateServerFacts.

(** ** The server information once the listener listens *)

Section OnListeningFacts.
Context `{Runtime} `{Schema}.

(** The fields of a server the constructor built. *)
Lemma new_Server_Ok_inv (arguments : list value) (σ σ' : Store) (srv : Server) :
  new_Server arguments σ = (Ok srv, σ') ->
  exists args,
    port arguments = Ok args
    /\ let h := default EmptyString (host_string args) in
       let unix := js_and (prop args "host") (VBoolean (negb (indexOf h "/" =? -1)%Z)) in
       let pipe := js_and (prop args "host") (VBoolean (indexOf h "\\.\pipe\" =? 0)%Z) in
       let protocol := match tls (settings srv) with
                       | Some _ => "https"
                       | None => "http"
                       end in
       _unixDomainSocket srv = unix
       /\ _windowsNamedPipe srv = pipe
       /\ _host srv = (if truthy (prop args "host")
                       then if truthy unix then Path_resolve h
                            else if truthy pipe then h else toLowerCase h
                       else EmptyString)
       /\ _port srv = match port_number args, tls (settings srv) with
                      | Some n, _ => n
                      | None, Some _ => of_int 443
                      | None, None => of_int 80
                      end
       /\ info_host (info srv) = string_or (_host srv) "0.0.0.0"
       /\ (truthy unix || truthy pipe = true ->
           info_protocol (info srv) = (if truthy unix then "unix" else "windows")
           /\ info_port (info srv) = of_int 0
           /\ info_uri (info srv)
              = Some ((if truthy unix then "unix" else "windows") +:+ ":" +:+ _host srv))
       /\ (truthy unix || truthy pipe = false ->
           info_protocol (info srv) = protocol
           /\ info_port (info srv)
              = (if number_truthy (_port srv) then _port srv else of_int 0)
           /\ info_uri (info srv)
              = (if number_truthy (_port srv)
                 then Some (protocol +:+ "://"
                            +:+ string_or (_host srv) (string_or Os_hostname "localhost")
                            +:+ ":" +:+ NumberToString (_port srv))
                 else None)).
Proof.
  intros Hnew. unfold new_Server in Hnew.
  destruct (port arguments) as [args |] eqn:Hport; [| done].
  destruct (Realm (prop args "options") σ) as [[realm |] σ1] eqn:HRealm; [| done].
  destruct (heap σ1 !! realm) as [[o | settings] |]; try done.
  set (unix := js_and (prop args "host") _) in Hnew.
  set (pipe := js_and (prop args "host") _) in Hnew.
  destruct (Hoek.assert (negb (truthy unix) || _) _); [| done].
  rewrite bind_Ok in Hnew.
  destruct (Hoek.assert (negb (truthy pipe) || _) _); [| done].
  rewrite bind_Ok in Hnew. injection Hnew as <- <-.
  exists args. split; [done |]. cbn. fold unix. fold pipe. split_and!; try done.
  - by destruct (truthy unix || truthy pipe).
  - intros Hsock. by rewrite Hsock.
  - intros Hsock. rewrite Hsock. split_and!; try done.
    destruct (number_truthy _) eqn:Hp; by rewrite ?Hp.
Qed.

(** X7.  The information of a server that is on neither a socket nor a
    pipe: the host in lower case; the port given, or 443 with TLS settings
    and 80 without; the protocol [https] with TLS settings and [http]
    without; [info.host] the host or [0.0.0.0]; [info.port] the port; and
    [info.uri] made of the protocol, the host (or the host name of the
    machine, or [localhost]) and the port -- or absent when the port is 0. *)
Theorem tcp_server_information (arguments : list value) (σ σ' : Store)
    (srv : Server) :
  new_Server arguments σ = (Ok srv, σ') ->
  truthy (_unixDomainSocket srv) = false ->
  truthy (_windowsNamedPipe srv) = false ->
  let protocol := match tls (settings srv) with
                  | Some _ => "https"
                  | None => "http"
                  end in
  exists args,
    port arguments = Ok args
    /\ _host srv = toLowerCase (default EmptyString (host_string args))
    /\ _port srv = match port_number args, tls (settings srv) with
                   | Some n, _ => n
                   | None, Some _ => of_int 443
                   | None, None => of_int 80
                   end
    /\ info_host (info srv) = string_or (_host srv) "0.0.0.0"
    /\ info_protocol (info srv) = protocol
    /\ info_port (info srv)
       = (if number_truthy (_port srv) then _port srv else of_int 0)
    /\ info_uri (info srv)
       = (if number_truthy (_port srv)
          then Some (protocol +:+ "://"
                     +:+ string_or (_host srv) (string_or Os_hostname "localhost")
                     +:+ ":" +:+ NumberToString (_port srv))
          else None).
Proof.
  intros Hnew Hunix Hpipe protocol.
  destruct (new_Server_Ok_inv _ _ _ _ Hnew)
    as (args & Hport & Hu & Hp & Hhost & Hpo & Hih & _ & Htcp).
  rewrite <- Hu, <- Hp in Hhost, Htcp. rewrite Hunix, Hpipe in Hhost, Htcp.
  destruct (Htcp eq_refl) as (Hproto & Hiport & Huri).
  exists args. split_and!; try done.
  rewrite Hhost. unfold prop, host_string.
  destruct (args !! "host") as [v |]; [| done].
  destruct v as [| | b | n | s | l | l | l]; cbn; try done.
  - by destruct b.
  - by destruct (number_truthy n).
  - by destruct (String.eqb_spec s EmptyString) as [-> |].
Qed.

(** X8.  Once the listener of a server on a TCP port listens,
    [onListening] writes the port the listener reports into the
    information and builds the uri from it: the uri is there also for a
    server that asked for port 0 and had none, and it is the uri of the
    constructor when the listener reports the port that was asked for.  The
    host is the configured one, or the address the listener reports, or
    [0.0.0.0]. *)
Theorem listening_tcp_information (arguments : list value) (σ σ' : Store)
    (srv : Server) (address : string) (p : number) :
  new_Server arguments σ = (Ok srv, σ') ->
  truthy (_unixDomainSocket srv) = false ->
  truthy (_windowsNamedPipe srv) = false ->
  let live := onListening srv (TcpAddress address p) in
  let protocol := match tls (settings srv) with
                  | Some _ => "https"
                  | None => "http"
                  end in
  live_port live = VNumber p
  /\ live_protocol live = protocol
  /\ live_host live
     = VString (string_or (_host srv) (string_or address "0.0.0.0"))
  /\ live_uri live
     = Some (protocol +:+ "://"
             +:+ string_or (_host srv) (string_or Os_hostname "localhost")
             +:+ ":" +:+ NumberToString p)
  /\ (number_truthy (_port srv) = false -> info_uri (info srv) = None)
  /\ (number_truthy (_port srv) = true -> p = _port srv ->
      live_uri live = info_uri (info srv)).
Proof.
  intros Hnew Hunix Hpipe live protocol.
  destruct (new_Server_Ok_inv _ _ _ _ Hnew)
    as (args & _ & Hu & Hpi & _ & _ & _ & _ & Htcp).
  rewrite <- Hu, <- Hpi, Hunix, Hpipe in Htcp.
  destruct (Htcp eq_refl) as (Hproto & _ & Huri). fold protocol in Hproto, Huri.
  unfold live, onListening. rewrite Hunix, Hproto. cbn.
  split_and!; try done.
  - unfold js_or, string_or. cbn [truthy].
    destruct (String.eqb (_host srv) EmptyString) eqn:Hh; cbn [negb truthy];
      [| by rewrite Hh].
    by destruct (String.eqb address EmptyString) eqn:Ha; cbn [negb]; rewrite ?Ha.
  - intros Hp. by rewrite Huri, Hp.
  - intros Hp ->. by rewrite Huri, Hp.
Qed.

(** X9.  Once the listener of a server on a socket or a pipe listens: the
    test of [onListening] lets the update through unless the host is both a
    socket path and a pipe name, so the port of the information, 0 after the
    constructor, becomes [undefined] -- the path the listener reports has no
    [port] -- and the uri, the protocol, [:] and the host after the
    constructor, becomes the protocol, [://], the host and [:undefined].
    With a host that is both, the information stays as the constructor made
    it. *)
Theorem listening_socket_information (arguments : list value) (σ σ' : Store)
    (srv : Server) (path : string) :
  new_Server arguments σ = (Ok srv, σ') ->
  truthy (_unixDomainSocket srv) || truthy (_windowsNamedPipe srv) = true ->
  let live := onListening srv (PathAddress path) in
  let protocol := if truthy (_unixDomainSocket srv) then "unix" else "windows" in
  info_port (info srv) = of_int 0
  /\ info_uri (info srv) = Some (protocol +:+ ":" +:+ _host srv)
  /\ live_protocol live = protocol
  /\ (truthy (_unixDomainSocket srv) && truthy (_windowsNamedPipe srv) = false ->
      live_port live = VUndefined
      /\ live_host live = VString (string_or (_host srv) "0.0.0.0")
      /\ live_uri live
         = Some (protocol +:+ "://"
                 +:+ string_or (_host srv) (string_or Os_hostname "localhost")
                 +:+ ":undefined"))
  /\ (truthy (_unixDomainSocket srv) && truthy (_windowsNamedPipe srv) = true ->
      live_port live = VNumber (of_int 0)
      /\ live_uri live = Some (protocol +:+ ":" +:+ _host srv)).
Proof.
  intros Hnew Hsocket live protocol.
  destruct (new_Server_Ok_inv _ _ _ _ Hnew)
    as (args & _ & Hu & Hpi & _ & _ & _ & Hsock & _).
  rewrite <- Hu, <- Hpi in Hsock.
  destruct (Hsock Hsocket) as (Hproto & Hport & Huri).
  fold protocol in Hproto, Huri.
  unfold live, onListening. rewrite Hproto, Hport, Huri.
  split_and!; try done.
  - by destruct (negb _ || negb _).
  - intros Hboth.
    assert (Hguard : negb (truthy (_unixDomainSocket srv))
                     || negb (truthy (_windowsNamedPipe srv)) = true).
    { by destruct (truthy (_unixDomainSocket srv)), (truthy (_windowsNamedPipe srv)). }
    rewrite Hguard. cbn. split_and!; try done.
    unfold js_or, string_or. cbn [truthy].
    by destruct (String.eqb (_host srv) EmptyString) eqn:Hh; cbn [negb truthy];
      rewrite ?Hh.
  - intros Hboth.
    assert (Hguard : negb (truthy (_unixDomainSocket srv))
                     || negb (truthy (_windowsNamedPipe srv)) = false).
    { by destruct (truthy (_unixDomainSocket srv)), (truthy (_windowsNamedPipe srv)). }
    by rewrite Hguard.
Qed.

End OnListeningFacts.

(** ** Injection *)

Lemma Utils_shallow_fresh (source : loc) (h : Objects) :
  h !! (Utils_shallow source h).1 = None.
Proof. apply not_elem_of_dom, is_fresh. Qed.

(** [inject] on an options object, computed. *)
Lemma inject_eq (options : loc) (h : Objects) (o : gmap string value) :
  h !! options = Some o ->
  inject options h
  = if truthy (prop o "credentials")
    then ({| needle := {| dispatch_credentials := prop o "credentials" |};
             shot_settings := fresh (dom h) |},
          <[fresh (dom h) := delete "credentials" o]> h)
    else ({| needle := {| dispatch_credentials := prop o "credentials" |};
             shot_settings := options |}, h).
Proof.
  intros Ho. unfold inject. rewrite Ho.
  change (default ∅ (Some o)) with o.
  destruct (truthy (prop o "credentials")).
  - pose proof (Utils_shallow_fresh options h) as Hfresh.
    unfold Utils_shallow in *. cbn [fst] in Hfresh.
    assert (Hne : fresh (dom h) <> options)
      by (intros Heq; rewrite Heq in Hfresh; congruence).
    cbv beta iota zeta. unfold delete_property. unfold Objects in *.
    rewrite lookup_insert_eq, insert_insert_eq, Ho.
    change (default ∅ (Some o)) with o.
    rewrite lookup_insert_ne by done. by rewrite Ho.
  - by rewrite Ho.
Qed.

(** X19.  [inject] leaves the options object of the caller as it is, and
    every other object too; the settings it hands to the injection have no
    truthy [credentials] and are the options in every other property; the
    credentials go to the dispatch instead, and the request the dispatch
    function makes carries them.  Options without truthy credentials are
    handed over as they are, with no copy; options with credentials are
    copied to a new object, from which [credentials] is deleted.  When the
    injection calls back, the result is the one the raw response holds, or
    the payload when it holds none, and nothing is left on the raw
    response. *)
Theorem inject_strips_credentials (options : loc) (h : Objects)
    (o : gmap string value) :
  h !! options = Some o ->
  let inj := (inject options h).1 in
  let h' := (inject options h).2 in
  (forall l x, h !! l = Some x -> h' !! l = Some x)
  /\ dispatch_credentials (needle inj) = prop o "credentials"
  /\ (forall load rq rs,
        executed (_dispatch (Some (needle inj)) true load rq rs)
        = [ {| req := rq; res := rs;
               request_options :=
                 {| dispatch_credentials := prop o "credentials" |} |} ])
  /\ (exists s, h' !! shot_settings inj = Some s
                /\ truthy (prop s "credentials") = false
                /\ forall k, k <> "credentials" -> s !! k = o !! k)
  /\ (truthy (prop o "credentials") = false ->
      shot_settings inj = options /\ h' = h)
  /\ (truthy (prop o "credentials") = true ->
      h !! shot_settings inj = None
      /\ h' !! shot_settings inj = Some (delete "credentials" o))
  /\ (forall res,
        raw_res_hapi (onInjected res) = None
        /\ res_result (onInjected res)
           = default (res_payload res) (raw_res_hapi res)).
Proof.
  intros Ho inj h'. unfold inj, h'. rewrite (inject_eq options h o Ho).
  unfold Objects in *.
  assert (Hres : forall res,
             raw_res_hapi (onInjected res) = None
             /\ res_result (onInjected res)
                = default (res_payload res) (raw_res_hapi res)).
  { intros res. unfold onInjected. by destruct (raw_res_hapi res). }
  destruct (truthy (prop o "credentials")) eqn:Hc; cbn [fst snd needle shot_settings
                                                        dispatch_credentials].
  - assert (Hfresh : h !! fresh (dom h) = None) by apply not_elem_of_dom, is_fresh.
    split_and!; try done.
    + intros l x Hl. rewrite lookup_insert_ne; [done |]. intros <-. congruence.
    + exists (delete "credentials" o). rewrite lookup_insert_eq.
      split_and!; [done | |].
      * unfold prop. by rewrite lookup_delete_eq.
      * intros k Hk. by rewrite lookup_delete_ne.
    + intros _. by rewrite lookup_insert_eq.
  - split_and!; try done. exists o. by split_and!.
Qed.

(** ** Views *)

Section ViewsFacts.
Context `{Vision}.

Lemma new_Manager_Ok (options : value) (v v' : Views) (m : loc) :
  new_Manager options v = Ok (m, v') ->
  managers v !! m = None
  /\ managers v' = <[m := {| manager_options := options |}]> (managers v)
  /\ server_views v' = server_views v
  /\ realm_views v' = realm_views v.
Proof.
  unfold new_Manager. destruct (Manager_check options); [| done].
  rewrite bind_Ok. intros [= <- <-]. split_and!; try done.
  apply not_elem_of_dom, is_fresh.
Qed.

Lemma call_views_state (c : views_call) (v v' : Views) :
  views_state v -> call_views c v = Ok v' -> views_state v'.
Proof.
  intros Hv Hc. destruct c as [options | options]; cbn [call_views] in Hc.
  - unfold XXX_views in Hc.
    destruct (server_views v) as [m0 |] eqn:Hs.
    { by rewrite bool_decide_eq_true_2 in Hc by (by eexists). }
    rewrite bool_decide_eq_false_2 in Hc by (by intros [? ?]).
    cbn [negb] in Hc. rewrite assert_true, bind_Ok in Hc.
    destruct (new_Manager options v) as [[m v1] | e] eqn:Hnew; [| done].
    rewrite bind_Ok in Hc. injection Hc as <-.
    apply new_Manager_Ok in Hnew as (Hfresh & Hm & _ & _).
    right. right. exists m. cbn. split_and!; try done.
    + rewrite Hm. rewrite lookup_insert_eq. by eexists.
    + rewrite Hm, map_size_insert_None by done.
      destruct Hv as [(_ & _ & ->) | [(_ & ? & _ & _ & ->) | (? & ? & _)]];
        [rewrite map_size_empty; lia | lia | congruence].
  - unfold Realm_views in Hc.
    destruct (realm_views v) as [m0 |] eqn:Hr.
    { by rewrite bool_decide_eq_true_2 in Hc by (by eexists). }
    rewrite bool_decide_eq_false_2 in Hc by (by intros [? ?]).
    cbn [negb] in Hc. rewrite assert_true, bind_Ok in Hc.
    destruct (new_Manager options v) as [[m v1] | e] eqn:Hnew; [| done].
    rewrite bind_Ok in Hc. injection Hc as <-.
    apply new_Manager_Ok in Hnew as (Hfresh & Hm & Hs1 & _).
    destruct Hv as [(Hs & _ & Hempty) | [(_ & ? & ? & _) | (? & _ & ? & _)]];
      [| congruence | congruence].
    right. left. cbn. split; [congruence |]. exists m. split_and!; try done.
    + rewrite Hm, lookup_insert_eq. by eexists.
    + by rewrite Hm, Hempty, map_size_insert_None, map_size_empty.
Qed.

Lemma views_all_state (calls : list views_call) (v : Views) :
  views_state v -> views_state (views_all calls v).
Proof.
  revert v. unfold views_all.
  induction calls as [| c rest IH]; intros v Hv; [done |].
  cbn [foldl]. apply IH.
  destruct (call_views c v) as [v' | e] eqn:Hc; [| done].
  by eapply call_views_state.
Qed.

(** X20.  The views manager of a server and the one of its realm, after any
    calls of [views] on the two.  A server that has a manager shares it
    with its realm, and from then on every call, on the server or on the
    realm, throws; no more than two managers are ever made.  While the
    realm has a manager that the server does not have -- after [views] on
    the realm -- a call on the realm throws, but the guard of the server's
    [views] is the server's own [_views]: a call on the server goes through
    and puts a new manager in the place of the realm's. *)
Theorem views_shared_manager (calls : list views_call) :
  let v := views_all calls constructed_views in
  (forall m, server_views v = Some m -> realm_views v = Some m)
  /\ (forall m, realm_views v = Some m -> is_Some (managers v !! m))
  /\ (size (managers v) <= 2)%nat
  /\ (forall m, server_views v = Some m ->
        forall c,
          call_views c v
          = Throw (AssertionError "Cannot set server views manager more than once"))
  /\ (forall m, realm_views v = Some m -> server_views v = None ->
        (forall options,
           Realm_views options v
           = Throw (AssertionError "Cannot set server views manager more than once"))
        /\ forall options v',
             XXX_views options v = Ok v' ->
             exists m', m' <> m
                        /\ realm_views v' = Some m'
                        /\ server_views v' = Some m'
                        /\ managers v' !! m'
                           = Some {| manager_options := options |}).
Proof.
  intros v.
  assert (Hv : views_state v).
  { apply views_all_state. left. by split_and!. }
  split_and!.
  - intros m Hs.
    destruct Hv as [(? & _) | [(? & _) | (m' & ? & ? & _)]]; congruence.
  - intros m Hr.
    destruct Hv as [(_ & ? & _) | [(_ & m' & ? & ? & _) | (m' & _ & ? & ? & _)]];
      congruence.
  - destruct Hv as [(_ & _ & ->) | [(_ & _ & _ & _ & ->) | (_ & _ & _ & _ & ?)]];
      [rewrite map_size_empty; lia | lia | done].
  - intros m Hs c.
    assert (Hr : realm_views v = Some m).
    { destruct Hv as [(? & _) | [(? & _) | (m' & ? & ? & _)]]; congruence. }
    destruct c as [options | options]; cbn [call_views];
      unfold XXX_views, Realm_views; rewrite ?Hs, ?Hr;
      by rewrite bool_decide_eq_true_2 by (by eexists).
  - intros m Hr Hs. split.
    + intros options. unfold Realm_views. rewrite Hr.
      by rewrite bool_decide_eq_true_2 by (by eexists).
    + intros options v' Hc. unfold XXX_views in Hc. rewrite Hs in Hc.
      rewrite bool_decide_eq_false_2 in Hc by (by intros [? ?]).
      cbn [negb] in Hc. rewrite assert_true, bind_Ok in Hc.
      destruct (new_Manager options v) as [[m' v1] | e] eqn:Hnew; [| done].
      rewrite bind_Ok in Hc. injection Hc as <-.
      apply new_Manager_Ok in Hnew as (Hfresh & Hm & _ & _).
      exists m'. cbn. split_and!; try done.
      * intros ->.
        destruct Hv as [(_ & ? & _) | [(_ & m0 & ? & [? ?] & _) | (? & ? & _)]];
          congruence.
      * rewrite Hm. apply lookup_insert_eq.
Qed.

End ViewsFacts.

(** The realm's manager replaced: [views] on the realm, then on the server. *)
Example views_realm_then_server :
  let vision := {| Manager_check := fun _ => Ok tt |} in
  let v := views_all (H := vision)
             [OnRealm (VString "first"); OnServer (VString "second")]
             constructed_views in
  exists m,
    realm_views v = Some m /\ server_views v = Some m
    /\ managers v !! m = Some {| manager_options := VString "second" |}
    /\ size (managers v) = 2%nat.
Proof. eexists. by vm_compute. Qed.

(** ** Settings resolution, further *)

Lemma existsb_eqb_elem_of (x : string) (seen : list string) :
  existsb (String.eqb x) seen = bool_decide (x ∈ seen).
Proof.
  induction seen as [| y rest IH]; [done |]. cbn [existsb]. rewrite IH.
  destruct (String.eqb_spec x y) as [-> | Hne].
  - by rewrite (bool_decide_eq_true_2 (y ∈ y :: rest)) by (by left).
  - cbn. apply bool_decide_ext. rewrite elem_of_cons. intuition congruence.
Qed.

(** [Hoek.unique] keeps the first occurrence of every element, in order. *)
Lemma unique_from_spec (a : list string) :
  forall seen,
    NoDup (Hoek.unique_from seen a)
    /\ (forall x, x ∈ Hoek.unique_from seen a <-> x ∈ a /\ x ∉ seen)
    /\ Hoek.unique_from seen a `sublist_of` a.
Proof.
  induction a as [| y rest IH]; intros seen.
  - cbn. split_and!; [apply NoDup_nil_2 | | done].
    intros x. split; [by intros ?%elem_of_nil | by intros [?%elem_of_nil _]].
  - cbn [Hoek.unique_from]. rewrite existsb_eqb_elem_of.
    case_bool_decide as Hy.
    + destruct (IH seen) as (Hnd & Hel & Hsub). split_and!; [done | | by apply sublist_cons].
      intros x. rewrite Hel, elem_of_cons. intuition congruence.
    + destruct (IH (y :: seen)) as (Hnd & Hel & Hsub).
      split_and!; [| | by apply sublist_skip].
      * apply NoDup_cons. split; [| done]. rewrite Hel.
        intros [_ Hn]. apply Hn. by left.
      * intros x. rewrite !elem_of_cons, Hel, not_elem_of_cons.
        destruct (decide (x = y)) as [-> | Hne]; intuition congruence.
Qed.

Lemma unique_from_NoDup (a : list string) :
  forall seen, NoDup a -> (forall x, x ∈ a -> x ∉ seen) ->
               Hoek.unique_from seen a = a.
Proof.
  induction a as [| y rest IH]; intros seen Hnd Hdis; [done |].
  apply NoDup_cons in Hnd as [Hy Hnd].
  cbn [Hoek.unique_from]. rewrite existsb_eqb_elem_of.
  rewrite bool_decide_eq_false_2 by (apply Hdis; by left).
  f_equal. apply IH; [done |].
  intros x Hx. apply not_elem_of_cons. split; [by intros -> |].
  apply Hdis. by right.
Qed.

(** [Hoek.unique] keeps an entry when, and only when, the entry does not
    occur earlier: for an array [a] that comes after the entries [pre], of
    which [seen] holds the elements. *)
Lemma unique_from_first (a : list string) :
  forall seen pre,
    (forall x, x ∈ seen <-> x ∈ pre) ->
    Hoek.unique_from seen a
    = (filter (fun p : nat * string => p.2 ∉ take p.1 (pre ++ a)%list)
         (imap (fun i x => (length pre + i, x)%nat) a)).*2.
Proof.
  induction a as [| y rest IH]; intros seen pre Hseen; [done |].
  cbn [Hoek.unique_from]. rewrite existsb_eqb_elem_of, imap_cons, filter_cons.
  cbn [snd fst].
  assert (Htake : take (length pre + 0) (pre ++ y :: rest)%list = pre).
  { by rewrite Nat.add_0_r, take_app_length. }
  assert (Hrest : forall seen',
             (forall x, x ∈ seen' <-> x ∈ (pre ++ [y])%list) ->
             Hoek.unique_from seen' rest
             = (filter (fun p : nat * string => p.2 ∉ take p.1 (pre ++ y :: rest)%list)
                  (imap ((fun i x => (length pre + i, x)%nat) ∘ S) rest)).*2).
  { intros seen' Hseen'. rewrite (IH seen' (pre ++ [y])%list Hseen').
    rewrite <- List.app_assoc. cbn [app]. do 2 f_equal.
    apply imap_ext. intros i x _. cbn. rewrite length_app. cbn. f_equal. lia. }
  case_bool_decide as Hy.
  - rewrite decide_False by (rewrite Htake; intros Hn; apply Hn; by apply Hseen).
    apply Hrest. intros x. rewrite elem_of_app, list_elem_of_singleton, Hseen.
    split; [tauto |]. intros [Hx | ->]; [done | by apply Hseen].
  - rewrite decide_True by (rewrite Htake; intros Hn; apply Hy; by apply Hseen).
    cbn [fmap list_fmap snd]. f_equal.
    apply Hrest. intros x.
    rewrite elem_of_cons, elem_of_app, list_elem_of_singleton, Hseen. tauto.
Qed.

Lemma mapToObject_lookup (a : list Z) (code : Z) :
  forall m : gmap Z bool,
    foldl (fun obj k => <[k := true]> obj) m a !! code
    = if bool_decide (code ∈ a) then Some true else m !! code.
Proof.
  induction a as [| k rest IH]; intros m; [done |].
  cbn [foldl]. rewrite IH.
  destruct (decide (code = k)) as [-> | Hne].
  - rewrite (bool_decide_eq_true_2 (k ∈ k :: rest)) by (by left).
    case_bool_decide; [done |]. by rewrite lookup_insert_eq.
  - rewrite lookup_insert_ne by done.
    apply (f_equal (fun b : bool => if b then Some true else m !! code)).
    apply bool_decide_ext. rewrite elem_of_cons. intuition congruence.
Qed.

(** The last character. *)
Lemma append_String (c : ascii) (s t : string) :
  String c s +:+ t = String c (s +:+ t).
Proof. reflexivity. Qed.

Lemma string_snoc (s : string) :
  s <> EmptyString -> exists p c, s = p +:+ String c EmptyString.
Proof.
  induction s as [| c rest IH]; [done |]. intros _.
  destruct rest as [| d rest'].
  - by exists EmptyString, c.
  - destruct IH as (p & e & Hp); [done |].
    exists (String c p), e. by rewrite append_String, Hp.
Qed.

Lemma length_snoc (p : string) (c : ascii) :
  String.length (p +:+ String c EmptyString) = S (String.length p).
Proof.
  induction p as [| d p IH]; [done |].
  rewrite append_String. cbn [String.length]. by rewrite IH.
Qed.

Lemma get_snoc (p : string) (c : ascii) :
  String.get (String.length p) (p +:+ String c EmptyString) = Some c.
Proof.
  induction p as [| d p IH]; [done |].
  rewrite append_String. cbn [String.length String.get]. exact IH.
Qed.

Lemma charAt_last (p : string) (c : ascii) :
  let s := p +:+ String c EmptyString in
  charAt s (Z.of_nat (String.length s) - 1) = String c EmptyString.
Proof.
  intros s. unfold s, charAt. rewrite length_snoc.
  replace (Z.of_nat (S (String.length p)) - 1)%Z with (Z.of_nat (String.length p)) by lia.
  destruct (Z.ltb_spec (Z.of_nat (String.length p)) 0) as [Hlt | _]; [lia |].
  by rewrite Nat2Z.id, get_snoc.
Qed.

(** The location assertion fails exactly on a location that ends in [/]. *)
Lemma location_ok_spec (location : string) :
  location_ok location = false <-> exists p, location = p +:+ "/".
Proof.
  unfold location_ok. split.
  - intros Hl. apply orb_false_elim in Hl as [Hne Hlast].
    apply String.eqb_neq in Hne. apply negb_false_iff, String.eqb_eq in Hlast.
    destruct (string_snoc location Hne) as (p & c & ->).
    rewrite charAt_last in Hlast. injection Hlast as ->. by exists p.
  - intros [p ->]. rewrite (charAt_last p "/").
    apply orb_false_intro; [| done].
    apply String.eqb_neq. by destruct p.
Qed.

Lemma generate_cors_errors (c : Cors) (e : error) :
  generate_cors c = Throw e ->
  e = AssertionError "Cannot specify cors.origin * together with other values"
  \/ e = AssertionError "Cannot include wildcard origin values with matchOrigin disabled".
Proof.
  unfold generate_cors. cbn [origin matchOrigin set_cors_derived].
  destruct (negb (length (origin c) =? 0)%nat); [| done].
  destruct (negb (array_indexOf (origin c) "*" =? -1)%Z).
  - destruct (length (origin c) =? 1)%nat; [done |]. intros [= <-]. by left.
  - destruct (matchOrigin c || _); [done |]. intros [= <-]. by right.
Qed.

Section ResolveFacts.
Context `{Runtime} `{Schema}.

Lemma generate_security_errors (s : Security) (e : error) :
  generate_security s = Throw e -> exists m, e = TypeError m.
Proof.
  unfold generate_security.
  set (s1 := if hsts_truthy (hsts s) then _ else s).
  destruct (xframe_truthy (xframe s1)); [| done].
  unfold xframe_header.
  destruct (xframe s1) as [b | str | rule source]; try done.
  case_bool_decide.
  - destruct source as [src |]; [by destruct (negb _) | done].
  - destruct rule; [done |]. intros [= <-]. by eexists.
Qed.

(** What a successful resolution went through. *)
Lemma resolve_Ok_inv (d : Defaults) (settings : Options) (s : Settings) :
  resolve d settings = Ok s ->
  Schema_server settings = true
  /\ check_basic settings = Ok tt
  /\ tls s = o_tls settings
  /\ location s = o_location settings
  /\ cacheControlStatus s = o_cacheControlStatus settings
  /\ timeout s = o_timeout settings
  /\ labels s = Hoek.unique (concat_labels (o_labels settings))
  /\ _cacheControlStatus s = Hoek.mapToObject (o_cacheControlStatus settings)
  /\ match Hoek.applyToDefaults Hoek.merge_cors (defaults_cors d) (o_cors settings) with
     | Some c => exists c', generate_cors c = Ok c' /\ cors s = Some c'
     | None => cors s = None
     end
  /\ match Hoek.applyToDefaults Hoek.merge_security (defaults_security d)
             (o_security settings) with
     | Some x => exists x', generate_security x = Ok x' /\ security s = Some x'
     | None => security s = None
     end.
Proof.
  unfold resolve. intros Hr.
  destruct (Schema_server settings); [| done]. rewrite assert_true, bind_Ok in Hr.
  destruct (check_basic settings) as [[] |]; [| done]. rewrite bind_Ok in Hr.
  destruct (Hoek.applyToDefaults Hoek.merge_cors _ _) as [c |].
  - destruct (generate_cors c) as [c' |]; [| done]. rewrite !bind_Ok in Hr.
    destruct (Hoek.applyToDefaults Hoek.merge_security _ _) as [x |].
    + destruct (generate_security x) as [x' |]; [| done]. rewrite !bind_Ok in Hr.
      injection Hr as <-. split_and!; try done; by eexists.
    + rewrite bind_Ok in Hr. injection Hr as <-. split_and!; try done; by eexists.
  - rewrite bind_Ok in Hr.
    destruct (Hoek.applyToDefaults Hoek.merge_security _ _) as [x |].
    + destruct (generate_security x) as [x' |]; [| done]. rewrite !bind_Ok in Hr.
      injection Hr as <-. split_and!; try done; by eexists.
    + rewrite bind_Ok in Hr. injection Hr as <-. by split_and!.
Qed.

(** X10.  For settings the schema accepts, the construction fails with the
    location error exactly when the location ends in [/]; the empty location
    passes. *)
Theorem location_trailing_slash (d : Defaults) (settings : Options) :
  Schema_server settings = true ->
  resolve d settings
  = Throw (AssertionError "Location setting must not contain a trailing '/'")
  <-> exists p, o_location settings = p +:+ "/".
Proof.
  intros Hschema. rewrite <- location_ok_spec. unfold resolve.
  rewrite Hschema, assert_true, bind_Ok, check_basic_spec.
  destruct (location_ok (o_location settings)); cbn [negb]; [| done].
  split; [| done]. intros Hr. exfalso.
  destruct (not_below_socket (server _) _); [done |].
  destruct (not_below_socket (client _) _); [done |].
  rewrite bind_Ok in Hr.
  destruct (Hoek.applyToDefaults Hoek.merge_cors _ _) as [c |].
  - destruct (generate_cors c) as [c' | e] eqn:Hc.
    2:{ rewrite !bind_Throw in Hr. injection Hr as ->.
        by destruct (generate_cors_errors _ _ Hc). }
    rewrite !bind_Ok in Hr.
    destruct (Hoek.applyToDefaults Hoek.merge_security _ _) as [x |]; [| done].
    destruct (generate_security x) as [x' | e] eqn:Hx; [done |].
    rewrite !bind_Throw in Hr. injection Hr as ->.
    by destruct (generate_security_errors _ _ Hx).
  - rewrite bind_Ok in Hr.
    destruct (Hoek.applyToDefaults Hoek.merge_security _ _) as [x |]; [| done].
    destruct (generate_security x) as [x' | e] eqn:Hx; [done |].
    rewrite !bind_Throw in Hr. injection Hr as ->.
    by destruct (generate_security_errors _ _ Hx).
Qed.

(** X11.  The labels of a resolved server are the labels given, in the
    order given, each kept at its first occurrence and dropped where it
    occurs again: they are the entries of the list given that do not occur
    earlier in that list.  So they are without duplicates and have the same
    elements as the labels given; labels given without duplicates are kept
    as they are, and a label given as a string becomes the one-element
    list. *)
Theorem labels_are_unique (d : Defaults) (settings : Options) (s : Settings) :
  resolve d settings = Ok s ->
  let given := concat_labels (o_labels settings) in
  labels s = (filter (fun p : nat * string => p.2 ∉ take p.1 given)
                (imap pair given)).*2
  /\ NoDup (labels s)
  /\ (forall x, x ∈ labels s <-> x ∈ given)
  /\ labels s `sublist_of` given
  /\ (NoDup given -> labels s = given)
  /\ (forall l, o_labels settings = LabelString l -> labels s = [l]).
Proof.
  intros (_ & _ & _ & _ & _ & _ & -> & _)%resolve_Ok_inv given. fold given.
  destruct (unique_from_spec given []) as (Hnd & Hel & Hsub).
  split_and!; try done.
  - by apply (unique_from_first given [] []).
  - intros x. rewrite Hel. split; [by intros [? _] |].
    intros Hx. split; [done | apply not_elem_of_nil].
  - intros Hgiven. apply unique_from_NoDup; [done |].
    intros x _. apply not_elem_of_nil.
  - intros l Hl. unfold given. by rewrite Hl.
Qed.

(** X12.  The map [_cacheControlStatus] of a resolved server holds [true]
    for the status codes of [cacheControlStatus], and nothing else. *)
Theorem cacheControlStatus_lookup (d : Defaults) (settings : Options) (s : Settings) :
  resolve d settings = Ok s ->
  forall code,
    _cacheControlStatus s !! code
    = if bool_decide (code ∈ cacheControlStatus s) then Some true else None.
Proof.
  intros (_ & _ & _ & _ & -> & _ & _ & -> & _)%resolve_Ok_inv code.
  unfold Hoek.mapToObject. by rewrite mapToObject_lookup.
Qed.

End ResolveFacts.

(** Every origin has a star or has none. *)
Lemma star_partition_length (l : list string) :
  (length (filter (fun s => contains "*" s = false) l)
   + length (filter (fun s => contains "*" s = true) l) = length l)%nat.
Proof.
  induction l as [| y rest IH]; [done |]. rewrite !filter_cons.
  destruct (decide (contains "*" y = false)) as [Hf | Hf];
    destruct (decide (contains "*" y = true)) as [Ht | Ht]; cbn [length].
  - congruence.
  - lia.
  - lia.
  - by destruct (contains "*" y).
Qed.

(** X13.  What "Generate CORS headers" leaves in a cors object: the three
    header strings are the configured names followed by the additional ones,
    joined by [, ]; the configured origins are untouched; with no origin
    there is no [_origin]; with [any] set the origins are [['*']] and nothing
    is qualified or compiled; otherwise there is no ['*'], every origin is
    either qualified or compiled, the qualified ones being the origins
    without a [*], and with [matchOrigin] false no pattern is kept. *)
Theorem cors_origins_accounted (c c' : Cors) :
  _origin c = None ->
  generate_cors c = Ok c' ->
  _headers c' = Some (join (headers c ++ additionalHeaders c) ", ")
  /\ _methods c' = Some (join (methods c ++ additionalMethods c) ", ")
  /\ _exposedHeaders c' = Some (join (exposedHeaders c ++ additionalExposedHeaders c) ", ")
  /\ origin c' = origin c
  /\ match _origin c' with
     | None => origin c = []
     | Some o =>
         if any o
         then origin c = ["*"] /\ qualified o = [] /\ wildcards o = []
         else origin c <> [] /\ ("*" ∉ origin c)
              /\ (length (qualified o) + length (wildcards o) = length (origin c))%nat
              /\ (forall x, x ∈ qualified o <-> x ∈ origin c /\ contains "*" x = false)
              /\ (matchOrigin c = false -> wildcards o = [])
     end.
Proof.
  intros Hnone. unfold generate_cors. cbn [origin matchOrigin set_cors_derived].
  destruct (decide (origin c = [])) as [He | Hne].
  { rewrite He. cbn. intros [= <-]. cbn. rewrite Hnone. split_and!; try done. }
  assert (Hlen : (length (origin c) =? 0)%nat = false).
  { apply Nat.eqb_neq. by destruct (origin c). }
  rewrite Hlen. cbn [negb]. rewrite array_indexOf_star, origin_loop_spec.
  cbn [wildcards qualified app].
  case_bool_decide as Hstar.
  - destruct (origin c) as [| x [| y rest]] eqn:Ho; [done | |].
    + cbn [length Nat.eqb]. rewrite assert_true, bind_Ok. intros [= <-]. cbn.
      apply list_elem_of_singleton in Hstar as ->. rewrite Ho. split_and!; try done.
    + cbn [length Nat.eqb]. by rewrite assert_false, bind_Throw.
  - destruct (matchOrigin c || _) eqn:Hm;
      [| by rewrite assert_false, bind_Throw].
    rewrite assert_true, bind_Ok. intros [= <-]. cbn.
    split_and!; try done.
    + rewrite length_fmap. apply star_partition_length.
    + intros y. rewrite list_elem_of_filter. tauto.
    + intros Hmatch. rewrite Hmatch in Hm. cbn in Hm.
      apply Nat.eqb_eq in Hm. rewrite length_fmap in Hm.
      by rewrite (nil_length_inv _ Hm).
Qed.

(** ** What the patterns match *)

(** Every syntax character is among the characters [Hoek.escapeRegex]
    escapes. *)
Lemma syntax_is_special (c : ascii) :
  Hoek.is_special c = false -> is_syntax c = false.
Proof.
  intros Hc. unfold is_syntax, syntax_characters.
  cbn [list_ascii_of_string existsb].
  repeat match goal with
         | |- context [Ascii.eqb c ?x] =>
             destruct (Ascii.eqb_spec c x) as [-> | _]; [by vm_compute in Hc |]
         end.
  done.
Qed.

(** The text after an escaped [?] does not start with [*]. *)
Lemma glob_pattern_head (s : string) :
  exists d t, glob_pattern s +:+ "$" = String d t /\ d <> "*"%char.
Proof.
  destruct s as [| c rest]; [by exists "$"%char, EmptyString |].
  cbn [glob_pattern].
  destruct (Ascii.eqb c "*"); [rewrite append_String; by eexists _, _ |].
  destruct (Ascii.eqb c "?"); [rewrite append_String; by eexists _, _ |].
  destruct (Hoek.is_special c) eqn:Hc; rewrite append_String; eexists _, _;
    (split; [done |]); [done |].
  intros ->. by vm_compute in Hc.
Qed.

(** The text of the pattern of a wildcard origin is in the fragment: its
    atoms are the atoms of the origin, one for each character. *)
Lemma parse_glob_pattern (origin : string) :
  parse_atoms (glob_pattern origin +:+ "$") = Some (wildcard_atoms origin).
Proof.
  induction origin as [| c rest IH]; [done |].
  unfold wildcard_atoms in *. cbn [list_ascii_of_string fmap list_fmap glob_pattern].
  unfold wildcard_atom at 1.
  destruct (Ascii.eqb_spec c "*") as [-> | Hstar].
  { rewrite !append_String. cbn [parse_atoms].
    change (Ascii.eqb "." "$") with false. change (Ascii.eqb "." "\") with false.
    change (Ascii.eqb "." ".") with true. change (Ascii.eqb "*" "*") with true.
    cbv iota. by rewrite IH. }
  destruct (Ascii.eqb_spec c "?") as [-> | Hq].
  { rewrite append_String. cbn [parse_atoms].
    change (Ascii.eqb "." "$") with false. change (Ascii.eqb "." "\") with false.
    change (Ascii.eqb "." ".") with true. cbv iota.
    destruct (glob_pattern_head rest) as (d & t & Hd & Hne). rewrite Hd in IH |- *.
    apply Ascii.eqb_neq in Hne. rewrite Hne. by rewrite IH. }
  destruct (Hoek.is_special c) eqn:Hc.
  - rewrite !append_String. cbn [parse_atoms].
    change (Ascii.eqb "\" "$") with false. change (Ascii.eqb "\" "\") with true.
    cbv iota. by rewrite Hc, IH.
  - rewrite append_String. cbn [parse_atoms].
    assert (Hd : Ascii.eqb c "$" = false)
      by (apply Ascii.eqb_neq; intros ->; by vm_compute in Hc).
    assert (Hb : Ascii.eqb c "\" = false)
      by (apply Ascii.eqb_neq; intros ->; by vm_compute in Hc).
    assert (Hp : Ascii.eqb c "." = false)
      by (apply Ascii.eqb_neq; intros ->; by vm_compute in Hc).
    by rewrite Hd, Hb, Hp, (syntax_is_special c Hc), IH.
Qed.

(** The atoms of an origin match what the origin matches. *)
Lemma wildcard_atoms_match (origin : string) :
  forall s, atoms_match (wildcard_atoms origin) s = wildcard_matches origin s.
Proof.
  induction origin as [| c rest IH]; intros s; [done |].
  unfold wildcard_atoms in *. cbn [list_ascii_of_string fmap list_fmap wildcard_matches].
  unfold wildcard_atom at 1.
  destruct (Ascii.eqb c "*").
  - cbn [atoms_match]. induction s as [| d s' IHs].
    + by rewrite IH.
    + rewrite IH. f_equal. f_equal. exact IHs.
  - destruct (Ascii.eqb c "?"); cbn [atoms_match]; destruct s as [| d s']; try done;
      by rewrite IH.
Qed.

(** X14.  What the pattern of a wildcard origin matches: the text the
    constructor builds is in the fragment, and a string matches it exactly
    when it matches the origin read as a wildcard -- [*] for any run of
    characters that are not line terminators, [?] for one such character,
    every other character, the special ones included, for itself. *)
Theorem wildcard_pattern_matches (origin s : string) :
  RegExp_test (new_RegExp (wildcard_source origin)) s
  = Some (wildcard_matches origin s).
Proof.
  rewrite wildcard_source_spec. unfold RegExp_test, RegExp_atoms, compile_wildcard.
  cbn [source].
  change ("^" +:+ glob_pattern origin +:+ "$")
    with (String "^" (glob_pattern origin +:+ "$")).
  cbv beta iota. change (Ascii.eqb "^" "^") with true. cbv iota.
  rewrite parse_glob_pattern. cbn [fmap option_fmap option_map]. f_equal.
  apply wildcard_atoms_match.
Qed.

(** The pattern of [http://*.b.com]: a subdomain matches, the dot of the
    origin matches a dot only, and nothing may follow the origin. *)
Example wildcard_pattern_examples :
  let pattern := new_RegExp (wildcard_source "http://*.b.com") in
  RegExp_test pattern "http://a.b.com" = Some true
  /\ RegExp_test pattern "http://x.y.b.com" = Some true
  /\ RegExp_test pattern "http://a.bxcom" = Some false
  /\ RegExp_test pattern "http://a.b.com.example.org" = Some false
  /\ RegExp_test pattern "https://a.b.com" = Some false.
Proof. by vm_compute. Qed.

(** ** The registry of connections *)

Section RegistryFacts.
Context `{Runtime}.

(** The registry, the connections and the numbering are all the two
    properties read. *)
Lemma registered_open_ext (w w' : World) :
  _connections w' = _connections w -> sockets w' = sockets w ->
  registered_open w -> registered_open w'.
Proof. unfold registered_open. by intros -> ->. Qed.

Lemma numbered_ext (w w' : World) :
  sockets w' = sockets w -> (next_id w <= next_id w')%nat ->
  numbered w -> numbered w'.
Proof.
  unfold numbered. intros -> Hle Hn c s Hc. specialize (Hn c s Hc). lia.
Qed.

Lemma listener_listen_loop (w : World) :
  _connections (listener_listen w) = _connections w
  /\ sockets (listener_listen w) = sockets w
  /\ next_id (listener_listen w) = next_id w.
Proof. unfold listener_listen. by destruct (listener_phase (listener w)). Qed.

Lemma call_fold_loop (cbs : list callback) (w : World) :
  sockets (foldl (fun w cb => call cb w) w cbs) = sockets w
  /\ next_id (foldl (fun w cb => call cb w) w cbs) = next_id w
  /\ _connections (foldl (fun w cb => call cb w) w cbs) = _connections w.
Proof.
  revert w. induction cbs as [| cb rest IH]; intros w; [done |].
  cbn [foldl]. by destruct (IH (call cb w)) as (-> & -> & ->).
Qed.

Lemma onListenerClose_fold_loop (handlers : list (nat * callback)) (w : World) :
  let w' := foldl (fun w handler => onListenerClose handler w) w handlers in
  sockets w' = sockets w /\ next_id w' = next_id w
  /\ _connections w' = _connections w.
Proof.
  revert w. induction handlers as [| handler rest IH]; intros w; [done |].
  cbn [foldl]. cbv zeta in IH |- *.
  destruct (IH (onListenerClose handler w)) as (-> & -> & ->).
  unfold onListenerClose, listener_removeListener. by destruct (_onConnection w).
Qed.

Lemma foldl_delete_Some (keys : list string) (m : gmap string nat) (k : string) (c : nat) :
  foldl (fun m key => delete key m) m keys !! k = Some c ->
  m !! k = Some c /\ k ∉ keys.
Proof.
  revert m. induction keys as [| key rest IH]; intros m Hk.
  - split; [done | apply not_elem_of_nil].
  - cbn [foldl] in Hk. apply IH in Hk as [Hk Hrest].
    apply lookup_delete_Some in Hk as [Hne Hk].
    split; [done |]. apply not_elem_of_cons. by split.
Qed.

Lemma onSocketClose_fold_id (keys : list string) (w : World) :
  next_id (foldl (fun w key => onSocketClose key w) w keys) = next_id w.
Proof.
  revert w. induction keys as [| k rest IH]; intros w; [done |].
  cbn [foldl]. by rewrite IH.
Qed.

(** The handler [_onConnection] keeps the registry sound. *)
Lemma onConnection_registered (c : nat) (w : World) :
  registered_open w -> numbered w ->
  registered_open (onConnection c w) /\ numbered (onConnection c w).
Proof.
  intros Hr Hn. unfold onConnection.
  destruct (sockets w !! c) as [s |] eqn:Hs; [| done].
  split.
  - intros k c' Hk. cbn in Hk |- *.
    apply lookup_insert_Some in Hk as [[<- <-] | [Hne Hk]].
    + rewrite lookup_insert_eq. eexists. split; [done |]. split; [done |].
      cbn. apply elem_of_app. right. by left.
    + destruct (Hr k c' Hk) as (s' & Hs' & Hkey & Hin).
      destruct (decide (c' = c)) as [-> | Hc].
      * rewrite lookup_insert_eq. rewrite Hs in Hs'. injection Hs' as <-.
        eexists. split; [done |]. split; [done |].
        cbn. apply elem_of_app. by left.
      * rewrite lookup_insert_ne by done. by exists s'.
  - intros c' s' Hc'. cbn in Hc' |- *.
    apply lookup_insert_Some in Hc' as [[<- _] | [_ Hc']]; by eapply Hn.
Qed.

Lemma onConnection_fold_registered (c : nat) (handlers : list nat) (w : World) :
  registered_open w -> numbered w ->
  let w' := foldl (fun w _ => onConnection c w) w handlers in
  registered_open w' /\ numbered w'.
Proof.
  revert w. induction handlers as [| h rest IH]; intros w Hr Hn; [done |].
  cbn [foldl]. destruct (onConnection_registered c w Hr Hn) as [Hr' Hn'].
  by apply IH.
Qed.

Lemma destroy_registered (c : nat) (w : World) :
  registered_open w -> numbered w ->
  registered_open (destroy c w) /\ numbered (destroy c w).
Proof.
  intros Hr Hn. unfold destroy.
  destruct (sockets w !! c) as [s |] eqn:Hs; [| done].
  split.
  - intros k c' Hk. cbn in Hk |- *.
    destruct (Hr k c' Hk) as (s' & Hs' & Hkey & Hin).
    destruct (decide (c' = c)) as [-> | Hc].
    + rewrite lookup_insert_eq. rewrite Hs in Hs'. injection Hs' as <-.
      by exists (mark s).
    + rewrite lookup_insert_ne by done. by exists s'.
  - intros c' s' Hc'. cbn in Hc' |- *.
    apply lookup_insert_Some in Hc' as [[<- _] | [_ Hc']]; by eapply Hn.
Qed.

Lemma destroy_fold_registered (entries : list (string * nat)) (w : World) :
  registered_open w -> numbered w ->
  let w' := foldl (fun w (entry : string * nat) => destroy entry.2 w) w entries in
  registered_open w' /\ numbered w'.
Proof.
  revert w. induction entries as [| e rest IH]; intros w Hr Hn; [done |].
  cbn [foldl]. destruct (destroy_registered e.2 w Hr Hn) as [Hr' Hn'].
  by apply IH.
Qed.

(** An event the listener can emit runs the handlers of the event. *)
Lemma step_emit (e : event) (w w' : World) :
  step e w = Some w' -> emit e w = w'.
Proof.
  destruct e as [| address port | c | t | |]; cbn [step emit].
  - destruct (listener_phase (listener w)); try done. by intros [= <-].
  - destruct (listener_phase (listener w)); try done. by intros [= <-].
  - destruct (sockets w !! c); [by intros [= <-] | done].
  - destruct (timers w !! t); [by intros [= <-] | done].
  - destruct (can_close w); [by intros [= <-] | done].
  - destruct (ticks w); [done | by intros [= <-]].
Qed.

(** The handlers of one event keep the registry sound. *)
Lemma emit_registered (e : event) (w : World) :
  registered_open w -> numbered w ->
  registered_open (emit e w) /\ numbered (emit e w).
Proof.
  intros Hr Hn. destruct e as [| address port | c | t | |]; cbn [emit].
  - destruct (call_fold_loop (once_listening (listener w))
                (set_phase Accepting [] (once_close (listener w)) w))
      as (Hs & Hi & Hc).
    split.
    + by eapply registered_open_ext.
    + eapply numbered_ext; [exact Hs | rewrite Hi; done | done].
  - apply onConnection_fold_registered.
    + intros k c Hk. cbn in Hk |- *.
      destruct (Hr k c Hk) as (s & Hs & Hkey & Hin).
      exists s. split; [| done]. rewrite lookup_insert_ne; [done |].
      intros <-. specialize (Hn _ _ Hs). lia.
    + intros c s Hc. cbn in Hc |- *.
      apply lookup_insert_Some in Hc as [[<- _] | [_ Hc]]; [lia |].
      specialize (Hn _ _ Hc). lia.
  - destruct (sockets w !! c) as [s |] eqn:Hs; [| done].
    destruct (onSocketClose_fold (socket_once_close s)
                (set_sockets (delete c (sockets w)) w))
      as (Hsockets & _ & _ & _ & _ & Hconnections).
    split.
    + intros k c' Hk. rewrite Hconnections in Hk. rewrite Hsockets. cbn in Hk |- *.
      apply foldl_delete_Some in Hk as [Hk Hnotin].
      destruct (Hr k c' Hk) as (s' & Hs' & Hkey & Hin).
      exists s'. split; [| done]. rewrite lookup_delete_ne; [done |].
      intros <-. rewrite Hs in Hs'. injection Hs' as <-. done.
    + intros c' s' Hc'. rewrite Hsockets in Hc'. cbn in Hc'.
      apply lookup_delete_Some in Hc' as [_ Hc'].
      specialize (Hn _ _ Hc').
      rewrite onSocketClose_fold_id. cbn.
      lia.
  - destruct (timers w !! t); [| done].
    by apply destroy_fold_registered.
  - destruct (onListenerClose_fold_loop (once_close (listener w))
                (set_phase Closed (once_listening (listener w)) [] w))
      as (Hs & Hi & Hc).
    split.
    + by eapply registered_open_ext.
    + eapply numbered_ext; [exact Hs | rewrite Hi; done | done].
  - by destruct (ticks w) as [| cb rest].
Qed.

Lemma start_registered (cb : callback) (w : World) :
  registered_open w -> numbered w ->
  registered_open (_start cb w) /\ numbered (_start cb w).
Proof.
  intros Hr Hn. unfold _start. destruct (_started w); [done |].
  destruct (listener_listen_loop (_init cb (set_started true w))) as (Hc & Hs & Hi).
  split.
  - intros k c Hk. rewrite Hc in Hk. cbn in Hk. by rewrite lookup_empty in Hk.
  - intros c s Hcs. rewrite Hs in Hcs. rewrite Hi. cbn in Hcs |- *.
    specialize (Hn _ _ Hcs). lia.
Qed.

Lemma stop_registered (options : option loc) (cb : callback) (w : World) :
  registered_open w -> numbered w ->
  registered_open (_stop options cb w) /\ numbered (_stop options cb w).
Proof.
  intros Hr Hn. unfold _stop.
  destruct (default_timeout_fields options w)
    as (Hs' & Hc' & _ & _ & _ & Hk' & _ & _ & Hn' & _).
  assert (Hr' : registered_open (default_timeout options w))
    by (by eapply registered_open_ext).
  assert (Hnum : numbered (default_timeout options w))
    by (eapply numbered_ext; [exact Hk' | rewrite Hn'; done | done]).
  destruct (_started (default_timeout options w)); [| done]. cbn. split; [done |].
  intros c s Hc. cbn. specialize (Hnum _ _ Hc). lia.
Qed.

(** X15.  Whatever calls of [_start] and [_stop] are made on a constructed
    server, whatever options objects their callers make, and in whatever
    order the handlers of the listener, of the connections, of the timers
    and of the queue are run, every entry of the registry is an open
    connection, stored under the key of that connection, whose close
    handlers delete the entry: the timer of [_stop] never finds a closed
    connection in the registry. *)
Theorem registry_holds_open_connections (actions : list action) (k : string) (c : nat) :
  _connections (perform_all actions constructed) !! k = Some c ->
  exists s, sockets (perform_all actions constructed) !! c = Some s
            /\ connection_key s = k
            /\ k ∈ socket_once_close s.
Proof.
  assert (Hinv : registered_open (perform_all actions constructed)
                 /\ numbered (perform_all actions constructed));
    [| destruct Hinv as [Hr _]; apply Hr].
  assert (Hstart : registered_open constructed /\ numbered constructed).
  { split; intros ? ? Hl; cbn in Hl; by rewrite lookup_empty in Hl. }
  revert Hstart. generalize constructed. unfold perform_all.
  induction actions as [| a rest IH]; intros w0 [Hr Hn]; [done |].
  cbn [foldl]. apply IH. destruct a as [cb | options cb | e | l o]; cbn [perform].
  - by apply start_registered.
  - by apply stop_registered.
  - by apply emit_registered.
  - done.
Qed.

End RegistryFacts.

(** ** Start and stop, further *)

Section LifecycleFacts.
Context `{Runtime}.

(** The handlers of connections leave the server's flags alone. *)
Lemma onSocketClose_fold_server (keys : list string) (w : World) :
  let w' := foldl (fun w key => onSocketClose key w) w keys in
  _started w' = _started w /\ _onConnection w' = _onConnection w
  /\ next_id w' = next_id w.
Proof.
  revert w. induction keys as [| k rest IH]; intros w; [done |].
  cbn [foldl]. cbv zeta in IH |- *.
  by destruct (IH (onSocketClose k w)) as (-> & -> & ->).
Qed.


Lemma step_serving (cb : callback) (e : event) (w w' : World) :
  serving cb w ->
  _started w = true -> on_connection (listener w) = [0%nat] ->
  _onConnection w = Some 0%nat ->
  once_close (listener w) = [] -> timers w = ∅ -> ticks w = [] ->
  numbered w -> tracked w ->
  fresh_keys [e] w ->
  step e w = Some w' ->
  serving cb w'
  /\ _started w' = true /\ on_connection (listener w') = [0%nat]
  /\ _onConnection w' = Some 0%nat
  /\ once_close (listener w') = [] /\ timers w' = ∅ /\ ticks w' = []
  /\ numbered w' /\ tracked w'
  /\ (e = Listening \/ listener_phase (listener w) = Accepting ->
      listener_phase (listener w') = Accepting).
Proof.
  intros Hs Hstarted Hh Hon Hclose Htimers Hticks Hn Htr [Hfresh _] Hstep.
  destruct e as [| address port | c | t | |].
  - cbn [step] in Hstep.
    destruct Hs as [Hp Hl Hcalled Hsockets | Hp Hl Hcalled]; rewrite Hp in Hstep; [| done].
    injection Hstep as <-. rewrite Hl. cbn.
    split_and!; try done.
    apply serving_accepting; cbn; by rewrite ?Hcalled.
  - pose proof (connection_tracked address port 0 w w' Htr Hh) as Htr'.
    assert (Hnone : sockets w !! next_id w = None).
    { destruct (sockets w !! next_id w) as [s |] eqn:Hs'; [| done].
      specialize (Hn _ _ Hs'). lia. }
    specialize (Htr' Hnone Hfresh Hstep).
    cbn [step] in Hstep.
    destruct Hs as [Hp Hl Hcalled Hsockets | Hp Hl Hcalled]; rewrite Hp in Hstep; [done |].
    injection Hstep as Hw'. rewrite Hh in Hw'. cbn [foldl] in Hw'.
    unfold onConnection in Hw'. cbn in Hw'. rewrite lookup_insert_eq in Hw'. cbn in Hw'.
    subst w'. cbn. split_and!; try done.
    + by apply serving_accepting.
    + intros c s Hc. cbn in Hc |- *. rewrite insert_insert_eq in Hc.
      apply lookup_insert_Some in Hc as [[<- _] | [_ Hc]]; [lia |].
      specialize (Hn _ _ Hc). lia.
  - cbn [step] in Hstep. destruct (sockets w !! c) as [s |] eqn:Hsc; [| done].
    injection Hstep as <-.
    pose proof (socket_close_tracked w c s Htr Hsc) as Htr'.
    set (w2 := set_sockets (delete c (sockets w)) w) in *.
    destruct (onSocketClose_fold (socket_once_close s) w2)
      as (Hs' & Ht' & Hk' & Hl' & Hcalled' & _).
    destruct (onSocketClose_fold_server (socket_once_close s) w2) as (Hst & Hoc & Hid).
    change (_started w2) with (_started w) in Hst.
    change (_onConnection w2) with (_onConnection w) in Hoc.
    change (next_id w2) with (next_id w) in Hid.
    change (sockets w2) with (delete c (sockets w)) in Hs'.
    change (timers w2) with (timers w) in Ht'.
    change (ticks w2) with (ticks w) in Hk'.
    change (listener w2) with (listener w) in Hl'.
    change (called w2) with (called w) in Hcalled'.
    split_and!; try congruence.
    + destruct Hs as [Hp Hl Hcalled Hsockets | Hp Hl Hcalled].
      * by rewrite Hsockets, lookup_empty in Hsc.
      * apply serving_accepting; congruence.
    + intros c' s' Hc'. rewrite Hs' in Hc'. rewrite Hid.
      apply lookup_delete_Some in Hc' as [_ Hc']. by eapply Hn.
    + done.
    + intros [? | Hp]; [done | congruence].
  - cbn in Hstep. by rewrite Htimers, lookup_empty in Hstep.
  - cbn in Hstep. unfold can_close in Hstep.
    by destruct Hs as [Hp _ _ _ | Hp _ _]; rewrite Hp in Hstep.
  - cbn in Hstep. by rewrite Hticks in Hstep.
Qed.

(** X16.  A server that was started, and to which connections have come
    with keys no open connection had, has every open connection in its
    registry under its key; once it listens it is in the state [stop] is
    proved for: started, accepting, no timer and no tick pending, the
    callback of [start] invoked. *)
Theorem started_server_is_tracked (cb : callback) (events : list event) (w : World) :
  run events (_start cb constructed) = Some w ->
  fresh_keys events (_start cb constructed) ->
  tracked w
  /\ (Listening ∈ events -> listening w /\ called w = [cb]).
Proof.
  intros Hrun Hfresh.
  set (w0 := _start cb constructed) in *.
  assert (Hinv : serving cb w0
                 /\ _started w0 = true /\ on_connection (listener w0) = [0%nat]
                 /\ _onConnection w0 = Some 0%nat
                 /\ once_close (listener w0) = [] /\ timers w0 = ∅ /\ ticks w0 = []
                 /\ numbered w0 /\ tracked w0).
  { split_and!; try done; try (by apply serving_binding);
      intros c s Hc; cbn in Hc; by rewrite lookup_empty in Hc. }
  assert (Hgoal : tracked w
                  /\ (listener_phase (listener w0) = Accepting \/ Listening ∈ events ->
                      listening w /\ called w = [cb])).
  2:{ destruct Hgoal as [Htr Hl]. split; [done |]. intros Hin. apply Hl. by right. }
  clearbody w0. revert w0 Hrun Hfresh Hinv.
  induction events as [| e rest IH];
    intros w0 Hrun Hfresh (Hs & Hstarted & Hh & Hon & Hclose & Htimers & Hticks & Hn & Htr).
  - injection Hrun as <-. split; [done |].
    intros [Hp | Hin]; [| by apply elem_of_nil in Hin].
    destruct Hs as [Hp' _ _ _ | _ Hl Hcalled]; [congruence |].
    by split_and!.
  - cbn [run] in Hrun. destruct (step e w0) as [w1 |] eqn:Hstep; [| done].
    cbn [fresh_keys] in Hfresh. rewrite Hstep in Hfresh.
    destruct Hfresh as [Hfe Hfrest].
    destruct (step_serving cb e w0 w1 Hs Hstarted Hh Hon Hclose Htimers Hticks Hn Htr)
      as (Hs1 & Hstarted1 & Hh1 & Hon1 & Hclose1 & Htimers1 & Hticks1 & Hn1 & Htr1 & Hlis);
      [cbn [fresh_keys]; rewrite Hstep; by split | done |].
    destruct (IH w1 Hrun Hfrest) as [Htrw Hl]; [by split_and! |].
    split; [done |]. intros Hor. apply Hl.
    destruct Hor as [Hp | Hin]; [left; apply Hlis; by right |].
    apply elem_of_cons in Hin as [<- | Hin]; [left; apply Hlis; by left | by right].
Qed.



End LifecycleFacts.

(** ** The load monitor *)

Section LoadMonitorFacts.
Context `{Runtime}.

(** No handler touches the two flags of the server. *)
Lemma foldl_flags {A} (f : World -> A -> World) (l : list A) :
  (forall w a, _started (f w a) = _started w
               /\ heavy_started (f w a) = heavy_started w) ->
  forall w, _started (foldl f w l) = _started w
            /\ heavy_started (foldl f w l) = heavy_started w.
Proof.
  intros Hf. induction l as [| a rest IH]; intros w; [done |].
  cbn [foldl]. destruct (IH (f w a)) as [-> ->]. apply Hf.
Qed.

Lemma emit_flags (e : event) (w : World) :
  _started (emit e w) = _started w /\ heavy_started (emit e w) = heavy_started w.
Proof.
  destruct e as [| address port | c | t | |]; cbn [emit].
  - by destruct (foldl_flags (fun w cb => call cb w) (once_listening (listener w))
                   ltac:(done)
                   (set_phase Accepting [] (once_close (listener w)) w)) as [-> ->].
  - assert (Hf : forall (w1 : World) (h : nat),
               _started (onConnection (next_id w) w1) = _started w1
               /\ heavy_started (onConnection (next_id w) w1) = heavy_started w1).
    { intros w1 _. unfold onConnection. by destruct (sockets w1 !! next_id w). }
    match goal with
    | |- context [foldl ?f ?w0 ?l] => by destruct (foldl_flags f l Hf w0) as [-> ->]
    end.
  - destruct (sockets w !! c) as [s |]; [| done].
    by destruct (foldl_flags (fun w key => onSocketClose key w) (socket_once_close s)
                   ltac:(done)
                   (set_sockets (delete c (sockets w)) w)) as [-> ->].
  - destruct (timers w !! t); [| done].
    unfold onTimeout.
    assert (Hf : forall (w1 : World) (entry : string * nat),
               _started (destroy entry.2 w1) = _started w1
               /\ heavy_started (destroy entry.2 w1) = heavy_started w1).
    { intros w1 entry. unfold destroy. by destruct (sockets w1 !! entry.2). }
    by destruct (foldl_flags (fun w (entry : string * nat) => destroy entry.2 w)
                   (map_to_list (_connections (set_timers (delete t (timers w)) w)))
                   Hf (set_timers (delete t (timers w)) w)) as [-> ->].
  - assert (Hf : forall (w1 : World) (handler : nat * callback),
               _started (onListenerClose handler w1) = _started w1
               /\ heavy_started (onListenerClose handler w1) = heavy_started w1).
    { intros w1 handler. unfold onListenerClose, listener_removeListener.
      by destruct (_onConnection w1). }
    by destruct (foldl_flags (fun w handler => onListenerClose handler w)
                   (once_close (listener w)) Hf
                   (set_phase Closed (once_listening (listener w)) [] w)) as [-> ->].
  - by destruct (ticks w) as [| cb rest].
Qed.

(** X21.  The load monitor runs exactly while the server is started:
    whatever calls of [_start] and [_stop] are made on a constructed server,
    whatever options objects their callers make, and in whatever order the
    handlers of the listener, of the connections, of the timers and of the
    queue are run, the sampling [_init] starts and [_stop] stops is on when
    [_started] is set and off when it is not. *)
Theorem load_monitor_follows_started (actions : list action) :
  heavy_started (perform_all actions constructed)
  = _started (perform_all actions constructed).
Proof.
  assert (Hstart : heavy_started constructed = _started constructed) by done.
  revert Hstart. generalize constructed. unfold perform_all.
  induction actions as [| a rest IH]; intros w0 Hinv; [done |].
  cbn [foldl]. apply IH. destruct a as [cb | options cb | e | l o]; cbn [perform].
  - unfold _start. destruct (_started w0) eqn:Hs.
    + by rewrite <- Hs in Hinv.
    + unfold listener_listen.
      by destruct (listener_phase (listener (_init cb (set_started true w0)))).
  - unfold _stop.
    destruct (default_timeout_fields options w0) as (Hs' & _ & _ & Hh' & _).
    destruct (_started (default_timeout options w0)) eqn:Hs; cbn.
    + done.
    + rewrite Hh', Hs. congruence.
  - by destruct (emit_flags e w0) as [-> ->].
  - done.
Qed.

End LoadMonitorFacts.

(** ** The further properties on concrete servers *)

Lemma port_skips_undefined_witness :
  let args := [VUndefined; VNumber (of_int 8080); VUndefined; VObject 1%positive] in
  (length args <= 4)%nat
  /\ port (H := integer_runtime) args
     = port (H := integer_runtime) [VNumber (of_int 8080); VObject 1%positive].
Proof.
  intros args.
  assert (Hlen : (length args <= 4)%nat) by (simpl; lia).
  split; [exact Hlen |].
  exact (proj1 (port_skips_undefined (H := integer_runtime) args) Hlen).
Defined.

Lemma port_result_shape_witness :
  exists r,
    port (H := integer_runtime) [VString "example.com"; VString "8080"] = Ok r
    /\ (forall v, r !! "host" = Some v ->
          exists s, v = VString s /\ isFinite (integer_ToNumber s) = false)
    /\ (forall v, r !! "port" = Some v -> exists n, v = VNumber n).
Proof.
  destruct (port (H := integer_runtime) [VString "example.com"; VString "8080"])
    as [r | e] eqn:Hport; [| by vm_compute in Hport].
  exists r. split; [reflexivity |].
  destruct (port_result_shape (H := integer_runtime) _ r Hport)
    as (_ & Hhost & Hp & _).
  split; [exact Hhost | exact Hp].
Defined.

Lemma port_numeric_string_is_number_witness :
  isFinite (integer_ToNumber "8080") = true
  /\ port (H := integer_runtime) [VString "example.com"; VString "8080"]
     = port (H := integer_runtime) [VString "example.com"; VNumber (of_int 8080)].
Proof.
  assert (Hfin : isFinite (integer_ToNumber "8080") = true) by reflexivity.
  split; [exact Hfin |].
  exact (port_numeric_string_is_number (H := integer_runtime)
           [VString "example.com"] [] "8080" Hfin).
Defined.

Lemma port_order_irrelevant_witness :
  port (H := integer_runtime) [VNumber (of_int 8080); VString "example.com"]
  = port (H := integer_runtime) [VString "example.com"; VNumber (of_int 8080)].
Proof.
  apply (port_order_irrelevant (H := integer_runtime)).
  - apply perm_swap.
  - intros v Hin _.
    repeat (apply elem_of_cons in Hin as [-> | Hin]; [vm_compute; eauto |]).
    by apply elem_of_nil in Hin.
  - apply (bool_decide_unpack _). vm_compute. exact I.
  - intros p q Hp _ Hpack.
    repeat (apply elem_of_cons in Hp as [-> | Hp]; [discriminate Hpack |]).
    by apply elem_of_nil in Hp.
Defined.

Lemma socket_server_has_no_port_witness :
  let σ := {| internals_defaults := defaults; heap := ∅ |} in
  (exists srv σ',
     new_Server (H := integer_runtime) (H0 := any_schema)
       [VString "/tmp/hapi.sock"] σ = (Ok srv, σ')
     /\ info_port (info srv) = of_int 0
     /\ info_uri (info srv) = Some "unix:/tmp/hapi.sock")
  /\ exists σ',
       new_Server (H := integer_runtime) (H0 := any_schema)
         [VString "/tmp/hapi.sock"; VNumber (of_int 0)] σ
       = (Throw (AssertionError "Cannot specify port with a UNIX domain socket"), σ').
Proof.
  intros σ.
  assert (Hport1 : port (H := integer_runtime) [VString "/tmp/hapi.sock"]
                   = Ok {[ "host" := VString "/tmp/hapi.sock" ]})
    by (vm_compute; reflexivity).
  assert (Hport2 : port (H := integer_runtime)
                     [VString "/tmp/hapi.sock"; VNumber (of_int 0)]
                   = Ok (<["port" := VNumber (of_int 0)]>
                           {[ "host" := VString "/tmp/hapi.sock" ]}))
    by (vm_compute; reflexivity).
  destruct (Realm (H := integer_runtime) (H0 := any_schema) VUndefined σ)
    as [[realm | e] σ'] eqn:HRealm; [| by vm_compute in HRealm].
  assert (Hsock : indexOf "/tmp/hapi.sock" "/" <> (-1)%Z
                  \/ indexOf "/tmp/hapi.sock" "\\.\pipe\" = 0%Z)
    by (left; by vm_compute).
  split.
  - destruct (socket_server_has_no_port (H := integer_runtime) (H0 := any_schema)
                _ σ σ' _ "/tmp/hapi.sock" realm Hport1 eq_refl HRealm Hsock)
      as [_ Hok].
    destruct (Hok eq_refl) as (srv & Hnew & Hhost & Hp & _ & Huri).
    exists srv, σ'. split; [exact Hnew |]. split; [exact Hp |].
    rewrite Huri, Hhost. reflexivity.
  - destruct (socket_server_has_no_port (H := integer_runtime) (H0 := any_schema)
                _ σ σ' _ "/tmp/hapi.sock" realm Hport2 eq_refl HRealm Hsock)
      as [Hthrow _].
    exists σ'. exact (Hthrow eq_refl).
Defined.

Lemma tcp_server_information_witness :
  let σ := {| internals_defaults := defaults; heap := ∅ |} in
  exists srv σ',
    new_Server (H := integer_runtime) (H0 := any_schema)
      [VString "Example.COM"; VNumber (of_int 8080)] σ = (Ok srv, σ')
    /\ truthy (_unixDomainSocket srv) = false
    /\ truthy (_windowsNamedPipe srv) = false
    /\ info_protocol (info srv) = "http"
    /\ info_uri (info srv) = Some "http://example.com:8080".
Proof.
  intros σ.
  destruct (new_Server (H := integer_runtime) (H0 := any_schema)
              [VString "Example.COM"; VNumber (of_int 8080)] σ)
    as [[srv | e] σ'] eqn:Hnew; [| by vm_compute in Hnew].
  pose proof Hnew as Hnf. vm_compute in Hnf. injection Hnf as <- <-.
  eexists _, _. split; [exact Hnew |].
  destruct (tcp_server_information (H := integer_runtime) (H0 := any_schema)
              _ _ _ _ Hnew eq_refl eq_refl)
    as (args & _ & _ & _ & _ & Hproto & _ & Huri).
  split; [reflexivity |]. split; [reflexivity |].
  split; [exact Hproto |]. rewrite Huri. vm_compute. reflexivity.
Defined.

Lemma listening_tcp_information_witness :
  let σ := {| internals_defaults := defaults; heap := ∅ |} in
  exists srv σ',
    new_Server (H := integer_runtime) (H0 := any_schema) [VString EmptyString] σ
    = (Ok srv, σ')
    /\ info_uri (info srv) = None
    /\ live_port (onListening (H := integer_runtime) srv
                    (TcpAddress "0.0.0.0" (of_int 49152)))
       = VNumber (of_int 49152)
    /\ live_uri (onListening (H := integer_runtime) srv
                   (TcpAddress "0.0.0.0" (of_int 49152)))
       = Some "http://localhost:49152".
Proof.
  intros σ.
  destruct (new_Server (H := integer_runtime) (H0 := any_schema)
              [VString EmptyString] σ)
    as [[srv | e] σ'] eqn:Hnew; [| by vm_compute in Hnew].
  pose proof Hnew as Hnf. vm_compute in Hnf. injection Hnf as <- <-.
  eexists _, _. split; [exact Hnew |].
  destruct (listening_tcp_information (H := integer_runtime) (H0 := any_schema)
              _ _ _ _ "0.0.0.0" (of_int 49152) Hnew eq_refl eq_refl)
    as (Hport & _ & _ & Huri & Hnone & _).
  split; [exact (Hnone eq_refl) |]. split; [exact Hport |].
  rewrite Huri. vm_compute. reflexivity.
Defined.

Lemma listening_socket_information_witness :
  let σ := {| internals_defaults := defaults; heap := ∅ |} in
  exists srv σ',
    new_Server (H := integer_runtime) (H0 := any_schema)
      [VString "/tmp/hapi.sock"] σ = (Ok srv, σ')
    /\ info_uri (info srv) = Some "unix:/tmp/hapi.sock"
    /\ live_port (onListening (H := integer_runtime) srv
                    (PathAddress "/tmp/hapi.sock")) = VUndefined
    /\ live_uri (onListening (H := integer_runtime) srv
                   (PathAddress "/tmp/hapi.sock"))
       = Some "unix:///tmp/hapi.sock:undefined".
Proof.
  intros σ.
  destruct (new_Server (H := integer_runtime) (H0 := any_schema)
              [VString "/tmp/hapi.sock"] σ)
    as [[srv | e] σ'] eqn:Hnew; [| by vm_compute in Hnew].
  pose proof Hnew as Hnf. vm_compute in Hnf. injection Hnf as <- <-.
  eexists _, _. split; [exact Hnew |].
  destruct (listening_socket_information (H := integer_runtime) (H0 := any_schema)
              _ _ _ _ "/tmp/hapi.sock" Hnew eq_refl)
    as (_ & Huri & _ & Hone & _).
  destruct (Hone eq_refl) as (Hport & _ & Hlive).
  split; [rewrite Huri; vm_compute; reflexivity |]. split; [exact Hport |].
  rewrite Hlive. vm_compute. reflexivity.
Defined.

Lemma location_trailing_slash_witness :
  let settings :=
    merged {| Raw.tls := None; Raw.location := Some "http://example.com/";
              Raw.cacheControlStatus := None; Raw.timeout := None;
              Raw.labels := None; Raw.cors := None; Raw.security := None |} in
  Schema_server (Schema := any_schema) settings = true
  /\ resolve (H := integer_runtime) (H0 := any_schema) defaults settings
     = Throw (AssertionError "Location setting must not contain a trailing '/'").
Proof.
  intros settings.
  assert (Hschema : Schema_server (Schema := any_schema) settings = true)
    by reflexivity.
  split; [exact Hschema |].
  apply (location_trailing_slash (H := integer_runtime) (H0 := any_schema)
           defaults settings Hschema).
  by exists "http://example.com".
Defined.

Lemma labels_are_unique_witness :
  let settings :=
    merged {| Raw.tls := None; Raw.location := None;
              Raw.cacheControlStatus := None; Raw.timeout := None;
              Raw.labels := Some (LabelArray ["api"; "web"; "api"]);
              Raw.cors := None; Raw.security := None |} in
  exists s,
    resolve (H := integer_runtime) (H0 := any_schema) defaults settings = Ok s
    /\ labels s = ["api"; "web"]
    /\ NoDup (labels s).
Proof.
  intros settings.
  destruct (resolve (H := integer_runtime) (H0 := any_schema) defaults settings)
    as [s | e] eqn:Hresolve; [| by vm_compute in Hresolve].
  exists s. split; [reflexivity |].
  destruct (labels_are_unique (H := integer_runtime) (H0 := any_schema)
              defaults settings s Hresolve) as (Hfirst & Hnd & _).
  split; [| exact Hnd].
  rewrite Hfirst. vm_compute. reflexivity.
Defined.

Lemma cacheControlStatus_lookup_witness :
  exists s,
    resolve (H := integer_runtime) (H0 := any_schema) defaults
      (defaults_server defaults) = Ok s
    /\ _cacheControlStatus s !! 200%Z = Some true
    /\ _cacheControlStatus s !! 404%Z = None.
Proof.
  destruct (resolve (H := integer_runtime) (H0 := any_schema) defaults
              (defaults_server defaults))
    as [s | e] eqn:Hresolve; [| by vm_compute in Hresolve].
  exists s. split; [reflexivity |].
  pose proof (cacheControlStatus_lookup (H := integer_runtime) (H0 := any_schema)
                defaults _ s Hresolve) as Hlookup.
  pose proof Hresolve as Hnf. vm_compute in Hnf. injection Hnf as <-.
  split; [exact (Hlookup 200%Z) | exact (Hlookup 404%Z)].
Defined.

Lemma cors_origins_accounted_witness :
  let c := cors_with ["http://a.com"; "http://*.b.com"] true in
  _origin c = None
  /\ exists c',
       generate_cors c = Ok c'
       /\ _headers c' = Some "Authorization, Content-Type, If-None-Match"
       /\ origin c' = ["http://a.com"; "http://*.b.com"].
Proof.
  intros c.
  assert (Hnone : _origin c = None) by reflexivity.
  split; [exact Hnone |].
  destruct (generate_cors c) as [c' | e] eqn:Hc; [| by vm_compute in Hc].
  exists c'. split; [reflexivity |].
  destruct (cors_origins_accounted c c' Hnone Hc) as (Hh & _ & _ & Ho & _).
  split; [exact Hh | exact Ho].
Defined.

Lemma registry_holds_open_connections_witness :
  let actions :=
    [ Start 0; Deliver Listening;
      Deliver (Connection (VString "10.0.0.1") (VNumber (of_int 4000)));
      Stop None 1; Start 2; Deliver Listening;
      Deliver (Connection (VString "10.0.0.2") (VNumber (of_int 5000))) ] in
  let w := perform_all (H := integer_runtime) actions constructed in
  exists s,
    _connections w !! "10.0.0.2:5000" = Some 4%nat
    /\ _connections w !! "10.0.0.1:4000" = None
    /\ sockets w !! 4%nat = Some s
    /\ connection_key (H := integer_runtime) s = "10.0.0.2:5000".
Proof.
  intros actions w.
  assert (Hentry : _connections w !! "10.0.0.2:5000" = Some 4%nat)
    by (vm_compute; reflexivity).
  destruct (registry_holds_open_connections (H := integer_runtime) actions
              "10.0.0.2:5000" 4%nat Hentry) as (s & Hs & Hkey & _).
  exists s. split; [exact Hentry |].
  split; [vm_compute; reflexivity |].
  split; [exact Hs | exact Hkey].
Defined.

Lemma started_server_is_tracked_witness :
  let events := [Listening; Connection (VString "10.0.0.1") (VNumber (of_int 4000))] in
  run (H := integer_runtime) events (_start 0 constructed) = Some one_connection
  /\ fresh_keys (H := integer_runtime) events (_start 0 constructed)
  /\ tracked (H := integer_runtime) one_connection
  /\ listening one_connection.
Proof.
  intros events.
  assert (Hrun : run (H := integer_runtime) events (_start 0 constructed)
                 = Some one_connection) by (vm_compute; reflexivity).
  assert (Hfresh : fresh_keys (H := integer_runtime) events (_start 0 constructed)).
  { unfold events. cbn [fresh_keys]. split; [exact I |].
    destruct (step (H := integer_runtime) Listening (_start 0 constructed))
      as [w1 |] eqn:Hstep; [| exact I].
    vm_compute in Hstep. injection Hstep as <-.
    split.
    - intros c s Hc. by vm_compute in Hc.
    - by destruct (step _ _). }
  split; [exact Hrun |]. split; [exact Hfresh |].
  destruct (started_server_is_tracked (H := integer_runtime) 0 events one_connection
              Hrun Hfresh) as [Htr Hl].
  split; [exact Htr |]. apply Hl. apply list_elem_of_here.
Defined.


Lemma inject_strips_credentials_witness :
  let o : gmap string value :=
    {[ "url" := VString "/"; "credentials" := VObject 7%positive ]} in
  let h : Objects := {[ 1%positive := o ]} in
  h !! 1%positive = Some o
  /\ dispatch_credentials (needle (inject 1%positive h).1) = VObject 7%positive
  /\ (inject 1%positive h).2 !! 1%positive = Some o
  /\ exists s,
       (inject 1%positive h).2 !! shot_settings (inject 1%positive h).1 = Some s
       /\ truthy (prop s "credentials") = false
       /\ s !! "url" = Some (VString "/").
Proof.
  intros o h.
  assert (Ho : h !! 1%positive = Some o) by (vm_compute; reflexivity).
  split; [exact Ho |].
  destruct (inject_strips_credentials 1%positive h o Ho)
    as (Hframe & Hcred & _ & (s & Hs & Hfalsy & Hsame) & _).
  split; [rewrite Hcred; vm_compute; reflexivity |].
  split; [exact (Hframe _ _ Ho) |].
  exists s. split; [exact Hs |]. split; [exact Hfalsy |].
  rewrite (Hsame "url") by done. vm_compute. reflexivity.
Defined.
